(** * TinyNeuralNetwork: the quantization graph engine of
      [tinynn/graph/quantization/quantizer.py]

    A shallow embedding of the rule compiler, the fusion matcher, the
    quantization propagator, the quantizer constructors and the algebraic
    rewrites of [rewrite_quantize_graph], with the properties the
    specification states about them. *)

From Stdlib Require Import ZArith Ascii String Floats.SpecFloat.
From stdpp Require Import gmap strings stringmap list pretty.

Set Default Proof Using "Type".

(** ** Python exceptions and results *)

Inductive exn :=
  | AssertionError (msg : string)
  | UnboundLocalError
  | KeyError
  | IndexError
  | ValueError
  | ZeroDivisionError
  | OverflowError.

Inductive result (A : Type) :=
  | Ok (a : A)
  | Raise (e : exn).
Arguments Ok {A} a.
Arguments Raise {A} e.

#[global] Instance result_bind : MBind result := λ A B k m,
  match m with
  | Ok a => k a
  | Raise e => Raise e
  end.

#[global] Instance result_fmap : FMap result := λ A B f m,
  match m with
  | Ok a => Ok (f a)
  | Raise e => Raise e
  end.

Definition is_ok {A} (r : result A) : bool :=
  match r with Ok _ => true | Raise _ => false end.

(** ** Operator types

    A fusion rule is a tuple of operator types; a module is matched by its
    class, a [TraceFunction] by its [kind] string. *)

Inductive optype :=
  | ModuleClass (qualname : string)
  | FuncKind (kind : string).

#[global] Instance optype_eq_dec : EqDecision optype.
Proof. solve_decision. Defined.

Definition rule := list optype.

(** ** The rule compiler ([load_processed_qat_rules])

    A processed rule dictionary is a Python [dict] from operator type to the
    mutable pair [[has_key, child_nodes]].  The dictionary is kept as an
    association list in insertion order with unique keys. *)

Inductive rule_dict :=
  | RuleDict (entries : list (optype * (bool * rule_dict))).

Abbreviation rule_entries := (list (optype * (bool * rule_dict))).

Definition rd_entries (d : rule_dict) : rule_entries :=
  match d with RuleDict es => es end.

(** [d[k]] and [k in d] *)
Fixpoint rd_lookup (k : optype) (es : rule_entries) : option (bool * rule_dict) :=
  match es with
  | [] => None
  | (k', v) :: es' => if decide (k' = k) then Some v else rd_lookup k es'
  end.

(** [d.setdefault(k, v)]: a new key goes last *)
Definition rd_setdefault (k : optype) (v : bool * rule_dict) (es : rule_entries)
  : rule_entries :=
  match rd_lookup k es with
  | Some _ => es
  | None => es ++ [(k, v)]
  end.

(** in-place mutation of the pair stored under [k] *)
Fixpoint rd_alter (f : bool * rule_dict → bool * rule_dict) (k : optype)
    (es : rule_entries) : rule_entries :=
  match es with
  | [] => []
  | (k', v) :: es' =>
      if decide (k' = k) then (k', f v) :: es' else (k', v) :: rd_alter f k es'
  end.

(** The inner loop over [reversed(fuse_rule)] together with the final
    [base_rule_pair[0] = True]; the argument is the rule already reversed.
    Each step does [setdefault], takes the pair and descends into its child
    dictionary; the pair reached last gets its flag set. *)
Fixpoint insert_rule (rev_rule : list optype) (es : rule_entries) : rule_entries :=
  match rev_rule with
  | [] => es
  | module_cls :: rest =>
      rd_alter
        (λ base_rule_pair,
           match rest with
           | [] => (true, base_rule_pair.2)
           | _ :: _ =>
               (base_rule_pair.1,
                RuleDict (insert_rule rest (rd_entries base_rule_pair.2)))
           end)
        module_cls
        (rd_setdefault module_cls (false, RuleDict []) es)
  end.

(** [sorted(rules, key=lambda x: len(x), reverse=True)]: a stable sort, the
    argument list being the iteration order of the rule set *)
Fixpoint insert_by_len (r : rule) (rs : list rule) : list rule :=
  match rs with
  | [] => [r]
  | r' :: rs' =>
      if decide (length r < length r')%nat then r' :: insert_by_len r rs'
      else r :: r' :: rs'
  end.

Definition sorted_by_len_desc (rs : list rule) : list rule :=
  foldr insert_by_len [] rs.

(** The loop over the sorted rules.  [bound] tells whether the local
    [base_rule_pair] has been assigned yet: an empty rule leaves it as the
    previous rule left it (already flagged) and is an error when no rule came
    before. *)
Fixpoint compile_loop (fuse_rules : list rule) (bound : bool)
    (rule_dict_ : rule_entries) : result rule_entries :=
  match fuse_rules with
  | [] => Ok rule_dict_
  | fuse_rule :: rest =>
      match fuse_rule with
      | [] => if bound then compile_loop rest bound rule_dict_
              else Raise UnboundLocalError
      | _ :: _ => compile_loop rest true (insert_rule (reverse fuse_rule) rule_dict_)
      end
  end.

Definition compile_rules (rule_list : list rule) : result rule_entries :=
  compile_loop (sorted_by_len_desc rule_list) false [].

(** [load_processed_qat_rules()] with the module-level cache
    [processed_qat_rules] threaded through: the result and the cache after
    the call. *)
Definition load_processed_qat_rules (FUSE_RULE_LIST : list rule)
    (processed_qat_rules : rule_entries) : result (rule_entries * rule_entries) :=
  if decide (length processed_qat_rules = 0%nat) then
    rule_dict_ ← compile_rules FUSE_RULE_LIST;
    (* processed_qat_rules.update(rule_dict) on the empty cache *)
    Ok (processed_qat_rules ++ rule_dict_, processed_qat_rules ++ rule_dict_)
  else Ok (processed_qat_rules, processed_qat_rules).

(** Looking a chain up, latest consumer first: the [has_key] flag reported at
    each depth reached. *)
Fixpoint lookup_flags (path : list optype) (es : rule_entries) : list bool :=
  match path with
  | [] => []
  | c :: rest =>
      match rd_lookup c es with
      | None => []
      | Some (flag, child) => flag :: lookup_flags rest (rd_entries child)
      end
  end.

(** The flag of the node a whole path leads to; [false] when the path leaves
    the dictionary. *)
Fixpoint terminal_at (path : list optype) (es : rule_entries) : bool :=
  match path with
  | [] => false
  | c :: rest =>
      match rd_lookup c es with
      | None => false
      | Some (flag, child) =>
          match rest with
          | [] => flag
          | _ :: _ => terminal_at rest (rd_entries child)
          end
      end
  end.

(** the rule table of the module *)
Definition Conv1d := ModuleClass "torch.nn.Conv1d".
Definition Conv2d := ModuleClass "torch.nn.Conv2d".
Definition Conv3d := ModuleClass "torch.nn.Conv3d".
Definition BatchNorm1d := ModuleClass "torch.nn.BatchNorm1d".
Definition BatchNorm2d := ModuleClass "torch.nn.BatchNorm2d".
Definition BatchNorm3d := ModuleClass "torch.nn.BatchNorm3d".
Definition ReLU := ModuleClass "torch.nn.ReLU".
Definition Linear := ModuleClass "torch.nn.Linear".

Definition FUSE_RULE_LIST : list rule :=
  [ [Conv1d; BatchNorm1d];
    [Conv1d; BatchNorm1d; ReLU];
    [Conv2d; BatchNorm2d];
    [Conv2d; BatchNorm2d; ReLU];
    [Conv3d; BatchNorm3d];
    [Conv3d; BatchNorm3d; ReLU];
    [Conv1d; ReLU];
    [Conv2d; ReLU];
    [Conv3d; ReLU];
    [Linear; ReLU];
    [BatchNorm2d; ReLU];
    [BatchNorm3d; ReLU] ].

(** ** The traced graph

    Nodes are Python objects that refer to one another; here a node is
    referred to by its [unique_name] and the graph owns the objects in
    [nodes_map].  A traced graph has an object behind every reference. *)

Inductive dtype :=
  | float32 | float64 | float16 | int32 | int64 | uint8 | bool_dtype
  | quint8 | qint8.

#[global] Instance dtype_eq_dec : EqDecision dtype.
Proof. solve_decision. Defined.

(** A tensor: its identity, its dtype and its elements (binary32 values). *)
Record Tensor := mkTensor {
  tensor_id : nat;
  tensor_dtype : dtype;
  tensor_data : list spec_float;
}.

(** An argument recorded by [TraceFunction.parse_args]. *)
Inductive Arg :=
  | ArgTensor (t : Tensor)
  | ArgFloat (v : spec_float)
  | ArgInt (z : Z).

Record TraceFunction := mkTraceFunction {
  tf_full_name : string;
  tf_func_type : string;
  tf_kind : string;
  tf_is_class : bool;
  tf_prev_tensors : list Tensor;
  tf_args_parsed : list Arg;
  tf_args_string_no_self : string;
}.

(** [node.module]: an [nn.Module] instance, known by its class, or a
    [TraceFunction]. *)
Inductive Module :=
  | NNModule (cls : string)
  | Function (f : TraceFunction).

Definition QuantStub : string := "torch.quantization.QuantStub".
Definition DeQuantStub : string := "torch.quantization.DeQuantStub".

Record TraceNode := mkTraceNode {
  unique_name : string;
  module : Module;
  module_id : nat;                 (* id(node.module) *)
  prev_nodes : list string;
  next_nodes : list string;
  prev_tensors : list Tensor;
  next_tensors : list Tensor;
  quantized : bool;
  rev_index : bool;
}.

Record TraceGraph := mkTraceGraph {
  nodes_map : gmap string TraceNode;
  forward_nodes : list string;
  input_nodes : list string;
  output_nodes : list string;
  constant_nodes : list string;
  graph_quantized : bool;
  module_original_name_dict : gmap nat string;
}.

(** [node.type()] as the rule dictionaries key it: the class of a module,
    the [kind] of a function. *)
Definition node_class (node : TraceNode) : optype :=
  match module node with
  | NNModule cls => ModuleClass cls
  | Function f => FuncKind (tf_kind f)
  end.

(** [type(node.module) is cls] *)
Definition module_is (cls : string) (node : TraceNode) : bool :=
  match module node with
  | NNModule c => bool_decide (c = cls)
  | Function _ => false
  end.

(** [node.full_name()] *)
Definition node_full_name (node : TraceNode) : string :=
  match module node with
  | NNModule cls => cls
  | Function f => tf_full_name f
  end.

(** Modelled from the spec: [TraceGraph.filter_forward_nodes] belongs to the
    tracer, which is not among the sources; the spec gives it as "a filter
    nodes by predicate primitive returning matches in forward topological
    order (with a reverse-order option)". *)
Definition filter_forward_nodes (pred : TraceNode → bool) (graph : TraceGraph)
  : list string :=
  filter (λ name, from_option pred false (nodes_map graph !! name))
         (forward_nodes graph).

(** ** The fusion matcher ([QATQuantizer.is_fusable]) *)

(** [custom_data = ([], set())]: the chains found and the names consumed *)
Record custom_data := mkCustomData {
  quant_list : list (list string);
  consumed : gset string;
}.

Definition cur_name_of (use_original_name : bool) (graph : TraceGraph)
    (cur_node : TraceNode) : result string :=
  if use_original_name then
    match module_original_name_dict graph !! module_id cur_node with
    | Some name => Ok name
    | None => Raise KeyError
    end
  else Ok (unique_name cur_node).

Section fusable.
Context (graph : TraceGraph) (use_original_name : bool) (used : gset string).

(** One round of the [while True] loop after [cur_class] was found in
    [current_rules] with the pair [(current_state, child)]; [continue_]
    is the next round, run on the child dictionary. *)
Definition fusable_round (continue_ : TraceNode → list string → list string →
                                      result (list string))
    (current_state : bool) (cur_node : TraceNode)
    (names final_names : list string) : result (list string) :=
  cur_name ← cur_name_of use_original_name graph cur_node;
  if decide (cur_name ∈ used) then Ok final_names
  else if decide (length (prev_nodes cur_node) = 0%nat) then Ok final_names
  else
    let names := names ++ [cur_name] in
    let final_names := if current_state then names else final_names in
    match prev_nodes cur_node with
    | [prev] =>
        match nodes_map graph !! prev with
        | Some prev_node => continue_ prev_node names final_names
        | None => Raise KeyError
        end
    | _ => Ok final_names
    end.

(** The loop: every round descends one level in the rule dictionary, which
    is what ends it.  The result is [final_names] as the loop leaves it. *)
Fixpoint fusable_walk (current_rules : rule_dict) (cur_node : TraceNode)
    (names final_names : list string) {struct current_rules}
  : result (list string) :=
  match current_rules with
  | RuleDict entries =>
      (fix find (es : rule_entries) : result (list string) :=
         match es with
         | [] => Ok final_names
         | (k, (current_state, child)) :: es' =>
             if decide (k = node_class cur_node) then
               fusable_round (fusable_walk child) current_state
                             cur_node names final_names
             else find es'
         end) entries
  end.

(** The names the walk appends, in the order of the walk, each with the
    [has_key] flag of the dictionary node reached with it.  At a node
    without predecessors the loop breaks after the descent and before
    [names.append], so such a node gives no step. *)
Fixpoint walk_steps (current_rules : rule_dict) (cur_node : TraceNode)
    {struct current_rules} : result (list (string * bool)) :=
  match current_rules with
  | RuleDict entries =>
      (fix find (es : rule_entries) : result (list (string * bool)) :=
         match es with
         | [] => Ok []
         | (k, (current_state, child)) :: es' =>
             if decide (k = node_class cur_node) then
               cur_name ← cur_name_of use_original_name graph cur_node;
               if decide (cur_name ∈ used) then Ok []
               else if decide (length (prev_nodes cur_node) = 0%nat) then Ok []
               else
                 match prev_nodes cur_node with
                 | [prev] =>
                     match nodes_map graph !! prev with
                     | Some prev_node =>
                         rest ← walk_steps child prev_node;
                         Ok ((cur_name, current_state) :: rest)
                     | None => Raise KeyError
                     end
                 | _ => Ok [(cur_name, current_state)]
                 end
             else find es'
         end) entries
  end.
End fusable.

(** The longest prefix of the walk that ends on a terminal dictionary node,
    as a list of names; empty when no step is terminal. *)
Fixpoint longest_terminal_prefix (steps : list (string * bool)) : list string :=
  match steps with
  | [] => []
  | (name, terminal) :: rest =>
      match longest_terminal_prefix rest with
      | [] => if terminal then [name] else []
      | longer => name :: longer
      end
  end.

Definition is_fusable (node : TraceNode) (data : custom_data)
    (current_rules : option rule_entries)
    (check_node_quantized use_original_name : bool) (graph : TraceGraph)
  : result (bool * custom_data) :=
  match current_rules with
  | None => Ok (false, data)
  | Some current_rules =>
      if check_node_quantized && negb (quantized node) then Ok (false, data)
      else
        final_names ← fusable_walk graph use_original_name (consumed data)
                        (RuleDict current_rules) node [] [];
        if decide (0 < length final_names)%nat then
          let final_names := reverse final_names in
          Ok (true,
              {| quant_list := quant_list data ++ [final_names];
                 consumed := consumed data ∪ list_to_set final_names |})
        else Ok (false, data)
  end.

(** [graph.filter_forward_nodes(is_fusable, custom_data, reverse=True)]: the
    predicate is called on every node, latest first, with the one
    [custom_data] it mutates.  [anchors] are the nodes in calling order. *)
Fixpoint fusable_calls (anchors : list TraceNode) (data : custom_data)
    (current_rules : option rule_entries)
    (check_node_quantized use_original_name : bool) (graph : TraceGraph)
  : result custom_data :=
  match anchors with
  | [] => Ok data
  | node :: rest =>
      '(_, data') ← is_fusable node data current_rules check_node_quantized
                      use_original_name graph;
      fusable_calls rest data' current_rules check_node_quantized
                    use_original_name graph
  end.

Definition graph_nodes (graph : TraceGraph) (names : list string) : list TraceNode :=
  omap (λ name, nodes_map graph !! name) names.

Definition find_fusions (graph : TraceGraph) (current_rules : option rule_entries)
    (check_node_quantized use_original_name : bool) : result custom_data :=
  fusable_calls (graph_nodes graph (reverse (forward_nodes graph)))
    {| quant_list := []; consumed := ∅ |}
    current_rules check_node_quantized use_original_name graph.

(** ** The quantization propagator ([QATQuantizer.prepare_qat_prep])

    The analysis at the head of [prepare_qat_prep]: a work queue of
    [(node, quantized)] pairs, a [visited] set of unique names, and the
    [quantized] attributes of the nodes and of the graph it assigns. *)

Definition set_quantized (q : bool) (node : TraceNode) : TraceNode :=
  {| unique_name := unique_name node;
     module := module node;
     module_id := module_id node;
     prev_nodes := prev_nodes node;
     next_nodes := next_nodes node;
     prev_tensors := prev_tensors node;
     next_tensors := next_tensors node;
     quantized := q;
     rev_index := rev_index node |}.

(** [node.quantized = q] for the node called [name] *)
Definition set_node_quantized (name : string) (q : bool) (graph : TraceGraph)
  : TraceGraph :=
  {| nodes_map := alter (set_quantized q) name (nodes_map graph);
     forward_nodes := forward_nodes graph;
     input_nodes := input_nodes graph;
     output_nodes := output_nodes graph;
     constant_nodes := constant_nodes graph;
     graph_quantized := graph_quantized graph;
     module_original_name_dict := module_original_name_dict graph |}.

(** [graph.quantized = q] *)
Definition set_graph_quantized (q : bool) (graph : TraceGraph) : TraceGraph :=
  {| nodes_map := nodes_map graph;
     forward_nodes := forward_nodes graph;
     input_nodes := input_nodes graph;
     output_nodes := output_nodes graph;
     constant_nodes := constant_nodes graph;
     graph_quantized := q;
     module_original_name_dict := module_original_name_dict graph |}.

Record analysis_state := mkAnalysisState {
  qat_analysis_queue : list (string * bool);
  visited : gset string;
  analysed_graph : TraceGraph;
}.

(** The flag a node takes for itself and the flag it passes on. *)
Definition node_flag (node : TraceNode) (quantized : bool) : bool :=
  if module_is QuantStub node then true
  else if module_is DeQuantStub node then true
  else quantized.

Definition onward_flag (node : TraceNode) (quantized : bool) : bool :=
  if module_is QuantStub node then true
  else if module_is DeQuantStub node then false
  else quantized.

(** The inner function [_qat_analysis(node, quantized)].  A name with no
    object behind it, which a traced graph does not have, is marked and
    left. *)
Definition qat_analysis (name : string) (quantized : bool) (st : analysis_state)
  : analysis_state :=
  let graph := analysed_graph st in
  if decide (name ∈ visited st) then st
  else
    let visited' := {[name]} ∪ visited st in
    if decide (name ∈ output_nodes graph) then
      mkAnalysisState (qat_analysis_queue st) visited' graph
    else
      match nodes_map graph !! name with
      | None => mkAnalysisState (qat_analysis_queue st) visited' graph
      | Some node =>
          mkAnalysisState
            (qat_analysis_queue st
               ++ ((λ n, (n, onward_flag node quantized)) <$> next_nodes node))
            visited'
            (set_node_quantized name (node_flag node quantized) graph)
      end.

(** One round of [while not qat_analysis_queue.empty()]. *)
Definition analysis_round (st : analysis_state) : analysis_state :=
  match qat_analysis_queue st with
  | [] => st
  | (name, quantized) :: rest =>
      let graph := analysed_graph st in
      let graph :=
        if negb (graph_quantized graph)
        then set_graph_quantized (graph_quantized graph || quantized) graph
        else graph in
      qat_analysis name quantized (mkAnalysisState rest (visited st) graph)
  end.

Fixpoint analysis_loop (rounds : nat) (st : analysis_state) : analysis_state :=
  match rounds with
  | O => st
  | S rounds =>
      match qat_analysis_queue st with
      | [] => st
      | _ :: _ => analysis_loop rounds (analysis_round st)
      end
  end.

Definition out_degree (graph : TraceGraph) (name : string) : nat :=
  length (from_option next_nodes [] (nodes_map graph !! name)).

(** Every round takes one pair off the queue and a node puts its successors
    on it once, so this many rounds empty the queue. *)
Definition analysis_rounds (graph : TraceGraph) (seeds : list (string * bool)) : nat :=
  length seeds + sum_list_with (out_degree graph) (elements (dom (nodes_map graph))).

(** The pairs put on the queue before the loop starts. *)
Definition input_seeds (graph : TraceGraph) (is_input_quantized : option (list bool))
  : result (list (string * bool)) :=
  match is_input_quantized with
  | Some flags =>
      if decide (length flags = length (input_nodes graph))
      then Ok (zip (input_nodes graph) flags)
      else Raise (AssertionError EmptyString)
  | None => Ok ((λ n, (n, false)) <$> input_nodes graph)
  end.

Definition is_extra_constant_node (creation_func_names : list string)
    (node : TraceNode) : bool :=
  bool_decide (node_full_name node ∈ creation_func_names).

Fixpoint constant_seeds (graph : TraceGraph) (names : list string)
  : result (list (string * bool)) :=
  match names with
  | [] => Ok []
  | n :: rest =>
      match from_option next_tensors [] (nodes_map graph !! n) with
      | [] => Raise IndexError
      | t :: _ =>
          seeds ← constant_seeds graph rest;
          Ok ((n, negb (bool_decide (tensor_dtype t = float32))) :: seeds)
      end
  end.

Definition analysis_seeds (graph : TraceGraph)
    (is_input_quantized : option (list bool))
    (creation_func_names : list string) : result (list (string * bool)) :=
  inputs ← input_seeds graph is_input_quantized;
  let extra_constant_nodes :=
    filter_forward_nodes (is_extra_constant_node creation_func_names) graph in
  constants ← constant_seeds graph (constant_nodes graph ++ extra_constant_nodes);
  Ok (inputs ++ constants).

(** The loop run from a given queue. *)
Definition run_analysis (graph : TraceGraph) (seeds : list (string * bool))
  : analysis_state :=
  analysis_loop (analysis_rounds graph seeds) (mkAnalysisState seeds ∅ graph).

(** [prepare_qat_prep] up to its "qat analysis over", which is the
    propagation: the graph as the analysis leaves it, with the set of visited
    names.  The fusion search that follows is [find_fusions]. *)
Definition prepare_qat_prep (graph : TraceGraph) (is_input_quantized : option (list bool))
    (creation_func_names : list string) : result analysis_state :=
  seeds ← analysis_seeds graph is_input_quantized creation_func_names;
  Ok (run_analysis graph seeds).

(** [node.quantized] of the node called [name], when there is one *)
Definition node_quantized (graph : TraceGraph) (name : string) : option bool :=
  quantized <$> nodes_map graph !! name.

(** A flag [q] is put on the queue for [name]: it is a seed, or a node taken
    off the queue and expanded has [name] among its successors and passes
    [q] on. *)
Definition arrives (graph : TraceGraph) (seeds : list (string * bool))
    (seen : gset string) (name : string) (q : bool) : Prop :=
  (name, q) ∈ seeds ∨
  ∃ m node flag,
    m ∈ seen ∧ (m ∉ output_nodes graph) ∧
    nodes_map graph !! m = Some node ∧ quantized node = flag ∧
    name ∈ next_nodes node ∧ q = onward_flag node flag.

(** The nodes the analysis reaches: the seeds, and the successors of a
    reached node that is not an output node. *)
Inductive reached (graph : TraceGraph) (seeds : list (string * bool))
  : string → Prop :=
  | reached_seed name q :
      (name, q) ∈ seeds → reached graph seeds name
  | reached_next m node name :
      reached graph seeds m → m ∉ output_nodes graph →
      nodes_map graph !! m = Some node → name ∈ next_nodes node →
      reached graph seeds name.

(** *** The writes of the analysis

    The analysis reads the structure of the graph and writes [quantized]
    attributes only.  [with_flags flags any graph] is [graph] after the
    writes [flags] to its nodes and the write [any] to its own attribute;
    [writes_round] is the round of the loop on the writes alone. *)

Definition with_flags (flags : gmap string bool) (any : bool) (graph : TraceGraph)
  : TraceGraph :=
  {| nodes_map :=
       map_imap (λ name node,
                   Some (set_quantized (default (quantized node) (flags !! name)) node))
                (nodes_map graph);
     forward_nodes := forward_nodes graph;
     input_nodes := input_nodes graph;
     output_nodes := output_nodes graph;
     constant_nodes := constant_nodes graph;
     graph_quantized := any;
     module_original_name_dict := module_original_name_dict graph |}.

Record flag_writes := mkFlagWrites {
  fw_queue : list (string * bool);
  fw_visited : gset string;
  fw_flags : gmap string bool;
  fw_any : bool;
}.

Definition writes_round (graph : TraceGraph) (w : flag_writes) : flag_writes :=
  match fw_queue w with
  | [] => w
  | (name, q) :: rest =>
      let any := fw_any w || q in
      if decide (name ∈ fw_visited w) then
        mkFlagWrites rest (fw_visited w) (fw_flags w) any
      else
        let visited' := {[name]} ∪ fw_visited w in
        if decide (name ∈ output_nodes graph) then
          mkFlagWrites rest visited' (fw_flags w) any
        else
          match nodes_map graph !! name with
          | None => mkFlagWrites rest visited' (fw_flags w) any
          | Some node =>
              mkFlagWrites
                (rest ++ ((λ n, (n, onward_flag node q)) <$> next_nodes node))
                visited'
                (<[name := node_flag node q]> (fw_flags w))
                any
          end
  end.

Fixpoint writes_loop (graph : TraceGraph) (rounds : nat) (w : flag_writes)
  : flag_writes :=
  match rounds with
  | O => w
  | S rounds =>
      match fw_queue w with
      | [] => w
      | _ :: _ => writes_loop graph rounds (writes_round graph w)
      end
  end.

Definition state_of_writes (graph : TraceGraph) (w : flag_writes) : analysis_state :=
  mkAnalysisState (fw_queue w) (fw_visited w)
                  (with_flags (fw_flags w) (fw_any w) graph).

Definition initial_writes (seeds : list (string * bool)) : flag_writes :=
  mkFlagWrites seeds ∅ ∅ false.

(** the same writes on top of earlier ones *)
Definition writes_over (flags : gmap string bool) (any : bool) (w : flag_writes)
  : flag_writes :=
  mkFlagWrites (fw_queue w) (fw_visited w) (fw_flags w ∪ flags) (any || fw_any w).

(** what is left to do: the queue and the successors of the nodes not yet
    visited *)
Definition writes_measure (graph : TraceGraph) (w : flag_writes) : nat :=
  length (fw_queue w)
  + sum_list_with (out_degree graph)
                  (elements (dom (nodes_map graph) ∖ fw_visited w)).

(** [arrives] on the writes *)
Definition arrives_w (graph : TraceGraph) (seeds : list (string * bool))
    (w : flag_writes) (name : string) (q : bool) : Prop :=
  (name, q) ∈ seeds ∨
  ∃ m node flag,
    m ∈ fw_visited w ∧ (m ∉ output_nodes graph) ∧
    nodes_map graph !! m = Some node ∧ fw_flags w !! m = Some flag ∧
    name ∈ next_nodes node ∧ q = onward_flag node flag.

Record writes_inv (graph : TraceGraph) (seeds : list (string * bool))
    (w : flag_writes) : Prop := mkWritesInv {
  inv_dom : ∀ n, is_Some (fw_flags w !! n) ↔
                 n ∈ fw_visited w ∧ (n ∉ output_nodes graph)
                 ∧ is_Some (nodes_map graph !! n);
  inv_flag : ∀ n flag, fw_flags w !! n = Some flag →
                 ∃ node q, nodes_map graph !! n = Some node
                           ∧ arrives_w graph seeds w n q
                           ∧ flag = node_flag node q;
  inv_queue : ∀ n q, (n, q) ∈ fw_queue w → arrives_w graph seeds w n q;
  inv_pending : ∀ n q, arrives_w graph seeds w n q →
                 n ∈ fw_visited w ∨ (n, q) ∈ fw_queue w;
  inv_any_sound : fw_any w = true → ∃ n, arrives_w graph seeds w n true;
  inv_any_complete : ∀ n, arrives_w graph seeds w n true →
                 fw_any w = true ∨ (n, true) ∈ fw_queue w;
}.

Definition chains_disjoint (chains : list (list string)) : Prop :=
  ∀ i j ci cj name,
    i ≠ j → chains !! i = Some ci → chains !! j = Some cj →
    name ∈ ci → name ∉ cj.

Definition chains_consumed (data : custom_data) : Prop :=
  ∀ chain name, chain ∈ quant_list data → name ∈ chain → name ∈ consumed data.

(** ** Example graphs *)

Definition trace_function (full_name func_type kind : string) : TraceFunction :=
  mkTraceFunction full_name func_type kind false [] [] EmptyString.

Definition example_node (name : string) (m : Module) (id : nat)
    (prev next : list string) : TraceNode :=
  mkTraceNode name m id prev next [] [] false false.

Definition input_module : Module := Function (trace_function "input" "input" "input").
Definition output_module : Module := Function (trace_function "output" "output" "output").

(** an input wired to the output *)
Definition example_io_graph : TraceGraph :=
  mkTraceGraph
    (list_to_map
       [ ("input_0", example_node "input_0" input_module 0 [] ["output_0"]);
         ("output_0", example_node "output_0" output_module 1 ["input_0"] []) ])
    ["input_0"; "output_0"] ["input_0"] ["output_0"] [] false ∅.

(** input, QuantStub, Conv2d, BatchNorm2d, ReLU, Conv2d, ReLU, DeQuantStub,
    output *)
Definition example_graph : TraceGraph :=
  mkTraceGraph
    (list_to_map
       [ ("input_0", example_node "input_0" input_module 0 [] ["fake_quant_0"]);
         ("fake_quant_0",
          example_node "fake_quant_0" (NNModule QuantStub) 1 ["input_0"] ["conv_0"]);
         ("conv_0",
          example_node "conv_0" (NNModule "torch.nn.Conv2d") 2 ["fake_quant_0"] ["bn_0"]);
         ("bn_0",
          example_node "bn_0" (NNModule "torch.nn.BatchNorm2d") 3 ["conv_0"] ["relu_0"]);
         ("relu_0",
          example_node "relu_0" (NNModule "torch.nn.ReLU") 4 ["bn_0"] ["conv_1"]);
         ("conv_1",
          example_node "conv_1" (NNModule "torch.nn.Conv2d") 5 ["relu_0"] ["relu_1"]);
         ("relu_1",
          example_node "relu_1" (NNModule "torch.nn.ReLU") 6 ["conv_1"] ["fake_dequant_0"]);
         ("fake_dequant_0",
          example_node "fake_dequant_0" (NNModule DeQuantStub) 7 ["relu_1"] ["output_0"]);
         ("output_0", example_node "output_0" output_module 8 ["fake_dequant_0"] []) ])
    ["input_0"; "fake_quant_0"; "conv_0"; "bn_0"; "relu_0"; "conv_1"; "relu_1";
     "fake_dequant_0"; "output_0"]
    ["input_0"] ["output_0"] [] false
    (list_to_map [ (1, "fake_quant_0"); (2, "conv1"); (3, "bn1"); (4, "relu1");
                   (5, "conv2"); (6, "relu2"); (7, "fake_dequant_0") ]).

(** The propagation claim as the specification words it: every node the
    seeds reach carries the flag its kind prescribes for a flag that arrived
    at it, and the graph flag is the disjunction of the flags put on the
    queue. *)
Definition flags_on_all_reached (graph : TraceGraph)
    (is_input_quantized : option (list bool)) (creation_func_names : list string)
  : Prop :=
  ∀ seeds st,
    analysis_seeds graph is_input_quantized creation_func_names = Ok seeds →
    prepare_qat_prep graph is_input_quantized creation_func_names = Ok st →
    (∀ n node,
       reached graph seeds n → nodes_map graph !! n = Some node →
       ∃ q, arrives (analysed_graph st) seeds (visited st) n q
            ∧ node_quantized (analysed_graph st) n = Some (node_flag node q))
    ∧ (graph_quantized (analysed_graph st) = true ↔
       ∃ n, arrives (analysed_graph st) seeds (visited st) n true).

Definition example_analysis : analysis_state :=
  run_analysis example_graph [("input_0", false)].

Definition example_io_analysis : analysis_state :=
  run_analysis example_io_graph [("input_0", true)].

(** the rule table compiled, and the fusion search on the analysed example *)
Definition example_rules : rule_entries :=
  match compile_rules FUSE_RULE_LIST with
  | Ok rules => rules
  | Raise _ => []
  end.

Definition example_anchors : list TraceNode :=
  graph_nodes (analysed_graph example_analysis)
              (reverse (forward_nodes example_graph)).

Definition example_fusions : custom_data :=
  {| quant_list := [["conv2"; "relu2"]; ["conv1"; "bn1"; "relu1"]];
     consumed := list_to_set ["conv2"; "relu2"; "conv1"; "bn1"; "relu1"] |}.

(** ** The quantizer constructors

    Configuration values are Python objects; [truthy] is their truth value
    as [assert] and [not] take it. *)

Inductive pyval :=
  | PyNone
  | PyBool (b : bool)
  | PyInt (z : Z)
  | PyStr (s : string)
  | PyObject (truth : bool).

#[global] Instance pyval_eq_dec : EqDecision pyval.
Proof. solve_decision. Defined.

Definition truthy (v : pyval) : bool :=
  match v with
  | PyNone => false
  | PyBool b => b
  | PyInt z => negb (Z.eqb z 0)
  | PyStr s => negb (bool_decide (s = EmptyString))
  | PyObject truth => truth
  end.

(** [str(v)] inside an f-string *)
Definition py_str (v : pyval) : string :=
  match v with
  | PyNone => "None"
  | PyBool true => "True"
  | PyBool false => "False"
  | PyInt z => pretty z
  | PyStr s => s
  | PyObject _ => "<object>"
  end.

(** What a constructor does besides returning: the records it logs, and for
    [quantize] the calls that touch the model or trace a graph. *)
Inductive event :=
  | LogError (msg : string)
  | LogWarning (msg : string)
  | ModelEval
  | ModelTrain
  | TraceModel
  | QuantizeDynamic.

(** A computation that logs and may raise. *)
Record eff (A : Type) := mkEff {
  eff_events : list event;
  eff_result : result A;
}.
Arguments mkEff {A} _ _.
Arguments eff_events {A} _.
Arguments eff_result {A} _.

#[global] Instance eff_ret : MRet eff := λ A a, mkEff [] (Ok a).
#[global] Instance eff_bind : MBind eff := λ A B k m,
  match eff_result m with
  | Ok a => mkEff (eff_events m ++ eff_events (k a)) (eff_result (k a))
  | Raise e => mkEff (eff_events m) (Raise e)
  end.

Definition emit (ev : event) : eff unit := mkEff [ev] (Ok tt).

(** [assert cond, msg] *)
Definition py_assert (cond : bool) (msg : string) : eff unit :=
  if cond then mret tt else mkEff [] (Raise (AssertionError msg)).

Definition when (cond : bool) (body : eff unit) : eff unit :=
  if cond then body else mret tt.

Inductive quantizer_class :=
  | QATQuantizer | BF16Quantizer | PostQuantizer | DynamicQuantizer.

#[global] Instance quantizer_class_eq_dec : EqDecision quantizer_class.
Proof. solve_decision. Defined.

Inductive model :=
  | DataParallel (inner : nat)
  | DistributedDataParallel (inner : nat)
  | PlainModule (m : nat).

(** the attributes of a quantizer object *)
Record quantizer := mkQuantizer {
  q_class : quantizer_class;
  q_model : nat;
  work_dir : string;
  rewrite_graph : pyval;
  force_overwrite : pyval;
  is_input_quantized : pyval;
  backend : pyval;
  remove_weights_after_load : pyval;
  asymmetric : pyval;
  per_tensor : pyval;
  disable_requantization_for_cat : pyval;
  quantized_input_stats : pyval;
  dynamic_lstm_quant : pyval;
  quantized_op_stats : pyval;
  set_quantizable_op_stats : pyval;
}.

(** [config.get(k, v)], with [config = dict()] when it is [None] *)
Definition config_get (config : option (gmap string pyval)) (k : string)
    (v : pyval) : pyval :=
  default v (default ∅ config !! k).

(** [QATQuantizer.parse_config]: every option from the configuration or
    from [default_values] *)
Definition QATQuantizer_parse_config (cls : quantizer_class) (model_ : nat)
    (work_dir_ : string) (config : option (gmap string pyval)) : quantizer :=
  {| q_class := cls;
     q_model := model_;
     work_dir := work_dir_;
     rewrite_graph := config_get config "rewrite_graph" (PyBool true);
     force_overwrite := config_get config "force_overwrite" (PyBool true);
     is_input_quantized := config_get config "is_input_quantized" PyNone;
     backend := config_get config "backend" (PyStr "qnnpack");
     remove_weights_after_load :=
       config_get config "remove_weights_after_load" (PyBool false);
     asymmetric := config_get config "asymmetric" (PyBool true);
     per_tensor := config_get config "per_tensor" (PyBool true);
     disable_requantization_for_cat :=
       config_get config "disable_requantization_for_cat" PyNone;
     quantized_input_stats := config_get config "quantized_input_stats" PyNone;
     dynamic_lstm_quant := config_get config "dynamic_lstm_quant" (PyBool false);
     quantized_op_stats := config_get config "quantized_op_stats" PyNone;
     set_quantizable_op_stats :=
       config_get config "set_quantizable_op_stats" (PyBool false) |}.

Definition set_rewrite_graph (v : pyval) (self : quantizer) : quantizer :=
  {| q_class := q_class self; q_model := q_model self; work_dir := work_dir self;
     rewrite_graph := v;
     force_overwrite := force_overwrite self;
     is_input_quantized := is_input_quantized self;
     backend := backend self;
     remove_weights_after_load := remove_weights_after_load self;
     asymmetric := asymmetric self;
     per_tensor := per_tensor self;
     disable_requantization_for_cat := disable_requantization_for_cat self;
     quantized_input_stats := quantized_input_stats self;
     dynamic_lstm_quant := dynamic_lstm_quant self;
     quantized_op_stats := quantized_op_stats self;
     set_quantizable_op_stats := set_quantizable_op_stats self |}.

Definition set_disable_requantization_for_cat (v : pyval) (self : quantizer)
  : quantizer :=
  {| q_class := q_class self; q_model := q_model self; work_dir := work_dir self;
     rewrite_graph := rewrite_graph self;
     force_overwrite := force_overwrite self;
     is_input_quantized := is_input_quantized self;
     backend := backend self;
     remove_weights_after_load := remove_weights_after_load self;
     asymmetric := asymmetric self;
     per_tensor := per_tensor self;
     disable_requantization_for_cat := v;
     quantized_input_stats := quantized_input_stats self;
     dynamic_lstm_quant := dynamic_lstm_quant self;
     quantized_op_stats := quantized_op_stats self;
     set_quantizable_op_stats := set_quantizable_op_stats self |}.

(** [self.parse_config(config)], dispatched on the class of [self] *)
Definition parse_config (cls : quantizer_class) (model_ : nat) (work_dir_ : string)
    (config : option (gmap string pyval)) : eff quantizer :=
  let self := QATQuantizer_parse_config cls model_ work_dir_ config in
  match cls with
  | QATQuantizer | PostQuantizer => mret self
  | BF16Quantizer => mret (set_rewrite_graph (PyBool false) self)
  | DynamicQuantizer =>
      let self := set_rewrite_graph (PyBool false) self in
      py_assert (negb (truthy (asymmetric self)))
        "Asymmetric quantization is not supported for DynamicQuantizer";;
      py_assert (truthy (per_tensor self))
        "Per-channel quantization is not supported for DynamicQuantizer";;
      mret self
  end.

(** [QATQuantizer.__init__], which the other three classes call through
    [super().__init__]; [platform] is [sys.platform]. *)
Definition quantizer_init (cls : quantizer_class) (platform : string)
    (model_ : model) (work_dir_ : option string)
    (config : option (gmap string pyval)) : eff quantizer :=
  let model_ :=
    match model_ with
    | DataParallel inner | DistributedDataParallel inner => inner
    | PlainModule m => m
    end in
  let work_dir_ := default "out" work_dir_ in
  self ← parse_config cls model_ work_dir_ config;
  when (bool_decide (platform = "win32")
        && bool_decide (backend self = PyStr "qnnpack"))
    (emit (LogError "Quantization backend qnnpack is likely unsupported on Windows. Please use fbgemm instead."));;
  when (negb (bool_decide (backend self ∈ [PyStr "fbgemm"; PyStr "qnnpack"])))
    (emit (LogWarning ("Quantization backend " +:+ py_str (backend self)
                       +:+ " is not tested. Please use at your risk.")));;
  when (bool_decide (backend self = PyStr "fbgemm"))
    (py_assert (truthy (asymmetric self))
       "Symmetric quantizaton for FBGEMM not supported";;
     py_assert (negb (truthy (per_tensor self)))
       "Per-tensor quantizaton for FBGEMM not supported, please use per-channel quantization instead");;
  let self :=
    if bool_decide (disable_requantization_for_cat self = PyNone) then
      set_disable_requantization_for_cat
        (PyBool (negb (truthy (per_tensor self)))) self
    else self in
  py_assert (truthy (per_tensor self)
             || truthy (disable_requantization_for_cat self))
    "`disable_requantization_for_cat=True` is required for per-channel quantization";;
  mret self.

(** [DynamicQuantizer.quantize] *)
Definition DynamicQuantizer_quantize (self : quantizer) : eff nat :=
  emit ModelEval;;
  emit QuantizeDynamic;;
  mret (q_model self).

(** constructing a [DynamicQuantizer] and quantizing with it *)
Definition dynamic_quantization (platform : string) (model_ : model)
    (work_dir_ : option string) (config : option (gmap string pyval)) : eff nat :=
  self ← quantizer_init DynamicQuantizer platform model_ work_dir_ config;
  DynamicQuantizer_quantize self.

(** ** Numbers

    A Python [float] is an IEEE-754 binary64 value and the elements of a
    [torch.float32] tensor are binary32 values; both are [spec_float]s with
    the operations of the format, which round to nearest even. *)

Definition f64_add := SFadd 53 1024.
Definition f64_div := SFdiv 53 1024.
Definition f32_add := SFadd 24 128.
Definition f32_sub := SFsub 24 128.
Definition f32_mul := SFmul 24 128.
Definition f32_div := SFdiv 24 128.

Definition f64_of_Z (z : Z) : spec_float := binary_normalize 53 1024 z 0 false.
Definition f32_of_Z (z : Z) : spec_float := binary_normalize 24 128 z 0 false.

(** a Python scalar as the binary32 operand of a float32 kernel *)
Definition f32_of_f64 (x : spec_float) : spec_float :=
  match x with
  | S754_finite s m e => binary_normalize 24 128 (cond_Zopp s (Z.pos m)) e s
  | _ => x
  end.

Definition is_zero (x : spec_float) : bool :=
  match x with S754_zero _ => true | _ => false end.

Definition is_infinity (x : spec_float) : bool :=
  match x with S754_infinity _ => true | _ => false end.

(** the number a recorded argument string stands for *)
Inductive pynum :=
  | NumInt (z : Z)
  | NumFloat (x : spec_float).

(** [-other_arg] *)
Definition py_neg (n : pynum) : pynum :=
  match n with
  | NumInt z => NumInt (- z)
  | NumFloat x => NumFloat (SFopp x)
  end.

(** [1.0 / other_arg]: an [int] is converted first, a zero divisor raises *)
Definition py_one_over (n : pynum) : result spec_float :=
  match n with
  | NumInt z =>
      if decide (z = 0%Z) then Raise ZeroDivisionError
      else
        let x := f64_of_Z z in
        if is_infinity x then Raise OverflowError
        else Ok (f64_div (f64_of_Z 1) x)
  | NumFloat x =>
      if is_zero x then Raise ZeroDivisionError
      else Ok (f64_div (f64_of_Z 1) x)
  end.

(** *** [int(s)] and [float(s)] on a string

    The recorded argument strings are read as ASCII texts, one character a
    byte: the digits are [0] to [9] and the white space stripped at both
    ends is the blank and tab to carriage return.  Of the characters above
    127 Python reads the digits and blanks of other scripts; such a
    character is no digit and no blank here, so a failure is stated below
    only for ASCII characters that [int] turns down ([int_char]). *)

Definition is_space (c : ascii) : bool :=
  bool_decide (c ∈ [" "; "009"; "010"; "011"; "012"; "013"]%char).

Definition digit_of (c : ascii) : option Z :=
  let n := Z.of_nat (nat_of_ascii c) in
  if decide (48 ≤ n ≤ 57)%Z then Some (n - 48)%Z else None.

Fixpoint lstrip (l : list ascii) : list ascii :=
  match l with
  | c :: l' => if is_space c then lstrip l' else l
  | [] => []
  end.

Definition strip (l : list ascii) : list ascii :=
  reverse (lstrip (reverse (lstrip l))).

(** A run of digits, single underscores allowed between two digits: the
    value read so far, the number of digits, and what is left. *)
Fixpoint digits_from (l : list ascii) (acc : Z) (count : nat)
  : Z * nat * list ascii :=
  match l with
  | c :: l' =>
      match digit_of c with
      | Some d => digits_from l' (10 * acc + d)%Z (S count)
      | None =>
          if bool_decide (c = "_"%char) && bool_decide (0 < count)%nat then
            match l' with
            | c' :: _ =>
                match digit_of c' with
                | Some _ => digits_from l' acc count
                | None => (acc, count, l)
                end
            | [] => (acc, count, l)
            end
          else (acc, count, l)
      end
  | [] => (acc, count, l)
  end.

(** an optional sign: [true] for minus *)
Definition sign_from (l : list ascii) : bool * list ascii :=
  match l with
  | c :: l' =>
      if bool_decide (c = "-"%char) then (true, l')
      else if bool_decide (c = "+"%char) then (false, l')
      else (false, l)
  | [] => (false, [])
  end.

Definition py_int (s : string) : result Z :=
  let '(neg, l) := sign_from (strip (list_ascii_of_string s)) in
  match digits_from l 0 0 with
  | (value, S _, []) => Ok (if neg then - value else value)%Z
  | _ => Raise ValueError
  end.

(** The binary64 value nearest to [±m · 10^e]. *)
Definition f64_of_decimal (neg : bool) (m e : Z) : spec_float :=
  if decide (m = 0)%Z then S754_zero neg
  else if decide (0 ≤ e)%Z then
    binary_normalize 53 1024 (cond_Zopp neg (m * 10 ^ e)) 0 neg
  else
    let '(q, e', l) := SFdiv_core_binary 53 1024 m 0 (10 ^ (- e)) 0 in
    binary_round_aux 53 1024 neg q e' l.

Definition lower (c : ascii) : ascii :=
  let n := nat_of_ascii c in
  if decide (65 ≤ n ≤ 90)%nat then ascii_of_nat (n + 32) else c.

(** [float(s)] on a decimal literal, [inf], [infinity] or [nan] *)
Definition py_float (s : string) : result spec_float :=
  let '(neg, l) := sign_from (strip (list_ascii_of_string s)) in
  let word := string_of_list_ascii (lower <$> l) in
  if bool_decide (word = "inf") || bool_decide (word = "infinity") then
    Ok (S754_infinity neg)
  else if bool_decide (word = "nan") then Ok S754_nan
  else
    let '(int_part, int_digits, l) := digits_from l 0 0 in
    let '(mantissa, frac_digits, l) :=
      match l with
      | c :: l' =>
          if bool_decide (c = "."%char) then digits_from l' int_part 0
          else (int_part, 0%nat, l)
      | [] => (int_part, 0%nat, l)
      end in
    if decide (int_digits + frac_digits = 0)%nat then Raise ValueError
    else
      match l with
      | [] => Ok (f64_of_decimal neg mantissa (- Z.of_nat frac_digits))
      | c :: l' =>
          if bool_decide (lower c = "e"%char) then
            let '(eneg, l') := sign_from l' in
            match digits_from l' 0 0 with
            | (exponent, S _, []) =>
                Ok (f64_of_decimal neg mantissa
                      ((if eneg then - exponent else exponent)
                       - Z.of_nat frac_digits))
            | _ => Raise ValueError
            end
          else Raise ValueError
      end.

(** ['.' in s] *)
Definition contains_char (c : ascii) (s : string) : bool :=
  bool_decide (c ∈ list_ascii_of_string s).

(** [s.split('.')] and ['.'.join(parts)] *)
Fixpoint split_dots (l : list ascii) (word : list ascii) : list string :=
  match l with
  | [] => [string_of_list_ascii (reverse word)]
  | c :: l' =>
      if bool_decide (c = "."%char)
      then string_of_list_ascii (reverse word) :: split_dots l' []
      else split_dots l' (c :: word)
  end.

Definition split_full_name (s : string) : list string :=
  split_dots (list_ascii_of_string s) [].

Fixpoint join_dots (parts : list string) : string :=
  match parts with
  | [] => EmptyString
  | [p] => p
  | p :: rest => p +:+ "." +:+ join_dots rest
  end.

(** [parts[-1] = x] *)
Definition set_last (x : string) (parts : list string) : list string :=
  match parts with
  | [] => []
  | _ :: _ => take (length parts - 1) parts ++ [x]
  end.

(** ** The algebraic rewrites of [rewrite_quantize_graph] *)

(** [tensor * c] for a Python [int]: a new tensor object *)
Definition tensor_mul_int (t : Tensor) (c : Z) (new_id : nat) : Tensor :=
  mkTensor new_id (tensor_dtype t) ((λ x, f32_mul x (f32_of_Z c)) <$> tensor_data t).

(** an identity no tensor of the graph has *)
Definition node_tensors (node : TraceNode) : list Tensor :=
  prev_tensors node ++ next_tensors node
  ++ match module node with
     | Function f => tf_prev_tensors f
     | NNModule _ => []
     end.

Definition fresh_tensor_id (graph : TraceGraph) : nat :=
  S (max_list (tensor_id <$>
       (map_to_list (nodes_map graph) ≫= λ entry, node_tensors entry.2))).

(** an identity no module of the graph has *)
Definition fresh_module_id (graph : TraceGraph) : nat :=
  S (max_list ((λ entry, module_id entry.2) <$> map_to_list (nodes_map graph))).

(** [node.kind()] *)
Definition node_kind (node : TraceNode) : string :=
  match module node with
  | NNModule cls => cls
  | Function f => tf_kind f
  end.

Definition set_module (m : Module) (node : TraceNode) : TraceNode :=
  {| unique_name := unique_name node;
     module := m;
     module_id := module_id node;
     prev_nodes := prev_nodes node;
     next_nodes := next_nodes node;
     prev_tensors := prev_tensors node;
     next_tensors := next_tensors node;
     quantized := quantized node;
     rev_index := rev_index node |}.

Definition set_nodes_map (nodes : gmap string TraceNode) (graph : TraceGraph)
  : TraceGraph :=
  {| nodes_map := nodes;
     forward_nodes := forward_nodes graph;
     input_nodes := input_nodes graph;
     output_nodes := output_nodes graph;
     constant_nodes := constant_nodes graph;
     graph_quantized := graph_quantized graph;
     module_original_name_dict := module_original_name_dict graph |}.

(** assignment to [node.module] *)
Definition set_node_module (name : string) (m : Module) (graph : TraceGraph)
  : TraceGraph :=
  set_nodes_map (alter (set_module m) name (nodes_map graph)) graph.

Definition arg_tensors (args : list Arg) : list Tensor :=
  omap (λ a, match a with ArgTensor t => Some t | _ => None end) args.

Definition arg_of_num (n : pynum) : Arg :=
  match n with
  | NumInt z => ArgInt z
  | NumFloat x => ArgFloat x
  end.

(** [parts = full_name.split('.'); parts[-1] = func_type] *)
Definition name_parts (func_type : string) (full_name : string) : list string :=
  set_last func_type (split_full_name full_name).

(** the kind of a function type: the type without its underscores *)
Definition strip_underscores (s : string) : string :=
  string_of_list_ascii
    (filter (λ c, c ≠ "_"%char) (list_ascii_of_string s)).

(** [l[i]] *)
Definition index {A} (l : list A) (i : nat) : result A :=
  match l !! i with
  | Some x => Ok x
  | None => Raise IndexError
  end.

(** a predicate of [filter_forward_nodes] that may raise *)
Fixpoint filter_nodes (pred : TraceNode → result bool) (graph : TraceGraph)
    (names : list string) : result (list string) :=
  match names with
  | [] => Ok []
  | name :: rest =>
      keep ← match nodes_map graph !! name with
             | Some node => pred node
             | None => Ok false
             end;
      found ← filter_nodes pred graph rest;
      Ok (if keep : bool then name :: found else found)
  end.

(** the recorded argument string as a number: with a dot (and, where the
    source says so, with an [e]) it is a float, otherwise an integer *)
Definition number_of_args_string (exponent_too : bool) (s : string) : result pynum :=
  if contains_char "." s || (exponent_too && contains_char "e" s)
  then NumFloat <$> py_float s
  else NumInt <$> py_int s.

Section rewrite.
(** The tracer is not among the sources.  [args_string] stands for the
    rendering of an argument list that [TraceFunction.parse_args] stores;
    [insert_stub_nodes] stands for the first two steps of
    [rewrite_quantize_graph] (QuantStub and DeQuantStub insertion),
    [later_passes] for the steps after the sub rewrite, and
    [forward_order] for the order [recompute_forward_order] computes. *)
Context (args_string : list Arg → string)
        (insert_stub_nodes later_passes : TraceGraph → result TraceGraph)
        (forward_order : TraceGraph → list string).

(** Modelled from the spec: [TraceFunction.parse_args] belongs to the
    tracer; it records the arguments of the call, the tensors among them
    and their rendering. *)
Definition parse_args (args : list Arg) (f : TraceFunction) : TraceFunction :=
  {| tf_full_name := tf_full_name f;
     tf_func_type := tf_func_type f;
     tf_kind := tf_kind f;
     tf_is_class := tf_is_class f;
     tf_prev_tensors := arg_tensors args;
     tf_args_parsed := args;
     tf_args_string_no_self := args_string (drop 1 args) |}.

(** the three assignments [func_type], [kind] and [full_name] *)
Definition retyped (func_type kind : string) (f : TraceFunction) : TraceFunction :=
  {| tf_full_name := join_dots (name_parts func_type (tf_full_name f));
     tf_func_type := func_type;
     tf_kind := kind;
     tf_is_class := tf_is_class f;
     tf_prev_tensors := tf_prev_tensors f;
     tf_args_parsed := tf_args_parsed f;
     tf_args_string_no_self := tf_args_string_no_self f |}.

(** Modelled from the spec: the constructor [TraceFunction(full_name,
    is_class, prefix)] belongs to the tracer; the function type is the last
    part of the name and the kind is the type without its underscores. *)
Definition new_trace_function (full_name : string) (is_class : bool)
  : TraceFunction :=
  let func_type := default EmptyString (last (split_full_name full_name)) in
  {| tf_full_name := full_name;
     tf_func_type := func_type;
     tf_kind := strip_underscores func_type;
     tf_is_class := is_class;
     tf_prev_tensors := [];
     tf_args_parsed := [];
     tf_args_string_no_self := EmptyString |}.

(** the helpers of [insert_between]: a name or tensors replaced in a list,
    the tensors that flow from one node to the next, a position in the
    forward order *)
Definition replace_name (old new : string) (names : list string) : list string :=
  (λ n, if decide (n = old) then new else n) <$> names.

Definition shared_tensors (prev next : TraceNode) : list Tensor :=
  filter (λ t, tensor_id t ∈ tensor_id <$> prev_tensors next) (next_tensors prev).

Definition replace_tensors (shared outputs : list Tensor) (ts : list Tensor)
  : list Tensor :=
  (λ t, default t
          (list_find (λ s, tensor_id s = tensor_id t) shared
             ≫= λ found, outputs !! found.1)) <$> ts.

Fixpoint insert_before_name (new next : string) (names : list string)
  : list string :=
  match names with
  | [] => [new]
  | n :: rest =>
      if decide (n = next) then new :: n :: rest
      else n :: insert_before_name new next rest
  end.

(** Modelled from the spec: [TraceGraph.insert_between] belongs to the
    tracer.  A new node holding [f] is linked between [prev] and [next]: it
    takes the place of [next] among the successors of [prev] and of [prev]
    among the predecessors of [next]; its inputs are the tensors of [prev]
    that [next] consumes, its outputs are [outputs], which take the place
    of those inputs in [next]; it is run just before [next].  Its unique
    name starts with the prefix and the kind of [f] and is new to the
    graph. *)
Definition insert_between (prev next : string) (f : TraceFunction)
    (prefix : string) (outputs : list Tensor) (graph : TraceGraph)
  : result (string * TraceGraph) :=
  match nodes_map graph !! prev, nodes_map graph !! next with
  | Some prev_node, Some next_node =>
      let name := fresh_string (prefix +:+ tf_kind f) (nodes_map graph) in
      let shared := shared_tensors prev_node next_node in
      let new_node :=
        mkTraceNode name (Function f) (fresh_module_id graph) [prev] [next]
                    shared outputs false false in
      let prev_node' :=
        mkTraceNode (unique_name prev_node) (module prev_node)
          (module_id prev_node) (prev_nodes prev_node)
          (replace_name next name (next_nodes prev_node))
          (prev_tensors prev_node) (next_tensors prev_node)
          (quantized prev_node) (rev_index prev_node) in
      let next_node' :=
        mkTraceNode (unique_name next_node) (module next_node)
          (module_id next_node)
          (replace_name prev name (prev_nodes next_node))
          (next_nodes next_node)
          (replace_tensors shared outputs (prev_tensors next_node))
          (next_tensors next_node)
          (quantized next_node) (rev_index next_node) in
      Ok (name,
          {| nodes_map :=
               <[name := new_node]>
                 (<[next := next_node']> (<[prev := prev_node']> (nodes_map graph)));
             forward_nodes := insert_before_name name next (forward_nodes graph);
             input_nodes := input_nodes graph;
             output_nodes := output_nodes graph;
             constant_nodes := constant_nodes graph;
             graph_quantized := graph_quantized graph;
             module_original_name_dict := module_original_name_dict graph |})
  | _, _ => Raise KeyError
  end.

(** *** neg *)

Definition is_neg_node (node : TraceNode) : result bool :=
  match module node with
  | Function f =>
      if bool_decide (tf_kind f = "neg") then
        t ← index (tf_prev_tensors f) 0;
        Ok (bool_decide (tensor_dtype t = float32))
      else Ok false
  | NNModule _ => Ok false
  end.

Definition rewrite_neg_node (name : string) (graph : TraceGraph)
  : result TraceGraph :=
  match nodes_map graph !! name with
  | Some node =>
      match module node with
      | Function f =>
          let f := retyped "__mul__" "mul" f in
          t ← index (prev_tensors node) 0;
          Ok (set_node_module name
                (Function (parse_args [ArgTensor t; ArgFloat (f64_of_Z (-1))] f))
                graph)
      | NNModule _ => Ok graph
      end
  | None => Raise KeyError
  end.

(** *** div *)

Definition is_div_node (graph : TraceGraph) (node : TraceNode) : result bool :=
  match module node with
  | Function f =>
      if (bool_decide (tf_kind f = "truediv")
          || bool_decide (tf_func_type f ∈ ["div"; "div_"]))
         && bool_decide (length (tf_prev_tensors f) = 1%nat)
      then
        t ← index (tf_prev_tensors f) 0;
        if bool_decide (tensor_dtype t = float32)
           && negb (bool_decide (tf_func_type f = "__rtruediv__"))
        then
          out ← index (next_tensors node) 0;
          if bool_decide (tensor_dtype out = float32) then
            prev ← index (prev_nodes node) 0;
            match nodes_map graph !! prev with
            | Some prev_node =>
                Ok (negb (bool_decide (node_kind prev_node ∈ ["size"; "shape"])))
            | None => Raise KeyError
            end
          else Ok false
        else Ok false
      else Ok false
  | NNModule _ => Ok false
  end.

Definition rewrite_div_node (name : string) (graph : TraceGraph)
  : result TraceGraph :=
  match nodes_map graph !! name with
  | Some node =>
      match module node with
      | Function f =>
          let op_type := tf_func_type f in
          let inplace :=
            bool_decide (op_type ∈ ["__itruediv__"; "itruediv"; "div_"]) in
          let f := retyped (if inplace then "__imul__" else "__mul__") "mul" f in
          other_arg ← number_of_args_string false (tf_args_string_no_self f);
          t ← index (prev_tensors node) 0;
          factor ← py_one_over other_arg;
          Ok (set_node_module name
                (Function (parse_args [ArgTensor t; ArgFloat factor] f)) graph)
      | NNModule _ => Ok graph
      end
  | None => Raise KeyError
  end.

(** *** sub *)

Definition is_sub_node (node : TraceNode) : result bool :=
  match module node with
  | Function f =>
      if bool_decide (tf_kind f = "sub") then
        t ← index (tf_prev_tensors f) 0;
        if bool_decide (tensor_dtype t = float32) then
          out ← index (next_tensors node) 0;
          Ok (bool_decide (tensor_dtype out = float32))
        else Ok false
      else Ok false
  | NNModule _ => Ok false
  end.

Definition rewrite_sub_node (name : string) (graph : TraceGraph)
  : result TraceGraph :=
  match nodes_map graph !! name with
  | Some node =>
      match module node with
      | Function f =>
          (* full_name_parts[-1] = node.module.func_type *)
          let full_name_parts := name_parts (tf_func_type f) (tf_full_name f) in
          if bool_decide (length (tf_prev_tensors f) = 1%nat)
             && negb (bool_decide (tf_func_type f = "__rsub__"))
          then
            let f' :=
              {| tf_full_name := join_dots full_name_parts;
                 tf_func_type := "__add__";
                 tf_kind := "add";
                 tf_is_class := tf_is_class f;
                 tf_prev_tensors := tf_prev_tensors f;
                 tf_args_parsed := tf_args_parsed f;
                 tf_args_string_no_self := tf_args_string_no_self f |} in
            other_arg ← number_of_args_string true (tf_args_string_no_self f);
            t ← index (prev_tensors node) 0;
            Ok (set_node_module name
                  (Function (parse_args [ArgTensor t; arg_of_num (py_neg other_arg)] f'))
                  graph)
          else if bool_decide (length (tf_prev_tensors f) = 2%nat)
                  && bool_decide (length (prev_nodes node) = 2%nat)
          then
            let new_fullname := join_dots (set_last "__mul__" full_name_parts) in
            current_tensor ← index (prev_tensors node) 0;
            input_node ← index (prev_nodes node) 1;
            input_tensor ← index (prev_tensors node) 1;
            let output_tensor :=
              tensor_mul_int input_tensor (-1) (fresh_tensor_id graph) in
            let trace_func :=
              parse_args [ArgTensor input_tensor; ArgInt (-1)]
                (new_trace_function new_fullname true) in
            '(_, graph) ← insert_between input_node name trace_func
                            "fuse_" [output_tensor] graph;
            let f' :=
              {| tf_full_name := join_dots (set_last "__add__" full_name_parts);
                 tf_func_type := "__add__";
                 tf_kind := "add";
                 tf_is_class := tf_is_class f;
                 tf_prev_tensors := tf_prev_tensors f;
                 tf_args_parsed := tf_args_parsed f;
                 tf_args_string_no_self := tf_args_string_no_self f |} in
            Ok (set_node_module name
                  (Function (parse_args [ArgTensor current_tensor;
                                         ArgTensor output_tensor] f'))
                  graph)
          else if bool_decide (tf_func_type f = "__rsub__")
                  && bool_decide (length (tf_prev_tensors f) = 1%nat)
          then
            let new_fullname := join_dots (set_last "__mul__" full_name_parts) in
            input_node ← index (prev_nodes node) 0;
            input_tensor ← index (prev_tensors node) 0;
            let output_tensor :=
              tensor_mul_int input_tensor (-1) (fresh_tensor_id graph) in
            _ ← number_of_args_string false (tf_args_string_no_self f);
            let trace_func :=
              parse_args [ArgTensor input_tensor; ArgInt (-1)]
                (new_trace_function new_fullname true) in
            '(_, graph) ← insert_between input_node name trace_func
                            "fuse_" [output_tensor] graph;
            let f' :=
              {| tf_full_name := join_dots (set_last "__radd__" full_name_parts);
                 tf_func_type := "__radd__";
                 tf_kind := "add";
                 tf_is_class := tf_is_class f;
                 tf_prev_tensors := tf_prev_tensors f;
                 tf_args_parsed := tf_args_parsed f;
                 tf_args_string_no_self := tf_args_string_no_self f |} in
            Ok (set_node_module name (Function f') graph)
          else Ok graph
      | NNModule _ => Ok graph
      end
  | None => Raise KeyError
  end.

(** [for node in nodes: body] *)
Fixpoint for_each (body : string → TraceGraph → result TraceGraph)
    (names : list string) (graph : TraceGraph) : result TraceGraph :=
  match names with
  | [] => Ok graph
  | name :: rest => graph ← body name graph; for_each body rest graph
  end.

(** The third step: neg, div and sub. *)
Definition rewrite_neg_div_sub (graph : TraceGraph) : result TraceGraph :=
  neg_nodes ← filter_nodes is_neg_node graph (forward_nodes graph);
  graph ← for_each rewrite_neg_node neg_nodes graph;
  div_nodes ← filter_nodes (is_div_node graph) graph (forward_nodes graph);
  graph ← for_each rewrite_div_node div_nodes graph;
  sub_nodes ← filter_nodes is_sub_node graph (forward_nodes graph);
  for_each rewrite_sub_node sub_nodes graph.

(** Modelled from the spec: [TraceGraph.recompute_forward_order] belongs to
    the tracer: "recompute the total forward execution order". *)
Definition recompute_forward_order (graph : TraceGraph) : TraceGraph :=
  {| nodes_map := nodes_map graph;
     forward_nodes := forward_order graph;
     input_nodes := input_nodes graph;
     output_nodes := output_nodes graph;
     constant_nodes := constant_nodes graph;
     graph_quantized := graph_quantized graph;
     module_original_name_dict := module_original_name_dict graph |}.

Definition rewrite_quantize_graph (graph : TraceGraph) : result TraceGraph :=
  if graph_quantized graph then Ok graph
  else
    graph ← insert_stub_nodes graph;
    graph ← rewrite_neg_div_sub graph;
    graph ← later_passes graph;
    Ok (recompute_forward_order (set_graph_quantized true graph)).
End rewrite.

(** *** What a function node computes

    Modelled from the spec: the kernels are out of scope; [add], [sub],
    [mul] and [truediv] act element by element in binary32, a Python scalar
    being taken to binary32 first. *)
Definition kernel_of (kind : string) : option (spec_float → spec_float → spec_float) :=
  if bool_decide (kind = "add") then Some f32_add
  else if bool_decide (kind = "sub") then Some f32_sub
  else if bool_decide (kind = "mul") then Some f32_mul
  else if bool_decide (kind = "truediv") then Some f32_div
  else None.

Definition eval_function (f : TraceFunction) : option (list spec_float) :=
  op ← kernel_of (tf_kind f);
  match tf_args_parsed f with
  | [ArgTensor a; ArgTensor b] => Some (zip_with op (tensor_data a) (tensor_data b))
  | [ArgTensor a; ArgFloat c] => Some ((λ x, op x (f32_of_f64 c)) <$> tensor_data a)
  | [ArgTensor a; ArgInt c] => Some ((λ x, op x (f32_of_Z c)) <$> tensor_data a)
  | _ => None
  end.

Definition eval_node (graph : TraceGraph) (name : string) : option (list spec_float) :=
  node ← nodes_map graph !! name;
  match module node with
  | Function f => eval_function f
  | NNModule _ => None
  end.

(** *** Example graphs for the rewrites *)

Definition example_tensor (id : nat) (values : list Z) : Tensor :=
  mkTensor id float32 (f32_of_Z <$> values).

Definition tensor_node (name : string) (m : Module) (id : nat)
    (prev next : list string) (inputs outputs : list Tensor) : TraceNode :=
  mkTraceNode name m id prev next inputs outputs false false.

(** [a - b] for [a = [5.0]] and [b = [3.0]] *)
Definition example_sub_function : TraceFunction :=
  mkTraceFunction "torch.Tensor.__sub__" "__sub__" "sub" true
    [example_tensor 0 [5]; example_tensor 1 [3]]%Z
    [ArgTensor (example_tensor 0 [5]); ArgTensor (example_tensor 1 [3])]%Z
    "input_1_f".

Definition example_sub_node : TraceNode :=
  tensor_node "sub_0" (Function example_sub_function) 2
    ["input_0"; "input_1"] ["output_0"]
    [example_tensor 0 [5]; example_tensor 1 [3]]%Z
    [example_tensor 2 [2]%Z].

Definition example_sub_operand : TraceNode :=
  tensor_node "input_1" input_module 1 [] ["sub_0"] [] [example_tensor 1 [3]%Z].

Definition example_sub_graph : TraceGraph :=
  mkTraceGraph
    (list_to_map
       [ ("input_0", tensor_node "input_0" input_module 0 [] ["sub_0"]
                       [] [example_tensor 0 [5]%Z]);
         ("input_1", example_sub_operand);
         ("sub_0", example_sub_node);
         ("output_0", tensor_node "output_0" output_module 3 ["sub_0"] []
                        [example_tensor 2 [2]%Z] []) ])
    ["input_0"; "input_1"; "sub_0"; "output_0"]
    ["input_0"; "input_1"] ["output_0"] [] false ∅.

(** [x / c] for [x = [4.0]], the constant given by its recorded string *)
Definition example_div_function (constant : string) (c : spec_float) : TraceFunction :=
  mkTraceFunction "torch.Tensor.__truediv__" "__truediv__" "truediv" true
    [example_tensor 0 [4]%Z]
    [ArgTensor (example_tensor 0 [4]%Z); ArgFloat c]
    constant.

Definition example_div_graph (constant : string) (c : spec_float)
    (quotient : list spec_float) : TraceGraph :=
  mkTraceGraph
    (list_to_map
       [ ("input_0", tensor_node "input_0" input_module 0 [] ["truediv_0"]
                       [] [example_tensor 0 [4]%Z]);
         ("truediv_0", tensor_node "truediv_0"
                         (Function (example_div_function constant c)) 1
                         ["input_0"] ["output_0"]
                         [example_tensor 0 [4]%Z]
                         [mkTensor 1 float32 quotient]);
         ("output_0", tensor_node "output_0" output_module 2 ["truediv_0"] []
                        [mkTensor 1 float32 quotient] []) ])
    ["input_0"; "truediv_0"; "output_0"]
    ["input_0"] ["output_0"] [] false ∅.

(** [x / 2.0] *)
Definition example_div_by_two : TraceGraph :=
  example_div_graph "2.0" (f64_of_Z 2) [f32_of_Z 2].

(** [x / 1e-05], the constant as Python prints it *)
Definition example_div_by_1e_05 : TraceGraph :=
  example_div_graph "1e-05" (S754_finite false 5902958103587057 (-69))
    [S754_finite false 12800000 (-5)].

(** stand-ins for the parts of the tracer and of the pipeline that the
    examples do not exercise *)
Definition no_args_string : list Arg → string := λ _, EmptyString.
Definition no_pass : TraceGraph → result TraceGraph := Ok.

(** the sub example after the whole rewrite, the passes outside the model
    left out *)
Definition example_sub_rewritten : TraceGraph :=
  match rewrite_quantize_graph no_args_string no_pass no_pass forward_nodes
          example_sub_graph with
  | Ok graph => graph
  | Raise _ => example_sub_graph
  end.

(** ** The other rule tables and their compilers *)

Definition ConvTranspose1d := ModuleClass "torch.nn.ConvTranspose1d".
Definition ConvTranspose2d := ModuleClass "torch.nn.ConvTranspose2d".
Definition ConvTranspose3d := ModuleClass "torch.nn.ConvTranspose3d".
Definition ReLU6 := ModuleClass "torch.nn.ReLU6".

(** [FUSE_RULE_LIST_PTQ_ONLY]: a rule and the first torch version that
    fuses it *)
Definition FUSE_RULE_LIST_PTQ_ONLY : list (rule * string) :=
  [ ([Linear; BatchNorm1d], "1.8.0");
    ([ConvTranspose1d; BatchNorm1d], "1.11.0");
    ([ConvTranspose2d; BatchNorm2d], "1.11.0");
    ([ConvTranspose3d; BatchNorm3d], "1.11.0") ].

Definition FUSE_RULE_LIST_EXTRA : list rule :=
  [ [Conv1d; BatchNorm1d; ReLU6];
    [Conv2d; BatchNorm2d; ReLU6];
    [Conv3d; BatchNorm3d; ReLU6];
    [Conv1d; ReLU6];
    [Conv2d; ReLU6];
    [Conv3d; ReLU6];
    [Linear; ReLU6];
    [Linear; BatchNorm1d; ReLU6];
    [BatchNorm2d; ReLU6];
    [BatchNorm3d; ReLU6];
    [FuncKind "add"; ReLU6];
    [FuncKind "add"; FuncKind "relu6"] ].

(** [load_processed_ptq_rules()] with its cache threaded through.
    [torch_at_least v] stands for
    [LooseVersion(torch.__version__) >= LooseVersion(v)]; the union of the
    two sets is taken in one of its iteration orders. *)
Definition load_processed_ptq_rules (torch_at_least : string → bool)
    (FUSE_RULE_LIST : list rule) (FUSE_RULE_LIST_PTQ_ONLY : list (rule * string))
    (processed_ptq_rules : rule_entries) : result (rule_entries * rule_entries) :=
  if decide (length processed_ptq_rules = 0%nat) then
    let filtered_ptq_rules :=
      (filter (λ kv : rule * string, torch_at_least kv.2 = true)
              FUSE_RULE_LIST_PTQ_ONLY).*1 in
    let ptq_rules := remove_dups (FUSE_RULE_LIST ++ filtered_ptq_rules) in
    rule_dict_ ← compile_rules ptq_rules;
    Ok (processed_ptq_rules ++ rule_dict_, processed_ptq_rules ++ rule_dict_)
  else Ok (processed_ptq_rules, processed_ptq_rules).

(** [load_processed_extra_qat_rules()] with its cache threaded through *)
Definition load_processed_extra_qat_rules (FUSE_RULE_LIST_EXTRA : list rule)
    (processed_extra_qat_rules : rule_entries)
  : result (rule_entries * rule_entries) :=
  if decide (length processed_extra_qat_rules = 0%nat) then
    rule_dict_ ← compile_rules FUSE_RULE_LIST_EXTRA;
    Ok (processed_extra_qat_rules ++ rule_dict_,
        processed_extra_qat_rules ++ rule_dict_)
  else Ok (processed_extra_qat_rules, processed_extra_qat_rules).

(** [d1 == d2] on rule dictionaries: the same keys, under each key the same
    flag and equal child dictionaries, whatever the insertion orders. *)
Inductive rule_dict_eq : rule_entries → rule_entries → Prop :=
  | rule_dict_eq_intro es1 es2 :
      (∀ k, option_Forall2
              (λ v1 v2 : bool * rule_dict,
                 v1.1 = v2.1 ∧ rule_dict_eq (rd_entries v1.2) (rd_entries v2.2))
              (rd_lookup k es1) (rd_lookup k es2)) →
      rule_dict_eq es1 es2.

(** The flags a lookup of [p] reports once the reversed rule [q] has been
    inserted, from those it reported before. *)
Fixpoint merge_flags (p q : list optype) (old : list bool) : list bool :=
  match p, q with
  | c :: p', k :: q' =>
      if decide (k = c) then
        match q' with
        | [] => true :: tail old
        | _ :: _ => default false (head old) :: merge_flags p' q' (tail old)
        end
      else old
  | _, _ => old
  end.

(** some rule starts, read backwards, with the first [i + 1] keys of [p] *)
Definition covered_by (rs : list rule) (p : list optype) (i : nat) : bool :=
  bool_decide (i < length p)%nat
  && bool_decide (Exists (λ r, take (S i) p `prefix_of` reverse r) rs).

(** the first [i + 1] keys of [p], read backwards, are a rule *)
Definition ends_rule (rs : list rule) (p : list optype) (i : nat) : bool :=
  bool_decide (reverse (take (S i) p) ∈ rs).

(** ** Chains of the graph *)

(** [a] is the one predecessor of [b] *)
Definition only_predecessor (graph : TraceGraph) (a b : TraceNode) : Prop :=
  ∃ prev, prev_nodes b = [prev] ∧ nodes_map graph !! prev = Some a.

(** a BF16 quantizer for a data-parallel model, asked to rewrite the graph
    and to quantize per channel *)
Definition example_bf16_config : option (gmap string pyval) :=
  Some {[ "rewrite_graph" := PyBool true; "per_tensor" := PyBool false ]}.

Definition example_bf16_quantizer : quantizer :=
  set_disable_requantization_for_cat (PyBool true)
    (set_rewrite_graph (PyBool false)
       (QATQuantizer_parse_config BF16Quantizer 7 "out" example_bf16_config)).

(** ** More rewrite examples *)

(** a node [op_0] between [input_0] and [output_0] that applies [f] to the
    input [[4.0]] *)
Definition example_op_graph (f : TraceFunction) (out : list spec_float)
  : TraceGraph :=
  mkTraceGraph
    (list_to_map
       [ ("input_0", tensor_node "input_0" input_module 0 [] ["op_0"]
                       [] [example_tensor 0 [4]%Z]);
         ("op_0", tensor_node "op_0" (Function f) 1 ["input_0"] ["output_0"]
                    [example_tensor 0 [4]%Z] [mkTensor 1 float32 out]);
         ("output_0", tensor_node "output_0" output_module 2 ["op_0"] []
                        [mkTensor 1 float32 out] []) ])
    ["input_0"; "op_0"; "output_0"]
    ["input_0"] ["output_0"] [] false ∅.

(** [-x] *)
Definition example_neg_function : TraceFunction :=
  mkTraceFunction "torch.Tensor.__neg__" "__neg__" "neg" true
    [example_tensor 0 [4]%Z] [ArgTensor (example_tensor 0 [4]%Z)] EmptyString.

Definition example_neg_graph : TraceGraph :=
  example_op_graph example_neg_function [f32_of_Z (-4)].

(** [x - 0.5] *)
Definition example_sub_half_function : TraceFunction :=
  mkTraceFunction "torch.Tensor.__sub__" "__sub__" "sub" true
    [example_tensor 0 [4]%Z]
    [ArgTensor (example_tensor 0 [4]%Z);
     ArgFloat (S754_finite false 4503599627370496 (-53))]
    "0.5".

Definition example_sub_half_graph : TraceGraph :=
  example_op_graph example_sub_half_function [S754_finite false 14680064 (-22)].

(** [x / 0] *)
Definition example_div_by_zero : TraceGraph :=
  example_div_graph "0" (S754_zero false) [S754_infinity false].

(** A character [int] may accept somewhere in its argument: a digit, a
    sign, an underscore or white space, to which are added, as characters
    left open, the four separators 28 to 31, which [str.isspace] counts as
    white space, and every character above 127, among which are the digits
    and blanks of other scripts.  The others are ASCII characters [int]
    turns down wherever they stand. *)
Definition int_char (c : ascii) : bool :=
  bool_decide (is_Some (digit_of c)) || is_space c
  || bool_decide (c ∈ ["-"; "+"; "_"]%char)
  || bool_decide (28 ≤ nat_of_ascii c ≤ 31)%nat
  || bool_decide (128 ≤ nat_of_ascii c)%nat.

(** a constant that is zero *)
Definition is_zero_number (n : pynum) : bool :=
  match n with
  | NumInt z => bool_decide (z = 0%Z)
  | NumFloat x => is_zero x
  end.

(** ** Float-functional promotion ([_is_convertible_node] and its loop)

    The fourth step of [rewrite_quantize_graph]: every [add], [mul] and
    [cat] with a float32 output becomes a call on a new
    [FloatFunctional] module. *)

Definition FloatFunctional : string := "torch.nn.quantized.FloatFunctional".

Definition is_convertible_node (node : TraceNode) : result bool :=
  match module node with
  | Function f =>
      if bool_decide (tf_kind f ∈ ["add"; "mul"; "cat"]) then
        out ← index (next_tensors node) 0;
        Ok (bool_decide (tensor_dtype out = float32))
      else Ok false
  | NNModule _ => Ok false
  end.

(** What the loop writes besides the graph: the registry of unique module
    names, the list [graph.other_init_nodes] and the table of constructor
    lines kept for code generation. *)
Record promotion_state := mkPromotionState {
  ps_graph : TraceGraph;
  ps_module_unique_name_dict : gmap nat string;
  ps_other_init_nodes : list string;
  ps_module_constructor_lines : gmap nat string;
}.

(** [node.module.func_type] of the node called [name], when it is a
    function *)
Definition func_type_of (graph : TraceGraph) (name : string) : option string :=
  match module <$> nodes_map graph !! name with
  | Some (Function f) => Some (tf_func_type f)
  | _ => None
  end.

(** The choice of [op_type] for a node of kind [op_kind]. *)
Definition promoted_op_type (graph : TraceGraph) (node : TraceNode)
    (op_kind : string) : result string :=
  let prev_tensor_size := length (prev_tensors node) in
  if bool_decide (op_kind ∈ ["add"; "mul"]) then
    if decide (prev_tensor_size = 2%nat) then
      second ← index (prev_nodes node) 1;
      match nodes_map graph !! second with
      | Some second_node =>
          origin ← index (prev_nodes second_node) 0;
          match nodes_map graph !! origin with
          | Some origin_node =>
              if negb (bool_decide (node_kind origin_node ∈ ["shape"; "size"]))
              then Ok op_kind
              else Ok (op_kind +:+ "_scalar")
          | None => Raise KeyError
          end
      | None => Raise KeyError
      end
    else if decide (prev_tensor_size = 1%nat) then Ok (op_kind +:+ "_scalar")
    else Raise (AssertionError EmptyString)
  else Ok op_kind.

Section promotion.
(** [float_functional_line] stands for the constructor line
    [qualified_name(float_functional_cls, short=True) + '()'].  The bodies
    of the two conditionals that close the loop are parameters:
    [inplace_branch] is the alias bookkeeping for in-place operations, which
    is done with [add_alias] and [get_aliases] of the tracer, and
    [reflected_branch] the re-parsing of [__radd__] and [__rmul__]. *)
Context (float_functional_line : string)
        (inplace_branch reflected_branch : string → TraceGraph → result TraceGraph).

(** Modelled from the spec: the constructor [TraceNode(module, cur_graph)]
    belongs to the tracer; the node of a module carries the unique name
    registered for the module and has no neighbours yet.  A module created
    here has an identity and a name that are new to the graph. *)
Definition new_module_node (module_name : string) (id : nat) : TraceNode :=
  mkTraceNode module_name (NNModule FloatFunctional) id [] [] [] [] false false.

(** One round of [for idx, node in enumerate(convertible_nodes)].  The
    nodes of the loop are functions, by the filter that collects them; the
    neighbours of [node] are looked up in the graph as it was when the round
    began, the node objects they stand for being those. *)
Definition promote_node (idx : nat) (name : string) (st : promotion_state)
  : result promotion_state :=
  let graph := ps_graph st in
  match nodes_map graph !! name with
  | Some node =>
      match module node with
      | Function f =>
          let op_kind := tf_kind f in
          let float_functional := fresh_module_id graph in
          let module_name := "float_functional_simple_" +:+ pretty idx in
          let new_node := new_module_node module_name float_functional in
          let graph :=
            {| nodes_map := <[unique_name new_node := new_node]> (nodes_map graph);
               forward_nodes := forward_nodes graph;
               input_nodes := input_nodes graph;
               output_nodes := output_nodes graph;
               constant_nodes := constant_nodes graph;
               graph_quantized := graph_quantized graph;
               module_original_name_dict :=
                 <[float_functional := module_name]>
                   (module_original_name_dict graph) |} in
          op_type ← promoted_op_type (ps_graph st) node op_kind;
          let f' :=
            {| tf_full_name := "self." +:+ module_name +:+ "." +:+ op_type;
               tf_func_type := op_type;
               tf_kind := tf_kind f;
               tf_is_class := false;
               tf_prev_tensors := tf_prev_tensors f;
               tf_args_parsed := tf_args_parsed f;
               tf_args_string_no_self := tf_args_string_no_self f |} in
          let graph := set_node_module name (Function f') graph in
          graph ←
            (if bool_decide (func_type_of graph name
                             ∈ Some <$> ["__iadd__"; "__imul__"; "add_"; "mul_"])
             then inplace_branch name graph else Ok graph);
          graph ←
            (if bool_decide (func_type_of graph name
                             ∈ Some <$> ["__radd__"; "__rmul__"])
             then reflected_branch name graph else Ok graph);
          Ok {| ps_graph := graph;
                ps_module_unique_name_dict :=
                  <[float_functional := module_name]>
                    (ps_module_unique_name_dict st);
                ps_other_init_nodes := ps_other_init_nodes st ++ [module_name];
                ps_module_constructor_lines :=
                  <[float_functional := float_functional_line]>
                    (ps_module_constructor_lines st) |}
      | NNModule _ => Ok st
      end
  | None => Raise KeyError
  end.

Fixpoint promote_nodes (idx : nat) (names : list string) (st : promotion_state)
  : result promotion_state :=
  match names with
  | [] => Ok st
  | name :: rest => st ← promote_node idx name st; promote_nodes (S idx) rest st
  end.

Definition promote_float_functionals (st : promotion_state)
  : result promotion_state :=
  convertible_nodes ← filter_nodes is_convertible_node (ps_graph st)
                        (forward_nodes (ps_graph st));
  promote_nodes 0 convertible_nodes st.
End promotion.

(** [2 + x], recorded as [x.__radd__(2)] *)
Definition example_radd_function : TraceFunction :=
  mkTraceFunction "torch.Tensor.__radd__" "__radd__" "add" true
    [example_tensor 0 [4]%Z]
    [ArgTensor (example_tensor 0 [4]%Z); ArgInt 2] "2".

Definition example_radd_graph : TraceGraph :=
  example_op_graph example_radd_function [f32_of_Z 6].

(** ** Seeding the input statistics ([prepare_quantized_inputs_pass])

    Besides the exceptions above the pass can raise [TypeError], by
    subscripting [None]. *)

Inductive py_error :=
  | Raised (e : exn)
  | TypeError.

Inductive outcome (A : Type) :=
  | Done (a : A)
  | Failed (e : py_error).
Arguments Done {A} a.
Arguments Failed {A} e.

#[global] Instance outcome_bind : MBind outcome := λ A B k m,
  match m with
  | Done a => k a
  | Failed e => Failed e
  end.

(** An element of a statistics entry: an [int] or a [float], or something
    else. *)
Inductive stat :=
  | StatNumber (n : pynum)
  | StatOther.

(** An entry of [quantized_input_stats]: [None], a list or tuple, or
    something else. *)
Inductive qstats :=
  | QNone
  | QSeq (items : list stat)
  | QOther.

(** [isinstance(qstats, (list, tuple)) and len(qstats) == 2 and
    all(isinstance(q, (int, float)) for q in qstats)] *)
Definition well_formed_stats (q : qstats) : bool :=
  match q with
  | QSeq [StatNumber _; StatNumber _] => true
  | _ => false
  end.

(** [qstats is None] *)
Definition is_none (q : qstats) : bool :=
  match q with QNone => true | _ => false end.

(** [qstats[i]] *)
Definition qstats_item (q : qstats) (i : nat) : outcome stat :=
  match q with
  | QNone | QOther => Failed TypeError
  | QSeq items =>
      match items !! i with
      | Some item => Done item
      | None => Failed (Raised IndexError)
      end
  end.

Section quantized_inputs.
(** [modules] is the state of the modules of the model, which
    [set_module_quantization module mean std] updates or fails on; a module
    is named by its identity. *)
Context {modules : Type}
        (set_module_quantization : nat → stat → stat → modules → outcome modules).

(** [for next_node in node.next_nodes] *)
Fixpoint seed_quant_stubs (graph : TraceGraph) (q : qstats)
    (next_nodes_ : list string) (m : modules) : outcome modules :=
  match next_nodes_ with
  | [] => Done m
  | next :: rest =>
      match nodes_map graph !! next with
      | Some next_node =>
          m ← (if module_is QuantStub next_node then
                 mean ← qstats_item q 0;
                 std ← qstats_item q 1;
                 set_module_quantization (module_id next_node) mean std m
               else Done m);
          seed_quant_stubs graph q rest m
      | None => Failed (Raised KeyError)
      end
  end.

(** [for qstats, node in zip(self.quantized_input_stats, graph.input_nodes)] *)
Fixpoint seed_inputs (graph : TraceGraph) (entries : list (qstats * string))
    (m : modules) : outcome modules :=
  match entries with
  | [] => Done m
  | (q, name) :: rest =>
      if negb (is_none q) && negb (well_formed_stats q) then
        Failed (Raised (AssertionError
          "quantized_input_stats format: [(mean_1, std_1), (mean_2, std_2), ..., (mean_n, std_n)]"))
      else
        match nodes_map graph !! name with
        | Some node =>
            m ← seed_quant_stubs graph q (next_nodes node) m;
            seed_inputs graph rest m
        | None => Failed (Raised KeyError)
        end
  end.

Definition prepare_quantized_inputs_pass
    (quantized_input_stats : option (list qstats)) (graph : TraceGraph)
    (m : modules) : outcome modules :=
  match quantized_input_stats with
  | None => Done m
  | Some stats =>
      if decide (length stats = length (input_nodes graph)) then
        seed_inputs graph (zip stats (input_nodes graph)) m
      else
        Failed (Raised (AssertionError
          ("quantized_input_stats contains " +:+ pretty (length stats)
           +:+ " elements, but " +:+ pretty (length (input_nodes graph))
           +:+ " is expected")))
  end.
End quantized_inputs.

(** ** The [dim] of a stack ([_is_stack_node] and the head of its loop) *)

Definition is_stack_node (node : TraceNode) : result bool :=
  match module node with
  | Function f =>
      if bool_decide (tf_kind f = "stack") then
        out ← index (next_tensors node) 0;
        Ok (bool_decide (tensor_dtype out = float32))
      else Ok false
  | NNModule _ => Ok false
  end.

(** [s.split(sep)] for a separator of one character *)
Fixpoint split_on (sep : ascii) (l : list ascii) (word : list ascii)
  : list string :=
  match l with
  | [] => [string_of_list_ascii (reverse word)]
  | c :: l' =>
      if bool_decide (c = sep)
      then string_of_list_ascii (reverse word) :: split_on sep l' []
      else split_on sep l' (c :: word)
  end.

(** The dimension the loop reads off the recorded arguments of a stack:
    none for [0], a bare integer, or [dim=] and an integer.  The record
    that [log.error] writes before the first assertion is left out. *)
Definition stack_dim (args : string) : result Z :=
  if contains_char "," args then Raise (AssertionError EmptyString)
  else if decide (0 < String.length args)%nat then
    if contains_char "=" args then
      match split_on "=" (list_ascii_of_string args) [] with
      | [k; v] =>
          if bool_decide (k = "dim") then py_int v
          else Raise (AssertionError EmptyString)
      | _ => Raise ValueError
      end
    else py_int args
  else Ok 0%Z.

(** ** Rescaling the activations
    ([QATQuantizer.rescale_activations_with_quant_min_max]) *)

(** [sub in s] for texts *)
Fixpoint contains_text (sub l : list ascii) : bool :=
  bool_decide (sub `prefix_of` l)
  || match l with
     | [] => false
     | _ :: l' => contains_text sub l'
     end.

Section rescale.
(** The tensors [m.scale] and [m.zero_point] are kept abstract, with the
    operations the method applies to them: product and quotient of a tensor
    and a Python [int], [torch.zeros_like] and the sum of a tensor and an
    [int]. *)
Context {scale_tensor zero_point_tensor : Type}
        (tensor_mul_int tensor_div_int : scale_tensor → Z → scale_tensor)
        (zeros_like : zero_point_tensor → zero_point_tensor)
        (tensor_add_int : zero_point_tensor → Z → zero_point_tensor).

(** the attributes of an observer and of a [FakeQuantize] module that the
    method reads or writes *)
Record observer := mkObserver {
  ob_quant_min : Z;
  ob_quant_max : Z;
}.

Record fake_quantize := mkFakeQuantize {
  fq_quant_min : Z;
  fq_quant_max : Z;
  fq_scale : scale_tensor;
  fq_zero_point : zero_point_tensor;
  fq_activation_post_process : option observer;
}.

(** a module of [self.model.named_modules()] *)
Inductive named_module :=
  | FakeQuantize (m : fake_quantize)
  | OtherModule.

(** the body of the loop on a [FakeQuantize] that has an observer *)
Definition rescale_fake_quantize (quant_min quant_max : Z) (m : fake_quantize)
  : fake_quantize :=
  let old_quant_range := (fq_quant_max m - fq_quant_min m)%Z in
  let new_quant_range := (quant_max - quant_min)%Z in
  let zero_point := ((new_quant_range + 1) `div` 2)%Z in
  {| fq_quant_min := quant_min;
     fq_quant_max := quant_max;
     fq_scale :=
       tensor_div_int (tensor_mul_int (fq_scale m) new_quant_range)
                      old_quant_range;
     fq_zero_point := tensor_add_int (zeros_like (fq_zero_point m)) zero_point;
     fq_activation_post_process :=
       (λ _, mkObserver quant_min quant_max) <$> fq_activation_post_process m |}.

Definition rescale_module (quant_min quant_max : Z)
    (entry : string * named_module) : string * named_module :=
  let '(n, m) := entry in
  if contains_text (list_ascii_of_string ".weight_fake_quant")
                   (list_ascii_of_string n)
  then (n, m)
  else
    match m with
    | FakeQuantize fq =>
        match fq_activation_post_process fq with
        | Some _ => (n, FakeQuantize (rescale_fake_quantize quant_min quant_max fq))
        | None => (n, m)
        end
    | OtherModule => (n, m)
    end.

Definition rescale_activations_with_quant_min_max (quant_min quant_max : Z)
    (named_modules : list (string * named_module))
  : list (string * named_module) :=
  rescale_module quant_min quant_max <$> named_modules.
End rescale.

(** ** The walk of the fusion matcher as the specification has it

    "Otherwise descend into the matching child; if that child's type already
    appears in a global already-consumed set, stop.  Append the current
    node's canonical name to the in-progress chain; if the child is terminal,
    snapshot the chain-so-far as the best-known match.  Stop descent at any
    node with more than one predecessor."  Every dictionary node the walk
    descends into is a step, whatever the number of predecessors of the
    graph node it is reached at; a step keeps that node. *)

Record step := mkStep {
  step_node : TraceNode;
  step_name : string;
  step_terminal : bool;
}.

Section reached.
Context (graph : TraceGraph) (use_original_name : bool) (used : gset string).

Fixpoint reached_steps (current_rules : rule_dict) (cur_node : TraceNode)
    {struct current_rules} : result (list step) :=
  match current_rules with
  | RuleDict entries =>
      (fix find (es : rule_entries) : result (list step) :=
         match es with
         | [] => Ok []
         | (k, (current_state, child)) :: es' =>
             if decide (k = node_class cur_node) then
               cur_name ← cur_name_of use_original_name graph cur_node;
               if decide (cur_name ∈ used) then Ok []
               else
                 let here := mkStep cur_node cur_name current_state in
                 match prev_nodes cur_node with
                 | [prev] =>
                     match nodes_map graph !! prev with
                     | Some prev_node =>
                         rest ← reached_steps child prev_node;
                         Ok (here :: rest)
                     | None => Raise KeyError
                     end
                 | _ => Ok [here]
                 end
             else find es'
         end) entries
  end.
End reached.

Definition step_flag (s : step) : string * bool := (step_name s, step_terminal s).

(** The steps the loop of [is_fusable] appends to [names]: those reached at
    a node that has a predecessor, [if len(prev_nodes) == 0: break] standing
    between the descent and [names.append]. *)
Definition recorded_steps (steps : list step) : list (string * bool) :=
  step_flag <$> filter (λ s, (0 < length (prev_nodes (step_node s)))%nat) steps.

(** The longest-match claim as the specification words it: a call returns
    the longest terminal match of the steps the walk has reached. *)
Definition longest_reached_match_returned (graph : TraceGraph)
    (use_original_name check_node_quantized : bool) (node : TraceNode)
    (data : custom_data) (rules : rule_entries) : Prop :=
  ∀ steps,
    reached_steps graph use_original_name (consumed data) (RuleDict rules) node
      = Ok steps →
    check_node_quantized && negb (quantized node) = false →
    let best := longest_terminal_prefix (step_flag <$> steps) in
    is_fusable node data (Some rules) check_node_quantized use_original_name graph
    = if decide (best = []) then Ok (false, data)
      else Ok (true, {| quant_list := quant_list data ++ [reverse best];
                        consumed := consumed data ∪ list_to_set (reverse best) |}).

(** a convolution that no node feeds, and the ReLU after it *)
Definition example_source_conv : TraceNode :=
  example_node "conv_0" (NNModule "torch.nn.Conv2d") 0 [] ["relu_0"].

Definition example_source_relu : TraceNode :=
  example_node "relu_0" (NNModule "torch.nn.ReLU") 1 ["conv_0"] ["output_0"].

Definition example_source_graph : TraceGraph :=
  mkTraceGraph
    (list_to_map
       [ ("conv_0", example_source_conv);
         ("relu_0", example_source_relu);
         ("output_0", example_node "output_0" output_module 2 ["relu_0"] []) ])
    ["conv_0"; "relu_0"; "output_0"] [] ["output_0"] [] false
    (list_to_map [ (0, "conv"); (1, "relu") ]).

(** an input, a constant and the result of [torch.zeros], all float32,
    added up; a DeQuantStub and a ReLU after the sum *)
Definition example_float_graph : TraceGraph :=
  mkTraceGraph
    (list_to_map
       [ ("input_0", tensor_node "input_0" input_module 0 [] ["add_0"]
                       [] [example_tensor 0 [1]%Z]);
         ("const_0", tensor_node "const_0"
                       (NNModule "tinynn.graph.tracer.ConstantNode") 1 [] ["add_0"]
                       [] [example_tensor 1 [2]%Z]);
         ("zeros_0", tensor_node "zeros_0"
                       (Function (trace_function "torch.zeros" "zeros" "zeros"))
                       2 [] ["add_1"] [] [example_tensor 2 [0]%Z]);
         ("add_0", tensor_node "add_0"
                     (Function (trace_function "torch.add" "add" "add")) 3
                     ["input_0"; "const_0"] ["add_1"]
                     [example_tensor 0 [1]; example_tensor 1 [2]]%Z
                     [example_tensor 3 [3]%Z]);
         ("add_1", tensor_node "add_1"
                     (Function (trace_function "torch.add" "add" "add")) 4
                     ["add_0"; "zeros_0"] ["fake_dequant_0"]
                     [example_tensor 3 [3]; example_tensor 2 [0]]%Z
                     [example_tensor 4 [3]%Z]);
         ("fake_dequant_0", tensor_node "fake_dequant_0" (NNModule DeQuantStub) 5
                              ["add_1"] ["relu_0"]
                              [example_tensor 4 [3]%Z] [example_tensor 5 [3]%Z]);
         ("relu_0", tensor_node "relu_0" (NNModule "torch.nn.ReLU") 6
                      ["fake_dequant_0"] ["output_0"]
                      [example_tensor 5 [3]%Z] [example_tensor 6 [3]%Z]);
         ("output_0", tensor_node "output_0" output_module 7 ["relu_0"] []
                        [example_tensor 6 [3]%Z] []) ])
    ["input_0"; "zeros_0"; "add_0"; "add_1"; "fake_dequant_0"; "relu_0"; "output_0"]
    ["input_0"] ["output_0"] ["const_0"] false
    (list_to_map [ (5, "fake_dequant_0"); (6, "relu") ]).

Definition example_float_analysis : analysis_state :=
  run_analysis example_float_graph
    [("input_0", false); ("const_0", false); ("zeros_0", false)].

(** two inputs, each with its QuantStub, and their sum *)
Definition example_two_input_graph : TraceGraph :=
  mkTraceGraph
    (list_to_map
       [ ("input_0", example_node "input_0" input_module 0 [] ["fake_quant_0"]);
         ("input_1", example_node "input_1" input_module 1 [] ["fake_quant_1"]);
         ("fake_quant_0",
          example_node "fake_quant_0" (NNModule QuantStub) 2 ["input_0"] ["add_0"]);
         ("fake_quant_1",
          example_node "fake_quant_1" (NNModule QuantStub) 3 ["input_1"] ["add_0"]);
         ("add_0",
          example_node "add_0" (Function (trace_function "torch.add" "add" "add")) 4
            ["fake_quant_0"; "fake_quant_1"] ["output_0"]);
         ("output_0", example_node "output_0" output_module 5 ["add_0"] []) ])
    ["input_0"; "input_1"; "fake_quant_0"; "fake_quant_1"; "add_0"; "output_0"]
    ["input_0"; "input_1"] ["output_0"] [] false
    (list_to_map [ (2, "fake_quant_0"); (3, "fake_quant_1") ]).

(* ================================================================== *)
(** * Properties *)
(* ================================================================== *)

(** ** Rule dictionaries *)

Section rule_dict_lemmas.
Implicit Types (k c : optype) (es : rule_entries) (v : bool * rule_dict).
Implicit Types (p q : list optype).

Lemma rd_lookup_app k es es' :
  rd_lookup k (es ++ es') =
    match rd_lookup k es with Some v => Some v | None => rd_lookup k es' end.
Proof.
  induction es as [|[k' v'] es IH]; simpl; [done|].
  by destruct (decide (k' = k)).
Qed.

Lemma rd_lookup_setdefault k k' v es :
  rd_lookup k (rd_setdefault k' v es) =
    match rd_lookup k es with
    | Some w => Some w
    | None => if decide (k' = k) then Some v else None
    end.
Proof.
  unfold rd_setdefault. destruct (rd_lookup k' es) as [w|] eqn:Hk'.
  - destruct (rd_lookup k es) eqn:Hk; [done|].
    destruct (decide (k' = k)); [congruence|done].
  - rewrite rd_lookup_app. simpl. by destruct (rd_lookup k es).
Qed.

Lemma rd_lookup_alter f k k' es :
  rd_lookup k (rd_alter f k' es) =
    if decide (k' = k) then f <$> rd_lookup k es else rd_lookup k es.
Proof.
  induction es as [|[k0 v0] es IH]; simpl.
  - by destruct (decide (k' = k)).
  - destruct (decide (k0 = k')) as [->|Hne]; simpl.
    + by destruct (decide (k' = k)).
    + destruct (decide (k0 = k)) as [->|Hne'].
      * by destruct (decide (k' = k)) as [->|].
      * done.
Qed.

(** What a lookup finds after a rule has been inserted. *)
Lemma rd_lookup_insert_rule k c rest es :
  rd_lookup k (insert_rule (c :: rest) es) =
    if decide (c = k) then
      let pair := default (false, RuleDict []) (rd_lookup k es) in
      Some (match rest with
            | [] => (true, pair.2)
            | _ :: _ => (pair.1, RuleDict (insert_rule rest (rd_entries pair.2)))
            end)
    else rd_lookup k es.
Proof.
  cbn [insert_rule]. rewrite rd_lookup_alter, rd_lookup_setdefault.
  destruct (decide (c = k)) as [->|Hne].
  - destruct (rd_lookup k es); simpl; [done|].
    by rewrite ?decide_True.
  - destruct (rd_lookup k es); [done|]. by rewrite ?decide_False.
Qed.

(** Inserting the reversed rule [q] makes exactly the path [q] terminal
    and leaves every other path as it was. *)
Lemma terminal_at_insert_rule q : ∀ p es,
  q ≠ [] →
  terminal_at p (insert_rule q es) = terminal_at p es || bool_decide (p = q).
Proof.
  induction q as [|c rest IH]; intros p es Hq; [done|].
  destruct p as [|k p'].
  { cbn [terminal_at]. by rewrite bool_decide_eq_false_2. }
  cbn [terminal_at]. rewrite rd_lookup_insert_rule.
  destruct (decide (c = k)) as [->|Hne].
  2:{ rewrite (bool_decide_eq_false_2 (k :: p' = c :: rest)) by congruence.
      by rewrite orb_false_r. }
  cbn zeta.
  destruct rest as [|c' rest'], p' as [|k' p''].
  - rewrite bool_decide_eq_true_2 by done.
    destruct (rd_lookup k es) as [[flag child]|]; cbn [default fst snd];
      by rewrite ?orb_true_r.
  - rewrite bool_decide_eq_false_2 by congruence.
    destruct (rd_lookup k es) as [[flag child]|]; cbn [default fst snd];
      by rewrite ?orb_false_r.
  - rewrite bool_decide_eq_false_2 by congruence.
    destruct (rd_lookup k es) as [[flag child]|]; cbn [default fst snd];
      by rewrite ?orb_false_r.
  - cbn [rd_entries]. rewrite IH by done.
    rewrite (bool_decide_ext (k :: k' :: p'' = k :: c' :: rest')
               (k' :: p'' = c' :: rest')) by (split; congruence).
    by destruct (rd_lookup k es) as [[flag child]|]; cbn [default fst snd].
Qed.

(** Insertion into the empty dictionary builds the single path. *)
Lemma lookup_flags_insert_rule_nil q :
  q ≠ [] →
  lookup_flags q (insert_rule q []) = replicate (length q - 1) false ++ [true].
Proof.
  induction q as [|c rest IH]; intros Hq; [done|].
  cbn [lookup_flags]. rewrite rd_lookup_insert_rule, decide_True by done.
  cbn [rd_lookup default fst snd]. destruct rest as [|c' rest']; [done|].
  cbn [rd_entries]. rewrite IH by done.
  cbn [length]. by rewrite !Nat.sub_succ, !Nat.sub_0_r.
Qed.
End rule_dict_lemmas.

(** The sort keeps the rules and nothing else. *)
Lemma elem_of_insert_by_len (r r0 : rule) rs :
  r ∈ insert_by_len r0 rs ↔ r = r0 ∨ r ∈ rs.
Proof.
  induction rs as [|r' rs IH]; simpl.
  - set_solver.
  - destruct (decide (length r0 < length r')%nat); set_solver.
Qed.

Lemma elem_of_sorted_by_len_desc (r : rule) rs :
  r ∈ sorted_by_len_desc rs ↔ r ∈ rs.
Proof.
  induction rs as [|r' rs IH]; simpl; [done|].
  rewrite elem_of_insert_by_len. set_solver.
Qed.

Lemma compile_loop_terminal rs : ∀ bound es,
  Forall (λ r : rule, r ≠ []) rs →
  ∃ es', compile_loop rs bound es = Ok es' ∧
    ∀ p, terminal_at p es' = true ↔
         terminal_at p es = true ∨ reverse p ∈ rs.
Proof.
  induction rs as [|r rs IH]; intros bound es Hne.
  - exists es. split; [done|]. intros p. set_solver.
  - apply Forall_cons in Hne as [Hr Hrs].
    destruct r as [|c r']; [done|]. cbn [compile_loop].
    destruct (IH true (insert_rule (reverse (c :: r')) es) Hrs) as (es' & -> & Hes').
    exists es'. split; [done|]. intros p. rewrite Hes'.
    rewrite terminal_at_insert_rule, orb_true_iff, bool_decide_eq_true.
    2:{ intros Hnil. apply (f_equal length) in Hnil.
        rewrite length_reverse in Hnil. done. }
    rewrite elem_of_cons.
    assert (p = reverse (c :: r') ↔ reverse p = c :: r') as ->; [|tauto].
    split; intros H.
    + by rewrite H, reverse_involutive.
    + by rewrite <-H, reverse_involutive.
Qed.

(** ** The fusion matcher *)

(** Induction over a rule dictionary and the dictionaries below it. *)
Lemma rule_dict_children_ind (P : rule_dict → Prop) :
  (∀ es, (∀ k flag child, rd_lookup k es = Some (flag, child) → P child) →
         P (RuleDict es)) →
  ∀ d, P d.
Proof.
  intros Hstep.
  fix IH 1. intros [es]. apply Hstep.
  induction es as [|[k' [flag' child']] es IHes]; intros k flag child Hk.
  - discriminate.
  - simpl in Hk. destruct (decide (k' = k)).
    + injection Hk as <- <-. apply IH.
    + by eapply IHes.
Qed.

Section fusable_lemmas.
Context (graph : TraceGraph) (use_original_name : bool) (used : gset string).

Lemma fusable_walk_unfold es cur_node names final_names :
  fusable_walk graph use_original_name used (RuleDict es) cur_node
               names final_names =
    match rd_lookup (node_class cur_node) es with
    | None => Ok final_names
    | Some (current_state, child) =>
        fusable_round graph use_original_name used
          (fusable_walk graph use_original_name used child)
          current_state cur_node names final_names
    end.
Proof.
  cbn [fusable_walk].
  induction es as [|[k [flag child]] es IH]; [done|].
  cbn [rd_lookup]. by destruct (decide (k = node_class cur_node)).
Qed.

Lemma walk_steps_unfold es cur_node :
  walk_steps graph use_original_name used (RuleDict es) cur_node =
    match rd_lookup (node_class cur_node) es with
    | None => Ok []
    | Some (current_state, child) =>
        cur_name ← cur_name_of use_original_name graph cur_node;
        if decide (cur_name ∈ used) then Ok []
        else if decide (length (prev_nodes cur_node) = 0%nat) then Ok []
        else
          match prev_nodes cur_node with
          | [prev] =>
              match nodes_map graph !! prev with
              | Some prev_node =>
                  rest ← walk_steps graph use_original_name used child prev_node;
                  Ok ((cur_name, current_state) :: rest)
              | None => Raise KeyError
              end
          | _ => Ok [(cur_name, current_state)]
          end
    end.
Proof.
  cbn [walk_steps].
  induction es as [|[k [flag child]] es IH]; [done|].
  cbn [rd_lookup]. by destruct (decide (k = node_class cur_node)).
Qed.

(** The loop against the walk: what the loop leaves in [final_names] is
    what it held on entry, unless some later step is terminal, and then it
    is the chain up to the last such step. *)
Lemma fusable_walk_steps rules : ∀ cur_node names final_names,
  fusable_walk graph use_original_name used rules cur_node names final_names =
    steps ← walk_steps graph use_original_name used rules cur_node;
    Ok (match longest_terminal_prefix steps with
        | [] => final_names
        | best => names ++ best
        end).
Proof.
  induction rules as [es IH] using rule_dict_children_ind.
  intros cur_node names final_names.
  rewrite fusable_walk_unfold, walk_steps_unfold.
  destruct (rd_lookup (node_class cur_node) es) as [[st child]|] eqn:Hk; [|done].
  unfold fusable_round.
  destruct (cur_name_of use_original_name graph cur_node) as [cur_name|e]; [|done].
  cbn [mbind result_bind].
  destruct (decide (cur_name ∈ used)); [done|].
  destruct (decide (length (prev_nodes cur_node) = 0%nat)); [done|].
  destruct (prev_nodes cur_node) as [|prev [|prev' prevs]]; [done| |].
  - destruct (nodes_map graph !! prev) as [prev_node|]; [|done].
    rewrite (IH _ _ _ Hk).
    destruct (walk_steps graph use_original_name used child prev_node)
      as [rest|e]; [|done].
    cbn [mbind result_bind longest_terminal_prefix].
    destruct (longest_terminal_prefix rest) as [|name0 best].
    + by destruct st.
    + by rewrite <-app_assoc.
  - cbn [mbind result_bind longest_terminal_prefix].
    by destruct st.
Qed.

(** No name the walk appends is in the consumed set. *)
Lemma walk_steps_not_used rules : ∀ cur_node steps,
  walk_steps graph use_original_name used rules cur_node = Ok steps →
  ∀ name, name ∈ steps.*1 → name ∉ used.
Proof.
  induction rules as [es IH] using rule_dict_children_ind.
  intros cur_node steps. rewrite walk_steps_unfold.
  destruct (rd_lookup (node_class cur_node) es) as [[st child]|] eqn:Hk.
  2:{ intros [= <-] name Hin. by apply elem_of_nil in Hin. }
  destruct (cur_name_of use_original_name graph cur_node) as [cur_name|e]; [|done].
  cbn [mbind result_bind].
  destruct (decide (cur_name ∈ used)) as [|Hfresh].
  { intros [= <-] name Hin. by apply elem_of_nil in Hin. }
  destruct (decide (length (prev_nodes cur_node) = 0%nat)).
  { intros [= <-] name Hin. by apply elem_of_nil in Hin. }
  assert (∀ name, name ∈ [(cur_name, st)].*1 → name ∉ used) as Hone.
  { intros name Hin. apply list_elem_of_singleton in Hin. by subst. }
  destruct (prev_nodes cur_node) as [|prev [|prev' prevs]].
  - intros [= <-]. apply Hone.
  - destruct (nodes_map graph !! prev) as [prev_node|]; [|done].
    destruct (walk_steps graph use_original_name used child prev_node)
      as [rest|e] eqn:Hrest; [|done].
    intros [= <-] name Hin. cbn [fmap list_fmap fst] in Hin.
    apply elem_of_cons in Hin as [->|Hin]; [done|].
    by eapply IH.
  - intros [= <-]. apply Hone.
Qed.
End fusable_lemmas.

(** The best match is a prefix of the walk, ends on a terminal step and
    reaches past every terminal step. *)
Lemma longest_terminal_prefix_prefix steps :
  longest_terminal_prefix steps `prefix_of` steps.*1.
Proof.
  induction steps as [|[name t] steps IH]; cbn [longest_terminal_prefix]; [done|].
  destruct (longest_terminal_prefix steps) as [|n best].
  - destruct t; [|apply prefix_nil].
    cbn. apply prefix_cons, prefix_nil.
  - cbn. by apply prefix_cons.
Qed.

Lemma longest_terminal_prefix_covers steps i name :
  steps !! i = Some (name, true) →
  (i < length (longest_terminal_prefix steps))%nat.
Proof.
  revert i. induction steps as [|[n t] steps IH]; intros i Hi; [done|].
  cbn [longest_terminal_prefix]. destruct i as [|i].
  - injection Hi as -> ->.
    destruct (longest_terminal_prefix steps); cbn; lia.
  - apply IH in Hi.
    destruct (longest_terminal_prefix steps); cbn in *; lia.
Qed.

Lemma longest_terminal_prefix_last steps :
  longest_terminal_prefix steps ≠ [] →
  ∃ name, steps !! (length (longest_terminal_prefix steps) - 1)%nat
          = Some (name, true).
Proof.
  induction steps as [|[n t] steps IH]; cbn [longest_terminal_prefix]; [done|].
  destruct (longest_terminal_prefix steps) as [|n' best] eqn:Hbest.
  - destruct t; [|done]. intros _. by exists n.
  - intros _. destruct IH as [name Hname]; [done|].
    exists name. cbn in *. by rewrite Nat.sub_0_r in *.
Qed.

(** What one call returns, in terms of the walk. *)
Lemma is_fusable_walk_steps node data rules check_node_quantized
    use_original_name graph :
  is_fusable node data (Some rules) check_node_quantized use_original_name graph =
    if check_node_quantized && negb (quantized node) then Ok (false, data)
    else
      steps ← walk_steps graph use_original_name (consumed data)
                (RuleDict rules) node;
      let best := longest_terminal_prefix steps in
      if decide (best = []) then Ok (false, data)
      else Ok (true, {| quant_list := quant_list data ++ [reverse best];
                        consumed := consumed data ∪ list_to_set (reverse best) |}).
Proof.
  unfold is_fusable.
  destruct (check_node_quantized && negb (quantized node)); [done|].
  rewrite fusable_walk_steps.
  destruct (walk_steps _ _ _ _ _) as [steps|e]; [|done].
  cbn [mbind result_bind].
  destruct (longest_terminal_prefix steps) as [|name best] eqn:Hbest.
  - by rewrite decide_False, decide_True by (cbn; lia || done).
  - rewrite app_nil_l.
    by rewrite decide_True, decide_False by (cbn; lia || done).
Qed.

Lemma is_fusable_invariant node data rules check_node_quantized
    use_original_name graph found data' :
  is_fusable node data rules check_node_quantized use_original_name graph
    = Ok (found, data') →
  chains_disjoint (quant_list data) → chains_consumed data →
  chains_disjoint (quant_list data') ∧ chains_consumed data'.
Proof.
  destruct rules as [rules|]; [|by intros [= <- <-]].
  rewrite is_fusable_walk_steps.
  destruct (check_node_quantized && negb (quantized node));
    [by intros [= <- <-]|].
  destruct (walk_steps _ _ _ _ _) as [steps|e] eqn:Hsteps; [|done].
  cbn [mbind result_bind]. cbn zeta.
  destruct (decide (longest_terminal_prefix steps = [])); [by intros [= <- <-]|].
  intros [= <- <-] Hdisj Hcons. cbn [quant_list consumed].
  set (best := longest_terminal_prefix steps).
  assert (∀ name, name ∈ reverse best → name ∉ consumed data) as Hfresh.
  { intros name Hin. rewrite elem_of_reverse in Hin.
    eapply walk_steps_not_used; [exact Hsteps|].
    eapply elem_of_prefix; [exact Hin|]. apply longest_terminal_prefix_prefix. }
  split.
  - intros i j ci cj name Hij Hi Hj Hci Hcj.
    apply lookup_snoc_Some in Hi as [[Hi_lt Hi]|[Hi_eq <-]];
      apply lookup_snoc_Some in Hj as [[Hj_lt Hj]|[Hj_eq <-]].
    + by eapply Hdisj.
    + eapply (Hfresh name); [done|].
      eapply (Hcons ci); [|done]. by eapply list_elem_of_lookup_2.
    + eapply (Hfresh name); [done|].
      eapply (Hcons cj); [|done]. by eapply list_elem_of_lookup_2.
    + lia.
  - intros chain name Hchain Hname.
    apply elem_of_app in Hchain as [Hchain|Hchain].
    + apply elem_of_union_l. by eapply Hcons.
    + apply list_elem_of_singleton in Hchain as ->.
      apply elem_of_union_r. by apply elem_of_list_to_set.
Qed.

Lemma fusable_calls_invariant anchors : ∀ data rules check_node_quantized
    use_original_name graph data',
  fusable_calls anchors data rules check_node_quantized use_original_name graph
    = Ok data' →
  chains_disjoint (quant_list data) → chains_consumed data →
  chains_disjoint (quant_list data') ∧ chains_consumed data'.
Proof.
  induction anchors as [|node anchors IH]; intros data rules c u graph data'.
  - by intros [= <-].
  - cbn [fusable_calls].
    destruct (is_fusable node data rules c u graph) as [[found data1]|e] eqn:H1;
      [|done].
    cbn [mbind result_bind]. intros Hrest Hdisj Hcons.
    destruct (is_fusable_invariant _ _ _ _ _ _ _ _ H1 Hdisj Hcons).
    by eapply IH.
Qed.

(** ** The quantization propagator *)

Lemma set_quantized_id node : set_quantized (quantized node) node = node.
Proof. by destruct node. Qed.

Lemma with_flags_lookup flags any graph name :
  nodes_map (with_flags flags any graph) !! name =
    (λ node, set_quantized (default (quantized node) (flags !! name)) node)
      <$> nodes_map graph !! name.
Proof.
  cbn [with_flags nodes_map]. rewrite map_lookup_imap.
  by destruct (nodes_map graph !! name).
Qed.

Lemma with_flags_empty graph :
  with_flags ∅ (graph_quantized graph) graph = graph.
Proof.
  destruct graph as [nodes fwd ins outs consts gq names].
  unfold with_flags. cbn. f_equal.
  apply map_eq. intros name. rewrite map_lookup_imap.
  destruct (nodes !! name) as [node|]; [|done].
  cbn. rewrite lookup_empty. cbn. by rewrite set_quantized_id.
Qed.

Lemma set_node_quantized_with_flags name q flags any graph :
  set_node_quantized name q (with_flags flags any graph) =
    with_flags (<[name := q]> flags) any graph.
Proof.
  unfold set_node_quantized, with_flags. cbn. f_equal.
  apply map_eq. intros n. rewrite lookup_alter, !map_lookup_imap.
  destruct (decide (name = n)) as [->|Hne].
  - rewrite lookup_insert_eq.
    by destruct (nodes_map graph !! n).
  - by rewrite lookup_insert_ne.
Qed.

Lemma with_flags_with_flags flags any flags' any' graph :
  with_flags flags' any' (with_flags flags any graph) =
    with_flags (flags' ∪ flags) any' graph.
Proof.
  unfold with_flags. cbn. f_equal.
  apply map_eq. intros n. rewrite !map_lookup_imap.
  destruct (nodes_map graph !! n) as [node|]; [|done].
  cbn. rewrite lookup_union.
  by destruct (flags' !! n), (flags !! n).
Qed.

(** The loop on the graph is the loop on the writes. *)
Lemma analysis_round_writes graph w :
  analysis_round (state_of_writes graph w) =
    state_of_writes graph (writes_round graph w).
Proof.
  destruct w as [queue seen flags any].
  unfold analysis_round, writes_round, state_of_writes.
  cbn [qat_analysis_queue visited analysed_graph
       fw_queue fw_visited fw_flags fw_any].
  destruct queue as [|[name q] rest]; [done|].
  assert ((if negb (graph_quantized (with_flags flags any graph))
           then set_graph_quantized
                  ((graph_quantized (with_flags flags any graph)) || q)
                  (with_flags flags any graph)
           else with_flags flags any graph)
          = with_flags flags (any || q) graph) as ->.
  { cbn [with_flags graph_quantized]. by destruct any. }
  unfold qat_analysis. cbn [qat_analysis_queue visited analysed_graph].
  destruct (decide (name ∈ seen)); [done|].
  change (output_nodes (with_flags flags (any || q) graph))
    with (output_nodes graph).
  destruct (decide (name ∈ output_nodes graph)); [done|].
  rewrite with_flags_lookup.
  destruct (nodes_map graph !! name) as [node|]; [|done].
  cbn [fmap option_fmap option_map fw_queue fw_visited fw_flags fw_any].
  by rewrite set_node_quantized_with_flags.
Qed.

Lemma analysis_loop_writes graph rounds : ∀ w,
  analysis_loop rounds (state_of_writes graph w) =
    state_of_writes graph (writes_loop graph rounds w).
Proof.
  induction rounds as [|rounds IH]; intros w; [done|].
  cbn [analysis_loop writes_loop].
  change (qat_analysis_queue (state_of_writes graph w)) with (fw_queue w).
  destruct (fw_queue w) eqn:Hq; [done|].
  by rewrite analysis_round_writes, IH.
Qed.

(** Writes made on top of earlier writes are the same writes. *)
Lemma writes_round_over graph flags any w :
  writes_round graph (writes_over flags any w) =
    writes_over flags any (writes_round graph w).
Proof.
  destruct w as [queue seen flags0 any0].
  unfold writes_round, writes_over.
  cbn [fw_queue fw_visited fw_flags fw_any].
  destruct queue as [|[name q] rest]; [done|].
  rewrite <-orb_assoc.
  destruct (decide (name ∈ seen)); [done|].
  destruct (decide (name ∈ output_nodes graph)); [done|].
  destruct (nodes_map graph !! name) as [node|]; [|done].
  cbn [fw_queue fw_visited fw_flags fw_any].
  by rewrite insert_union_l.
Qed.

Lemma writes_loop_over graph flags any rounds : ∀ w,
  writes_loop graph rounds (writes_over flags any w) =
    writes_over flags any (writes_loop graph rounds w).
Proof.
  induction rounds as [|rounds IH]; intros w; [done|].
  cbn [writes_loop].
  change (fw_queue (writes_over flags any w)) with (fw_queue w).
  destruct (fw_queue w) eqn:Hq; [done|].
  by rewrite writes_round_over, IH.
Qed.

(** *** Termination of the loop *)

Lemma sum_list_with_remove (f : string → nat) (X : gset string) n :
  n ∈ X →
  sum_list_with f (elements X) = (f n + sum_list_with f (elements (X ∖ {[n]})))%nat.
Proof.
  intros Hn. rewrite (union_difference_singleton_L n X Hn) at 1.
  rewrite elements_disj_union by set_solver.
  by rewrite elements_singleton.
Qed.

Lemma sum_list_with_remove_le (f : string → nat) (X : gset string) n :
  (sum_list_with f (elements (X ∖ {[n]})) ≤ sum_list_with f (elements X))%nat.
Proof.
  destruct (decide (n ∈ X)) as [Hn|Hn].
  - rewrite (sum_list_with_remove f X n Hn). lia.
  - by replace (X ∖ {[n]}) with X by set_solver.
Qed.

Lemma writes_round_measure graph w :
  fw_queue w ≠ [] →
  (writes_measure graph (writes_round graph w) < writes_measure graph w)%nat.
Proof.
  destruct w as [queue seen flags any].
  unfold writes_measure, writes_round. cbn [fw_queue fw_visited fw_flags fw_any].
  destruct queue as [|[name q] rest]; [done|]. intros _.
  assert (∀ X : gset string, X ∖ ({[name]} ∪ seen) = X ∖ seen ∖ {[name]}) as Hdiff
    by set_solver.
  pose proof (sum_list_with_remove_le (out_degree graph)
                (dom (nodes_map graph) ∖ seen) name) as Hle.
  destruct (decide (name ∈ seen)).
  { cbn [fw_queue fw_visited length]. lia. }
  destruct (decide (name ∈ output_nodes graph)).
  { cbn [fw_queue fw_visited length]. rewrite Hdiff. lia. }
  destruct (nodes_map graph !! name) as [node|] eqn:Hnode.
  - cbn [fw_queue fw_visited]. rewrite Hdiff.
    rewrite (sum_list_with_remove (out_degree graph)
               (dom (nodes_map graph) ∖ seen) name).
    2:{ apply elem_of_difference. split; [|done]. by apply elem_of_dom. }
    rewrite length_app, length_fmap. cbn [length].
    unfold out_degree at 2. rewrite Hnode. cbn [from_option]. lia.
  - cbn [fw_queue fw_visited length]. rewrite Hdiff. lia.
Qed.

Lemma writes_loop_done graph rounds : ∀ w,
  (writes_measure graph w ≤ rounds)%nat →
  fw_queue (writes_loop graph rounds w) = [].
Proof.
  induction rounds as [|rounds IH]; intros w Hw.
  - cbn [writes_loop]. unfold writes_measure in Hw.
    destruct (fw_queue w); [done|cbn in Hw; lia].
  - cbn [writes_loop]. destruct (fw_queue w) eqn:Hq; [done|].
    apply IH.
    pose proof (writes_round_measure graph w) as Hlt.
    rewrite Hq in Hlt. specialize (Hlt ltac:(done)). lia.
Qed.

(** *** The invariant of the loop *)

Lemma onward_flag_node_flag node q :
  onward_flag node (node_flag node q) = onward_flag node q.
Proof.
  unfold onward_flag, node_flag.
  by destruct (module_is QuantStub node), (module_is DeQuantStub node).
Qed.

Lemma writes_inv_init graph seeds :
  writes_inv graph seeds (mkFlagWrites seeds ∅ ∅ false).
Proof.
  split; unfold arrives_w; cbn [fw_queue fw_visited fw_flags fw_any].
  - intros n. rewrite lookup_empty. split.
    + by intros [? ?].
    + intros [Hn _]. set_solver.
  - intros n flag. by rewrite lookup_empty.
  - intros n q Hq. by left.
  - intros n q [Hq|(m & ? & ? & Hm & _)]; [by right|set_solver].
  - done.
  - intros n [Hq|(m & ? & ? & Hm & _)]; [by right|set_solver].
Qed.

Lemma arrives_w_mono graph seeds w w' n q :
  fw_visited w ⊆ fw_visited w' →
  (∀ m flag, fw_flags w !! m = Some flag → fw_flags w' !! m = Some flag) →
  arrives_w graph seeds w n q → arrives_w graph seeds w' n q.
Proof.
  intros Hseen Hflags [Hseed|(m & node & flag & Hm & Hout & Hnode & Hflag & Hn & ->)].
  - by left.
  - right. exists m, node, flag. split_and!; auto.
Qed.

(** A round that does not expand its node: the pair is dropped, the node is
    marked at most. *)
Lemma writes_inv_skip graph seeds name q rest seen seen' flags any :
  writes_inv graph seeds (mkFlagWrites ((name, q) :: rest) seen flags any) →
  seen ⊆ seen' → seen' ⊆ {[name]} ∪ seen → name ∈ seen' →
  (name ∈ seen ∨ name ∈ output_nodes graph ∨ nodes_map graph !! name = None) →
  writes_inv graph seeds (mkFlagWrites rest seen' flags (any || q)).
Proof.
  intros [Hdom Hflag Hqueue Hpending Hsound Hcomplete] Hsub Hsub' Hname Hskip.
  cbn [fw_queue fw_visited fw_flags fw_any] in *.
  set (w := mkFlagWrites ((name, q) :: rest) seen flags any) in *.
  set (w' := mkFlagWrites rest seen' flags (any || q)).
  assert (∀ n q', arrives_w graph seeds w n q' → arrives_w graph seeds w' n q')
    as Hmono by (intros n q'; by apply arrives_w_mono).
  assert (∀ n q', arrives_w graph seeds w' n q' → arrives_w graph seeds w n q')
    as Hback.
  { intros n q' [Hseed|(m & node & flag & Hm & Hout & Hnode & Hfl & Hn & ->)];
      [by left|].
    right. exists m, node, flag. split_and!; auto.
    apply (Hdom m). by exists flag. }
  subst w w'. split; cbn [fw_queue fw_visited fw_flags fw_any].
  - intros n. rewrite Hdom. split.
    + intros (Hn & ? & ?). split_and!; auto.
    + intros (Hn & Hout & Hsome). split_and!; auto.
      apply Hsub' in Hn. apply elem_of_union in Hn as [Hn|Hn]; [|done].
      apply elem_of_singleton in Hn as ->.
      destruct Hskip as [?|[?|Hnone]]; [done..|].
      rewrite Hnone in Hsome. by destruct Hsome.
  - intros n flag Hn. destruct (Hflag n flag Hn) as (node & q' & ? & ? & ?).
    exists node, q'. split_and!; auto.
  - intros n q' Hin. apply Hmono, Hqueue. by right.
  - intros n q' Harr. apply Hback, Hpending in Harr as [Hn|Hin]; [left; auto|].
    apply elem_of_cons in Hin as [[= -> ->]|Hin]; [by left|by right].
  - intros Hany. apply orb_true_iff in Hany as [Hany| ->].
    + destruct (Hsound Hany) as [n Hn]. exists n. by apply Hmono.
    + exists name. apply Hmono, Hqueue. by left.
  - intros n Harr. apply Hback, Hcomplete in Harr as [->|Hin]; [by left|].
    apply elem_of_cons in Hin as [[= -> <-]|Hin]; [|by right].
    left. apply orb_true_r.
Qed.

(** A round that expands its node. *)
Lemma writes_inv_expand graph seeds name q rest seen flags any node :
  writes_inv graph seeds (mkFlagWrites ((name, q) :: rest) seen flags any) →
  name ∉ seen → name ∉ output_nodes graph →
  nodes_map graph !! name = Some node →
  writes_inv graph seeds
    (mkFlagWrites (rest ++ ((λ n, (n, onward_flag node q)) <$> next_nodes node))
                  ({[name]} ∪ seen)
                  (<[name := node_flag node q]> flags)
                  (any || q)).
Proof.
  intros [Hdom Hflag Hqueue Hpending Hsound Hcomplete] Hfresh Hout Hnode.
  cbn [fw_queue fw_visited fw_flags fw_any] in *.
  set (w := mkFlagWrites ((name, q) :: rest) seen flags any) in *.
  set (w' := mkFlagWrites _ _ _ _).
  assert (flags !! name = None) as Hnone.
  { apply eq_None_not_Some. intros Hsome. apply Hdom in Hsome as [? _]. done. }
  assert (∀ n q', arrives_w graph seeds w n q' → arrives_w graph seeds w' n q')
    as Hmono.
  { intros n q'. apply arrives_w_mono; unfold w, w'; cbn [fw_visited fw_flags].
    - set_solver.
    - intros m flag Hm. rewrite lookup_insert_ne; [done|]. congruence. }
  assert (∀ n, n ∈ next_nodes node →
               arrives_w graph seeds w' n (onward_flag node q)) as Hnew.
  { intros n Hn. right. exists name, node, (node_flag node q).
    unfold w'. cbn [fw_visited fw_flags]. rewrite lookup_insert_eq.
    split_and!; auto using onward_flag_node_flag. set_solver. }
  assert (∀ n q', arrives_w graph seeds w' n q' →
            arrives_w graph seeds w n q'
            ∨ (n ∈ next_nodes node ∧ q' = onward_flag node q)) as Hback.
  { intros n q' [Hseed|(m & node' & flag & Hm & Hout' & Hnode' & Hfl & Hn & ->)];
      [by left; left|].
    unfold w' in Hm, Hfl. cbn [fw_visited fw_flags] in Hm, Hfl.
    destruct (decide (m = name)) as [->|Hne].
    - rewrite lookup_insert_eq in Hfl. injection Hfl as <-.
      rewrite Hnode in Hnode'. injection Hnode' as <-.
      right. by rewrite onward_flag_node_flag.
    - rewrite lookup_insert_ne in Hfl by done.
      left. right. exists m, node', flag. split_and!; auto.
      apply (Hdom m). by exists flag. }
  subst w w'. split; cbn [fw_queue fw_visited fw_flags fw_any].
  - intros n. destruct (decide (n = name)) as [->|Hne].
    + rewrite lookup_insert_eq. split; [|by eauto].
      intros _. split_and!; [set_solver|done|by eauto].
    + rewrite lookup_insert_ne, Hdom by done. set_solver.
  - intros n flag. destruct (decide (n = name)) as [->|Hne].
    + rewrite lookup_insert_eq. intros [= <-].
      exists node, q. split_and!; auto. apply Hmono, Hqueue. by left.
    + rewrite lookup_insert_ne by done. intros Hn.
      destruct (Hflag n flag Hn) as (node' & q' & ? & ? & ?).
      exists node', q'. split_and!; auto.
  - intros n q' Hin. apply elem_of_app in Hin as [Hin|Hin].
    + apply Hmono, Hqueue. by right.
    + apply list_elem_of_fmap in Hin as (n' & [= -> ->] & Hn'). by apply Hnew.
  - intros n q' Harr. apply Hback in Harr as [Harr|[Hn ->]].
    + apply Hpending in Harr as [Hn|Hin]; [left; set_solver|].
      apply elem_of_cons in Hin as [[= -> ->]|Hin]; [left; set_solver|].
      right. apply elem_of_app. by left.
    + right. apply elem_of_app. right.
      apply list_elem_of_fmap. by exists n.
  - intros Hany. apply orb_true_iff in Hany as [Hany| ->].
    + destruct (Hsound Hany) as [n Hn]. exists n. by apply Hmono.
    + exists name. apply Hmono, Hqueue. by left.
  - intros n Harr. apply Hback in Harr as [Harr|[Hn Heq]].
    + apply Hcomplete in Harr as [->|Hin]; [by left|].
      apply elem_of_cons in Hin as [[= -> <-]|Hin].
      * left. apply orb_true_r.
      * right. apply elem_of_app. by left.
    + right. apply elem_of_app. right.
      apply list_elem_of_fmap. exists n. by rewrite <-Heq.
Qed.

Lemma writes_round_inv graph seeds w :
  writes_inv graph seeds w → writes_inv graph seeds (writes_round graph w).
Proof.
  destruct w as [queue seen flags any]. intros Hinv.
  unfold writes_round. cbn [fw_queue fw_visited fw_flags fw_any].
  destruct queue as [|[name q] rest]; [done|].
  destruct (decide (name ∈ seen)).
  { eapply writes_inv_skip; [done|set_solver..|by left]. }
  destruct (decide (name ∈ output_nodes graph)).
  { eapply writes_inv_skip; [done|set_solver..|by right; left]. }
  destruct (nodes_map graph !! name) as [node|] eqn:Hnode.
  - by apply writes_inv_expand.
  - eapply writes_inv_skip; [done|set_solver..|by right; right].
Qed.

Lemma writes_loop_inv graph seeds rounds : ∀ w,
  writes_inv graph seeds w → writes_inv graph seeds (writes_loop graph rounds w).
Proof.
  induction rounds as [|rounds IH]; intros w Hinv; [done|].
  cbn [writes_loop]. destruct (fw_queue w); [done|].
  by apply IH, writes_round_inv.
Qed.

(** *** The run on a graph and the run on the writes *)

Lemma out_degree_with_flags flags any graph name :
  out_degree (with_flags flags any graph) name = out_degree graph name.
Proof.
  unfold out_degree. rewrite with_flags_lookup.
  by destruct (nodes_map graph !! name).
Qed.

Lemma dom_with_flags flags any graph :
  dom (nodes_map (with_flags flags any graph)) = dom (nodes_map graph).
Proof.
  apply set_eq. intros name. rewrite !elem_of_dom, with_flags_lookup.
  by rewrite fmap_is_Some.
Qed.

Lemma analysis_rounds_with_flags flags any graph seeds :
  analysis_rounds (with_flags flags any graph) seeds = analysis_rounds graph seeds.
Proof.
  unfold analysis_rounds. rewrite dom_with_flags. f_equal.
  induction (elements (dom (nodes_map graph))) as [|n l IH]; [done|].
  cbn [sum_list_with]. by rewrite IH, out_degree_with_flags.
Qed.

Lemma filter_forward_nodes_with_flags pred flags any graph :
  (∀ node q, pred (set_quantized q node) = pred node) →
  filter_forward_nodes pred (with_flags flags any graph) =
    filter_forward_nodes pred graph.
Proof.
  intros Hpred. unfold filter_forward_nodes.
  change (forward_nodes (with_flags flags any graph)) with (forward_nodes graph).
  induction (forward_nodes graph) as [|n l IH]; [done|].
  rewrite !filter_cons, IH, with_flags_lookup.
  destruct (nodes_map graph !! n) as [node|]; [|done].
  cbn [fmap option_fmap option_map from_option]. by rewrite Hpred.
Qed.

Lemma constant_seeds_with_flags flags any graph names :
  constant_seeds (with_flags flags any graph) names = constant_seeds graph names.
Proof.
  induction names as [|n names IH]; [done|].
  cbn [constant_seeds]. rewrite IH, with_flags_lookup.
  by destruct (nodes_map graph !! n).
Qed.

Lemma analysis_seeds_with_flags flags any graph is_input_quantized names :
  analysis_seeds (with_flags flags any graph) is_input_quantized names =
    analysis_seeds graph is_input_quantized names.
Proof.
  unfold analysis_seeds.
  rewrite constant_seeds_with_flags, filter_forward_nodes_with_flags by done.
  done.
Qed.

Lemma run_analysis_with_flags flags any graph seeds :
  run_analysis (with_flags flags any graph) seeds =
    state_of_writes graph
      (writes_over flags any
         (writes_loop graph (analysis_rounds graph seeds) (initial_writes seeds))).
Proof.
  unfold run_analysis. rewrite analysis_rounds_with_flags.
  rewrite <-writes_loop_over, <-analysis_loop_writes.
  unfold state_of_writes, writes_over, initial_writes.
  cbn [fw_queue fw_visited fw_flags fw_any].
  by rewrite (left_id_L ∅ (∪)), orb_false_r.
Qed.

Lemma run_analysis_writes graph seeds :
  run_analysis graph seeds =
    state_of_writes graph
      (writes_over ∅ (graph_quantized graph)
         (writes_loop graph (analysis_rounds graph seeds) (initial_writes seeds))).
Proof.
  by rewrite <-run_analysis_with_flags, with_flags_empty.
Qed.

Lemma writes_loop_final graph seeds :
  let w := writes_loop graph (analysis_rounds graph seeds) (initial_writes seeds) in
  fw_queue w = [] ∧ writes_inv graph seeds w.
Proof.
  split.
  - apply writes_loop_done. unfold writes_measure, analysis_rounds, initial_writes.
    cbn [fw_queue fw_visited]. by rewrite difference_empty_L.
  - apply writes_loop_inv, writes_inv_init.
Qed.

(** Only nodes the seeds reach are ever queued or marked. *)
Lemma writes_round_reached graph seeds w :
  (∀ n, n ∈ fw_visited w → reached graph seeds n) →
  (∀ n q, (n, q) ∈ fw_queue w → reached graph seeds n) →
  (∀ n, n ∈ fw_visited (writes_round graph w) → reached graph seeds n)
  ∧ (∀ n q, (n, q) ∈ fw_queue (writes_round graph w) → reached graph seeds n).
Proof.
  destruct w as [queue seen flags any]. intros Hseen Hqueue.
  unfold writes_round. cbn [fw_queue fw_visited fw_flags fw_any] in *.
  destruct queue as [|[name q] rest]; [done|].
  assert (reached graph seeds name) as Hname.
  { apply (Hqueue name q). by left. }
  assert (∀ n q', (n, q') ∈ rest → reached graph seeds n) as Hrest.
  { intros n q' Hin. apply (Hqueue n q'). by right. }
  assert (∀ n, n ∈ {[name]} ∪ seen → reached graph seeds n) as Hseen'.
  { intros n Hn. apply elem_of_union in Hn as [Hn|Hn]; [|by apply Hseen].
    by apply elem_of_singleton in Hn as ->. }
  destruct (decide (name ∈ seen)) as [Hin|Hfresh]; [done|].
  destruct (decide (name ∈ output_nodes graph)) as [Hout|Hinner]; [done|].
  destruct (nodes_map graph !! name) as [node|] eqn:Hnode; [|done].
  cbn [fw_queue fw_visited]. split; [done|].
  intros m q' Hm. apply elem_of_app in Hm as [Hm|Hm]; [by eapply Hrest|].
  apply list_elem_of_fmap in Hm as (m' & [= -> ->] & Hm').
  by eapply reached_next.
Qed.

Lemma writes_loop_reached graph seeds rounds : ∀ w,
  (∀ n, n ∈ fw_visited w → reached graph seeds n) →
  (∀ n q, (n, q) ∈ fw_queue w → reached graph seeds n) →
  ∀ n, n ∈ fw_visited (writes_loop graph rounds w) → reached graph seeds n.
Proof.
  induction rounds as [|rounds IH]; intros w Hseen Hqueue; [done|].
  destruct (writes_round_reached graph seeds w Hseen Hqueue) as [Hseen' Hqueue'].
  cbn [writes_loop]. destruct (fw_queue w); [done|]. by apply IH.
Qed.

(** Once the queue is empty every node the analysis can reach is marked. *)
Lemma reached_visited graph seeds w n :
  writes_inv graph seeds w → fw_queue w = [] →
  reached graph seeds n → n ∈ fw_visited w.
Proof.
  intros Hinv Hq Hn.
  assert (∀ n q, arrives_w graph seeds w n q → n ∈ fw_visited w) as Harr.
  { intros n' q' Harr. apply (inv_pending _ _ _ Hinv) in Harr as [?|Hin]; [done|].
    rewrite Hq in Hin. by apply elem_of_nil in Hin. }
  induction Hn as [n q Hseed|m node n Hm IH Hout Hnode Hn].
  - apply (Harr n q). by left.
  - assert (is_Some (fw_flags w !! m)) as [flag Hflag].
    { apply (inv_dom _ _ _ Hinv). split_and!; by eauto. }
    apply (Harr n (onward_flag node flag)). right.
    exists m, node, flag. split_and!; auto.
Qed.

Lemma arrives_of_writes graph seeds w any n q :
  arrives_w graph seeds w n q →
  arrives (with_flags (fw_flags w ∪ ∅) any graph) seeds (fw_visited w) n q.
Proof.
  intros [Hseed|(m & node & flag & Hm & Hout & Hnode & Hflag & Hn & ->)];
    [by left|].
  right. exists m, (set_quantized flag node), flag.
  rewrite with_flags_lookup, Hnode, (right_id_L ∅ (∪)), Hflag.
  split_and!; auto.
Qed.

Lemma writes_of_arrives graph seeds w any n q :
  writes_inv graph seeds w →
  arrives (with_flags (fw_flags w ∪ ∅) any graph) seeds (fw_visited w) n q →
  arrives_w graph seeds w n q.
Proof.
  intros Hinv [Hseed|(m & node' & flag & Hm & Hout & Hnode & Hflag & Hn & ->)];
    [by left|].
  cbn [with_flags output_nodes] in Hout.
  rewrite with_flags_lookup, (right_id_L ∅ (∪)) in Hnode.
  destruct (nodes_map graph !! m) as [node|] eqn:Hnode0; [|done].
  injection Hnode as <-.
  assert (is_Some (fw_flags w !! m)) as [flag' Hflag'].
  { apply (inv_dom _ _ _ Hinv). split_and!; by eauto. }
  rewrite Hflag' in Hflag, Hn. cbn in Hflag, Hn. subst flag'.
  right. exists m, node, flag. split_and!; auto.
Qed.

(** *** What the analysis leaves behind *)

(** C1 (as the code has it).  The analysis ends with an empty queue and
    marks the nodes the seeds reach and no others.  Every marked node that is not an
    output node carries the flag of its kind for a flag [q] that arrived at
    it: [True] for a QuantStub and for a DeQuantStub, [q] itself otherwise;
    what it passes on is [True] after a QuantStub, [False] after a
    DeQuantStub and its own flag otherwise.  Output nodes, like the nodes
    never marked, keep the flag they had.  The graph flag ends set exactly
    when it was set before or a set flag was put on the queue. *)
Theorem propagate_flags graph is_input_quantized creation_func_names st :
  prepare_qat_prep graph is_input_quantized creation_func_names = Ok st →
  ∃ seeds,
    analysis_seeds graph is_input_quantized creation_func_names = Ok seeds
    ∧ qat_analysis_queue st = []
    ∧ (∀ n, reached graph seeds n ↔ n ∈ visited st)
    ∧ (∀ n node,
         n ∈ visited st → n ∉ output_nodes graph →
         nodes_map graph !! n = Some node →
         ∃ q, arrives (analysed_graph st) seeds (visited st) n q
              ∧ node_quantized (analysed_graph st) n = Some (node_flag node q))
    ∧ (∀ n, n ∉ visited st ∨ n ∈ output_nodes graph →
            node_quantized (analysed_graph st) n = node_quantized graph n)
    ∧ (graph_quantized (analysed_graph st) = true ↔
       graph_quantized graph = true
       ∨ ∃ n, arrives (analysed_graph st) seeds (visited st) n true).
Proof.
  unfold prepare_qat_prep.
  destruct (analysis_seeds _ _ _) as [seeds|e]; [|done].
  cbn [mbind result_bind]. intros [= <-]. exists seeds. split; [done|].
  rewrite run_analysis_writes.
  destruct (writes_loop_final graph seeds) as [Hq Hinv].
  set (w := writes_loop graph (analysis_rounds graph seeds) (initial_writes seeds))
    in *.
  unfold state_of_writes, writes_over.
  cbn [qat_analysis_queue visited analysed_graph
       fw_queue fw_visited fw_flags fw_any].
  assert (∀ n q, arrives_w graph seeds w n q → (n, q) ∉ fw_queue w) as Hempty.
  { intros n q _. rewrite Hq. apply not_elem_of_nil. }
  split_and!.
  - done.
  - intros n. split; [by apply reached_visited|].
    apply writes_loop_reached; cbn [initial_writes fw_visited fw_queue].
    + intros n' Hn'. by apply elem_of_empty in Hn'.
    + intros n' q Hin. by eapply reached_seed.
  - intros n node Hn Hout Hnode.
    assert (is_Some (fw_flags w !! n)) as [flag Hflag].
    { apply (inv_dom _ _ _ Hinv). split_and!; by eauto. }
    destruct (inv_flag _ _ _ Hinv n flag Hflag) as (node' & q & Hnode' & Harr & ->).
    assert (node' = node) as -> by congruence.
    exists q. split; [by apply arrives_of_writes|].
    unfold node_quantized.
    rewrite with_flags_lookup, Hnode, (right_id_L ∅ (∪)), Hflag. done.
  - intros n Hn. unfold node_quantized.
    rewrite with_flags_lookup, (right_id_L ∅ (∪)).
    assert (fw_flags w !! n = None) as ->.
    { apply eq_None_not_Some. intros Hsome.
      apply (inv_dom _ _ _ Hinv) in Hsome as (? & ? & _). by destruct Hn. }
    by destruct (nodes_map graph !! n).
  - change (graph_quantized (with_flags ?f ?a ?g)) with a.
    rewrite orb_true_iff. split.
    + intros [?|Hany]; [by left|]. right.
      destruct (inv_any_sound _ _ _ Hinv Hany) as [n Hn].
      exists n. by apply arrives_of_writes.
    + intros [?|[n Hn]]; [by left|]. right.
      apply writes_of_arrives in Hn; [|done].
      destruct (inv_any_complete _ _ _ Hinv n Hn) as [?|Hin]; [done|].
      by apply Hempty in Hin.
Qed.

(** C9.  Running the analysis again on the graph it has produced, with the
    same seeding, leaves every [quantized] attribute as the first run set
    it: the second run ends in the very state of the first. *)
Theorem propagate_deterministic graph is_input_quantized creation_func_names st :
  prepare_qat_prep graph is_input_quantized creation_func_names = Ok st →
  ∃ st',
    prepare_qat_prep (analysed_graph st) is_input_quantized creation_func_names = Ok st'
    ∧ st' = st
    ∧ (∀ n, node_quantized (analysed_graph st') n
            = node_quantized (analysed_graph st) n)
    ∧ graph_quantized (analysed_graph st') = graph_quantized (analysed_graph st).
Proof.
  unfold prepare_qat_prep.
  destruct (analysis_seeds graph _ _) as [seeds|e] eqn:Hseeds; [|done].
  cbn [mbind result_bind]. intros [= <-].
  exists (run_analysis graph seeds). split_and!; [|done..].
  rewrite run_analysis_writes.
  set (w := writes_loop graph (analysis_rounds graph seeds) (initial_writes seeds)).
  change (analysed_graph
            (state_of_writes graph (writes_over ∅ (graph_quantized graph) w)))
    with (with_flags (fw_flags w ∪ ∅) (graph_quantized graph || fw_any w) graph).
  rewrite analysis_seeds_with_flags, Hseeds. cbn [mbind result_bind].
  f_equal. rewrite run_analysis_with_flags. fold w.
  unfold state_of_writes, writes_over.
  cbn [fw_queue fw_visited fw_flags fw_any]. f_equal. f_equal.
  - by rewrite (assoc_L (∪)), (idemp_L (∪)).
  - by destruct (graph_quantized graph), (fw_any w).
Qed.

Lemma propagate_flags_witness :
  prepare_qat_prep example_graph None [] = Ok example_analysis
  ∧ ∃ seeds,
      analysis_seeds example_graph None [] = Ok seeds
      ∧ qat_analysis_queue example_analysis = []
      ∧ (∀ n, reached example_graph seeds n ↔ n ∈ visited example_analysis)
      ∧ (∀ n node,
           n ∈ visited example_analysis → n ∉ output_nodes example_graph →
           nodes_map example_graph !! n = Some node →
           ∃ q, arrives (analysed_graph example_analysis) seeds
                        (visited example_analysis) n q
                ∧ node_quantized (analysed_graph example_analysis) n
                  = Some (node_flag node q))
      ∧ (∀ n, n ∉ visited example_analysis ∨ n ∈ output_nodes example_graph →
              node_quantized (analysed_graph example_analysis) n
              = node_quantized example_graph n)
      ∧ (graph_quantized (analysed_graph example_analysis) = true ↔
         graph_quantized example_graph = true
         ∨ ∃ n, arrives (analysed_graph example_analysis) seeds
                        (visited example_analysis) n true).
Proof.
  assert (prepare_qat_prep example_graph None [] = Ok example_analysis) as Hrun
    by (vm_compute; reflexivity).
  split; [exact Hrun|].
  exact (propagate_flags example_graph None [] example_analysis Hrun).
Defined.

(** The flags of the example: quantized from the QuantStub up to and
    including the DeQuantStub, the output node left alone. *)
Example example_analysis_flags :
  (λ n, node_quantized (analysed_graph example_analysis) n)
    <$> forward_nodes example_graph
  = [Some false; Some true; Some true; Some true; Some true; Some true;
     Some true; Some true; Some false]
  ∧ graph_quantized (analysed_graph example_analysis) = true.
Proof. by vm_compute. Qed.

Lemma propagate_deterministic_witness :
  prepare_qat_prep example_graph None [] = Ok example_analysis
  ∧ ∃ st',
      prepare_qat_prep (analysed_graph example_analysis) None [] = Ok st'
      ∧ st' = example_analysis
      ∧ (∀ n, node_quantized (analysed_graph st') n
              = node_quantized (analysed_graph example_analysis) n)
      ∧ graph_quantized (analysed_graph st')
        = graph_quantized (analysed_graph example_analysis).
Proof.
  assert (prepare_qat_prep example_graph None [] = Ok example_analysis) as Hrun
    by (vm_compute; reflexivity).
  split; [exact Hrun|].
  exact (propagate_deterministic example_graph None [] example_analysis Hrun).
Defined.


(** C1, the output node.  On the graph of an input wired to the output, with
    the input declared quantized, the output node is reached and the flag
    arriving at it is [True], yet its own flag stays [False]: the analysis
    returns at an output node before it assigns. *)
Lemma propagate_skips_output_nodes :
  ¬ flags_on_all_reached example_io_graph (Some [true]) [].
Proof.
  intros Hclaim.
  destruct (Hclaim [("input_0", true)] example_io_analysis) as [Hflags _];
    [by vm_compute..|].
  destruct (Hflags "output_0"
              (example_node "output_0" output_module 1 ["input_0"] []))
    as (q & Harr & Hq).
  { eapply (reached_next _ _ "input_0").
    - eapply reached_seed. by left.
    - compute_done.
    - by vm_compute.
    - by left. }
  { by vm_compute. }
  assert (q = false) as ->.
  { vm_compute in Hq. by destruct q. }
  clear Hq Hflags Hclaim. unfold example_io_analysis in Harr.
  rewrite run_analysis_writes in Harr.
  destruct (writes_loop_final example_io_graph [("input_0", true)]) as [_ Hinv].
  apply writes_of_arrives in Harr; [|exact Hinv]. clear Hinv.
  destruct Harr as [Hseed|(m & node & flag & _ & Hout & Hnode & Hflag & Hn & Hq)].
  { apply list_elem_of_singleton in Hseed. discriminate. }
  apply elem_of_list_to_map_2 in Hnode.
  apply elem_of_cons in Hnode as [[= -> ->]|Hnode].
  - vm_compute in Hflag. injection Hflag as <-. discriminate.
  - apply list_elem_of_singleton in Hnode as [= -> ->].
    apply Hout. by left.
Qed.

(** ** The rule compiler and the fusion matcher: main results *)

(** C4.  For a rule set without the empty tuple the compilation succeeds;
    loading it into the empty cache and loading it again from the cache
    return the same dictionary; a path, read latest consumer first, ends on
    a flagged node exactly when its reverse is a rule; and for the single
    rule [(A, B, C)] the path [C, B, A] reports its flags as
    [False, False, True]. *)
Theorem rule_compilation (rules : list rule) (A B C : optype) :
  Forall (λ r : rule, r ≠ []) rules →
  (∃ trie,
      compile_rules rules = Ok trie
      ∧ load_processed_qat_rules rules [] = Ok (trie, trie)
      ∧ load_processed_qat_rules rules trie = Ok (trie, trie)
      ∧ ∀ p, terminal_at p trie = true ↔ reverse p ∈ rules)
  ∧ (∃ trie,
      compile_rules [[A; B; C]] = Ok trie
      ∧ lookup_flags [C; B; A] trie = [false; false; true]).
Proof.
  intros Hne. split.
  - destruct (compile_loop_terminal (sorted_by_len_desc rules) false [])
      as (trie & Htrie & Hterm).
    { apply Forall_forall. intros r Hr. rewrite elem_of_sorted_by_len_desc in Hr.
      rewrite Forall_forall in Hne. by apply Hne. }
    exists trie. unfold load_processed_qat_rules, compile_rules.
    rewrite Htrie. cbn [mbind result_bind length app].
    split_and!; [done|done| |].
    + destruct (decide (length trie = 0%nat)) as [Hlen|Hlen]; [|done].
      by destruct trie.
    + intros p. rewrite Hterm, elem_of_sorted_by_len_desc.
      assert (terminal_at p [] = false) as -> by (by destruct p).
      naive_solver.
  - exists (insert_rule [C; B; A] []). split; [done|].
    by rewrite lookup_flags_insert_rule_nil.
Qed.

Lemma rule_compilation_witness :
  Forall (λ r : rule, r ≠ []) FUSE_RULE_LIST
  ∧ (∃ trie,
      compile_rules FUSE_RULE_LIST = Ok trie
      ∧ load_processed_qat_rules FUSE_RULE_LIST [] = Ok (trie, trie)
      ∧ load_processed_qat_rules FUSE_RULE_LIST trie = Ok (trie, trie)
      ∧ ∀ p, terminal_at p trie = true ↔ reverse p ∈ FUSE_RULE_LIST)
  ∧ (∃ trie,
      compile_rules [[Conv2d; BatchNorm2d; ReLU]] = Ok trie
      ∧ lookup_flags [ReLU; BatchNorm2d; Conv2d] trie = [false; false; true]).
Proof.
  assert (Forall (λ r : rule, r ≠ []) FUSE_RULE_LIST) as Hne.
  { unfold FUSE_RULE_LIST. repeat (apply Forall_cons; split; [discriminate|]).
    apply Forall_nil_2. }
  split; [exact Hne|].
  exact (rule_compilation FUSE_RULE_LIST Conv2d BatchNorm2d ReLU Hne).
Defined.

(** the compiled table: ReLU and BatchNorm at the root, the flags on the way
    from ReLU back to Conv2d *)
Example example_rules_flags :
  lookup_flags [ReLU; BatchNorm2d; Conv2d] example_rules = [false; true; true]
  ∧ lookup_flags [ReLU; Conv2d] example_rules = [false; true]
  ∧ lookup_flags [BatchNorm2d; Conv2d] example_rules = [false; true]
  ∧ lookup_flags [Conv2d] example_rules = [].
Proof. by vm_compute. Qed.

Lemma filter_all {A} (P : A → Prop) `{!∀ x, Decision (P x)} (l : list A) :
  Forall P l → filter P l = l.
Proof.
  induction 1 as [|x l Hx _ IH]; [done|].
  by rewrite filter_cons_True, IH.
Qed.

Section reached_lemmas.
Context (graph : TraceGraph) (use_original_name : bool) (used : gset string).

Lemma reached_steps_unfold es cur_node :
  reached_steps graph use_original_name used (RuleDict es) cur_node =
    match rd_lookup (node_class cur_node) es with
    | None => Ok []
    | Some (current_state, child) =>
        cur_name ← cur_name_of use_original_name graph cur_node;
        if decide (cur_name ∈ used) then Ok []
        else
          let here := mkStep cur_node cur_name current_state in
          match prev_nodes cur_node with
          | [prev] =>
              match nodes_map graph !! prev with
              | Some prev_node =>
                  rest ← reached_steps graph use_original_name used child prev_node;
                  Ok (here :: rest)
              | None => Raise KeyError
              end
          | _ => Ok [here]
          end
    end.
Proof.
  cbn [reached_steps].
  induction es as [|[k [flag child]] es IH]; [done|].
  cbn [rd_lookup]. by destruct (decide (k = node_class cur_node)).
Qed.

(** The names the loop appends are the steps reached at nodes that have a
    predecessor. *)
Lemma walk_steps_recorded rules : ∀ cur_node,
  walk_steps graph use_original_name used rules cur_node =
    reached ← reached_steps graph use_original_name used rules cur_node;
    Ok (recorded_steps reached).
Proof.
  induction rules as [es IH] using rule_dict_children_ind.
  intros cur_node. rewrite walk_steps_unfold, reached_steps_unfold.
  destruct (rd_lookup (node_class cur_node) es) as [[st child]|] eqn:Hk; [|done].
  destruct (cur_name_of use_original_name graph cur_node) as [cur_name|e]; [|done].
  cbn [mbind result_bind].
  destruct (decide (cur_name ∈ used)); [done|]. cbn zeta.
  unfold recorded_steps.
  destruct (prev_nodes cur_node) as [|prev [|prev' prevs]] eqn:Hprev.
  - rewrite decide_True by done. cbn [mbind result_bind].
    rewrite filter_cons_False by (cbn [step_node]; rewrite Hprev; cbn; lia).
    done.
  - rewrite decide_False by done.
    destruct (nodes_map graph !! prev) as [prev_node|]; [|done].
    rewrite (IH _ _ _ Hk).
    destruct (reached_steps graph use_original_name used child prev_node)
      as [rest|e]; [|done].
    cbn [mbind result_bind].
    rewrite filter_cons_True by (cbn [step_node]; rewrite Hprev; cbn; lia).
    done.
  - rewrite decide_False by done. cbn [mbind result_bind].
    rewrite filter_cons_True by (cbn [step_node]; rewrite Hprev; cbn; lia).
    done.
Qed.

(** A node without predecessors ends the walk: only the last step reached
    can be at one. *)
Lemma reached_steps_source_last rules : ∀ cur_node reached i s,
  reached_steps graph use_original_name used rules cur_node = Ok reached →
  reached !! i = Some s → prev_nodes (step_node s) = [] →
  S i = length reached.
Proof.
  induction rules as [es IH] using rule_dict_children_ind.
  intros cur_node reached i s. rewrite reached_steps_unfold.
  destruct (rd_lookup (node_class cur_node) es) as [[st child]|] eqn:Hk.
  2:{ intros [= <-] Hi. by rewrite lookup_nil in Hi. }
  destruct (cur_name_of use_original_name graph cur_node) as [cur_name|e]; [|done].
  cbn [mbind result_bind].
  destruct (decide (cur_name ∈ used)).
  { intros [= <-] Hi. by rewrite lookup_nil in Hi. }
  cbn zeta.
  assert (∀ l : list step, l = [mkStep cur_node cur_name st] →
            l !! i = Some s → S i = length l) as Hone.
  { intros l -> Hi. destruct i as [|i]; [done|].
    change (([] : list step) !! i = Some s) in Hi. by rewrite lookup_nil in Hi. }
  destruct (prev_nodes cur_node) as [|prev [|prev' prevs]] eqn:Hprev.
  - intros [= <-] Hi _. by apply Hone.
  - destruct (nodes_map graph !! prev) as [prev_node|]; [|done].
    destruct (reached_steps graph use_original_name used child prev_node)
      as [rest|e] eqn:Hrest; [|done].
    cbn [mbind result_bind]. intros [= <-] Hi Hs.
    destruct i as [|i].
    + injection Hi as <-. cbn [step_node] in Hs. congruence.
    + change (rest !! i = Some s) in Hi. cbn [length]. f_equal.
      by eapply IH.
  - intros [= <-] Hi _. by apply Hone.
Qed.
End reached_lemmas.

(** C3.  The loop of [is_fusable] against the walk of the specification:
    of the dictionary nodes the walk reaches the loop records those reached
    at a graph node that has a predecessor, and a node without one, which
    can only be the last reached, ends the walk unrecorded although the
    dictionary node reached there may be terminal.  Among the recorded
    steps the longest match wins: the loop leaves in [final_names] what it
    held on entry unless a recorded step is terminal, and then the whole
    chain up to the last terminal recorded step, so a recorded match is only
    ever replaced by a longer one; that chain is a prefix of the recorded
    steps, ends on a terminal step and reaches past every terminal step;
    the call records it reversed. *)
Theorem longest_match_wins graph use_original_name check_node_quantized
    node data rules :
  (∀ current_rules cur_node names final_names,
     fusable_walk graph use_original_name (consumed data) current_rules
                  cur_node names final_names =
       reached ← reached_steps graph use_original_name (consumed data)
                   current_rules cur_node;
       Ok (match longest_terminal_prefix (recorded_steps reached) with
           | [] => final_names
           | best => names ++ best
           end))
  ∧ (∀ current_rules cur_node reached,
       reached_steps graph use_original_name (consumed data)
                     current_rules cur_node = Ok reached →
       (∀ i s, reached !! i = Some s → prev_nodes (step_node s) = [] →
               S i = length reached)
       ∧ (recorded_steps reached = step_flag <$> reached
          ∨ ∃ front s, reached = front ++ [s]
                       ∧ prev_nodes (step_node s) = []
                       ∧ recorded_steps reached = step_flag <$> front))
  ∧ (∀ steps,
       longest_terminal_prefix steps `prefix_of` steps.*1
       ∧ (∀ i name, steps !! i = Some (name, true) →
                    (i < length (longest_terminal_prefix steps))%nat)
       ∧ (longest_terminal_prefix steps ≠ [] →
          ∃ name, steps !! (length (longest_terminal_prefix steps) - 1)%nat
                  = Some (name, true)))
  ∧ is_fusable node data (Some rules) check_node_quantized use_original_name graph =
      if check_node_quantized && negb (quantized node) then Ok (false, data)
      else
        reached ← reached_steps graph use_original_name (consumed data)
                    (RuleDict rules) node;
        let best := longest_terminal_prefix (recorded_steps reached) in
        if decide (best = []) then Ok (false, data)
        else Ok (true, {| quant_list := quant_list data ++ [reverse best];
                          consumed := consumed data ∪ list_to_set (reverse best) |}).
Proof.
  split_and!.
  - intros. rewrite fusable_walk_steps, walk_steps_recorded.
    by destruct (reached_steps _ _ _ _ _).
  - intros current_rules cur_node reached Hreached.
    assert (∀ i s, reached !! i = Some s → prev_nodes (step_node s) = [] →
                   S i = length reached) as Hlast.
    { intros i s. by eapply reached_steps_source_last. }
    split; [exact Hlast|].
    clear Hreached. unfold recorded_steps.
    destruct reached as [|s0 reached0] using rev_ind; [by left|].
    clear IHreached0.
    assert (filter (λ s, (0 < length (prev_nodes (step_node s)))%nat) reached0
            = reached0) as Hfront.
    { apply filter_all, Forall_lookup. intros i s Hi.
      destruct (prev_nodes (step_node s)) eqn:Hprev; [|cbn; lia].
      assert (S i = length (reached0 ++ [s0])) as Hlen.
      { eapply Hlast; [|done]. by apply lookup_app_l_Some. }
      apply lookup_lt_Some in Hi. rewrite length_app in Hlen. cbn in Hlen. lia. }
    rewrite filter_app, Hfront.
    destruct (decide (0 < length (prev_nodes (step_node s0)))%nat) as [Hs|Hs].
    + left. by rewrite filter_cons_True, filter_nil by done.
    + right. exists reached0, s0. split; [done|].
      rewrite filter_cons_False, filter_nil, app_nil_r by done.
      split; [|done]. destruct (prev_nodes (step_node s0)); [done|].
      cbn in Hs. lia.
  - intros steps. split_and!.
    + apply longest_terminal_prefix_prefix.
    + apply longest_terminal_prefix_covers.
    + apply longest_terminal_prefix_last.
  - rewrite is_fusable_walk_steps, walk_steps_recorded.
    destruct (check_node_quantized && negb (quantized node)); [done|].
    by destruct (reached_steps _ _ _ _ _).
Qed.

(** C3, the node without predecessors.  A ReLU after a convolution that no
    node feeds, matched against the rule table with unique names: the walk
    from the ReLU reaches the dictionary node of (Conv2d, ReLU), which is
    terminal, so the claim has the chain of the two recorded; the loop
    breaks at the convolution before it appends, and the call returns
    [False]. *)
Lemma longest_match_skips_source_nodes :
  ¬ longest_reached_match_returned example_source_graph false false
      example_source_relu {| quant_list := []; consumed := ∅ |} example_rules.
Proof.
  intros Hclaim.
  assert (reached_steps example_source_graph false ∅ (RuleDict example_rules)
            example_source_relu
          = Ok [mkStep example_source_relu "relu_0" false;
                mkStep example_source_conv "conv_0" true]) as Hreached
    by (vm_compute; reflexivity).
  pose proof (Hclaim _ Hreached eq_refl) as Hcall. clear Hclaim Hreached.
  vm_compute in Hcall. discriminate Hcall.
Qed.

(** On that graph the walk from the ReLU records the ReLU alone, which is
    no match, and the call returns [False]. *)
Example example_source_match :
  (λ node, is_fusable node {| quant_list := []; consumed := ∅ |}
             (Some example_rules) false false example_source_graph)
    example_source_relu
  = Ok (false, {| quant_list := []; consumed := ∅ |})
  ∧ (recorded_steps <$>
       reached_steps example_source_graph false ∅ (RuleDict example_rules)
         example_source_relu) = Ok [("relu_0", false)].
Proof. split; vm_compute; reflexivity. Qed.

(** The walk back from the last ReLU of the example: the ReLU alone is no
    match, ReLU after BatchNorm is one, and Conv-BatchNorm-ReLU, the longest,
    is the one recorded. *)
Example example_longest_match :
  walk_steps (analysed_graph example_analysis) true ∅ (RuleDict example_rules)
    <$> nodes_map (analysed_graph example_analysis) !! "relu_0"
  = Some (Ok [("relu1", false); ("bn1", true); ("conv1", true)])
  ∧ (λ node, is_fusable node {| quant_list := []; consumed := ∅ |}
               (Some example_rules) true true (analysed_graph example_analysis))
      <$> nodes_map (analysed_graph example_analysis) !! "relu_0"
    = Some (Ok (true, {| quant_list := [["conv1"; "bn1"; "relu1"]];
                         consumed := list_to_set ["conv1"; "bn1"; "relu1"] |})).
Proof. split; by vm_compute. Qed.

(** C2.  Whatever the graph, the rule dictionary and the nodes the matcher
    is called on, the chains collected in one [custom_data] that started
    empty have no name in common. *)
Theorem fusion_chains_disjoint graph anchors rules check_node_quantized
    use_original_name data :
  fusable_calls anchors {| quant_list := []; consumed := ∅ |} rules
    check_node_quantized use_original_name graph = Ok data →
  ∀ i j ci cj name,
    i ≠ j → quant_list data !! i = Some ci → quant_list data !! j = Some cj →
    name ∈ ci → name ∉ cj.
Proof.
  intros Hcalls.
  eapply fusable_calls_invariant in Hcalls as [Hdisj _]; [exact Hdisj| |].
  - intros i j ci cj name _ Hi. cbn [quant_list] in Hi.
    by rewrite lookup_nil in Hi.
  - intros chain name Hchain. cbn [quant_list] in Hchain.
    by apply elem_of_nil in Hchain.
Qed.

Lemma fusion_chains_disjoint_witness :
  fusable_calls example_anchors {| quant_list := []; consumed := ∅ |}
    (Some example_rules) true true (analysed_graph example_analysis)
    = Ok example_fusions
  ∧ ∀ i j ci cj name,
      i ≠ j → quant_list example_fusions !! i = Some ci →
      quant_list example_fusions !! j = Some cj →
      name ∈ ci → name ∉ cj.
Proof.
  assert (fusable_calls example_anchors {| quant_list := []; consumed := ∅ |}
            (Some example_rules) true true (analysed_graph example_analysis)
          = Ok example_fusions) as Hcalls by (vm_compute; reflexivity).
  split; [exact Hcalls|].
  exact (fusion_chains_disjoint _ _ _ _ _ _ Hcalls).
Defined.

(** ** The quantizer constructors *)

Lemma eff_bind_ret {A B} (a : A) (k : A → eff B) : (mret a ≫= k) = k a.
Proof.
  unfold mbind, eff_bind, mret, eff_ret. cbn [eff_result eff_events app].
  by destruct (k a).
Qed.

Lemma eff_bind_ok {A B} (a : A) (k : A → eff B) : (mkEff [] (Ok a) ≫= k) = k a.
Proof. apply (eff_bind_ret a k). Qed.

Lemma eff_bind_raise {A B} events e (k : A → eff B) :
  (mkEff events (Raise e) ≫= k) = mkEff events (Raise e).
Proof. done. Qed.

Lemma backend_fbgemm_checks (self : quantizer) :
  backend self = PyStr "fbgemm" →
  bool_decide (backend self = PyStr "qnnpack") = false
  ∧ bool_decide (backend self ∈ [PyStr "fbgemm"; PyStr "qnnpack"]) = true
  ∧ bool_decide (backend self = PyStr "fbgemm") = true.
Proof.
  intros ->. split_and!.
  - by apply bool_decide_eq_false_2.
  - apply bool_decide_eq_true_2. by left.
  - by apply bool_decide_eq_true_2.
Qed.

(** The constructor up to the backend checks, for a class whose
    [parse_config] succeeded with [self]. *)
Lemma quantizer_init_fbgemm cls platform model_ work_dir_ config self :
  parse_config cls
    match model_ with
    | DataParallel inner | DistributedDataParallel inner => inner
    | PlainModule m => m
    end (default "out" work_dir_) config = mkEff [] (Ok self) →
  backend self = PyStr "fbgemm" →
  (truthy (asymmetric self) = false →
   quantizer_init cls platform model_ work_dir_ config =
     mkEff [] (Raise (AssertionError
                        "Symmetric quantizaton for FBGEMM not supported")))
  ∧ (truthy (asymmetric self) = true → truthy (per_tensor self) = true →
     quantizer_init cls platform model_ work_dir_ config =
       mkEff [] (Raise (AssertionError
         "Per-tensor quantizaton for FBGEMM not supported, please use per-channel quantization instead"))).
Proof.
  intros Hparse Hbackend.
  destruct (backend_fbgemm_checks self Hbackend) as (Hq & Hin & Hf).
  unfold quantizer_init. rewrite Hparse, eff_bind_ok.
  rewrite Hq, Hin, Hf, andb_false_r. cbn [negb when].
  rewrite !eff_bind_ret.
  split.
  - intros ->. cbn [py_assert]. by rewrite !eff_bind_raise.
  - intros -> ->. cbn [py_assert negb]. by rewrite eff_bind_ret, !eff_bind_raise.
Qed.

Lemma parse_config_plain cls model_ work_dir_ config :
  cls ≠ DynamicQuantizer →
  ∃ self, parse_config cls model_ work_dir_ config = mkEff [] (Ok self)
          ∧ backend self = config_get config "backend" (PyStr "qnnpack")
          ∧ asymmetric self = config_get config "asymmetric" (PyBool true)
          ∧ per_tensor self = config_get config "per_tensor" (PyBool true).
Proof.
  intros Hcls. destruct cls; [| | |done]; eexists; (split; [reflexivity|done]).
Qed.

Lemma parse_config_dynamic model_ work_dir_ config :
  let asym := config_get config "asymmetric" (PyBool true) in
  let per := config_get config "per_tensor" (PyBool true) in
  parse_config DynamicQuantizer model_ work_dir_ config =
    if truthy asym then
      mkEff [] (Raise (AssertionError
        "Asymmetric quantization is not supported for DynamicQuantizer"))
    else if truthy per then
      mkEff [] (Ok (set_rewrite_graph (PyBool false)
                      (QATQuantizer_parse_config DynamicQuantizer model_
                                                 work_dir_ config)))
    else
      mkEff [] (Raise (AssertionError
        "Per-channel quantization is not supported for DynamicQuantizer")).
Proof.
  cbn zeta. unfold parse_config.
  cbn [set_rewrite_graph QATQuantizer_parse_config asymmetric per_tensor].
  destruct (truthy (config_get config "asymmetric" (PyBool true))); [done|].
  by destruct (truthy (config_get config "per_tensor" (PyBool true))).
Qed.

Lemma quantizer_init_parse_raises cls platform model_ work_dir_ config e :
  parse_config cls
    match model_ with
    | DataParallel inner | DistributedDataParallel inner => inner
    | PlainModule m => m
    end (default "out" work_dir_) config = mkEff [] (Raise e) →
  quantizer_init cls platform model_ work_dir_ config = mkEff [] (Raise e).
Proof.
  intros Hparse. unfold quantizer_init. by rewrite Hparse, eff_bind_raise.
Qed.

(** C5.  A [DynamicQuantizer] whose [asymmetric] option is [True] (given, or
    left to its default) is not constructed: [parse_config] raises the
    assertion and nothing has been logged, evaluated or traced, so
    [quantize] is never reached.  The same holds when [per_tensor] is
    [False]. *)
Theorem dynamic_quantizer_fails_fast platform model_ work_dir_ config :
  (config_get config "asymmetric" (PyBool true) = PyBool true →
   quantizer_init DynamicQuantizer platform model_ work_dir_ config =
     mkEff [] (Raise (AssertionError
       "Asymmetric quantization is not supported for DynamicQuantizer"))
   ∧ dynamic_quantization platform model_ work_dir_ config =
     mkEff [] (Raise (AssertionError
       "Asymmetric quantization is not supported for DynamicQuantizer")))
  ∧ (config_get config "per_tensor" (PyBool true) = PyBool false →
     ∃ msg,
       quantizer_init DynamicQuantizer platform model_ work_dir_ config =
         mkEff [] (Raise (AssertionError msg))
       ∧ dynamic_quantization platform model_ work_dir_ config =
         mkEff [] (Raise (AssertionError msg))).
Proof.
  split.
  - intros Hasym.
    assert (quantizer_init DynamicQuantizer platform model_ work_dir_ config =
              mkEff [] (Raise (AssertionError
                "Asymmetric quantization is not supported for DynamicQuantizer")))
      as Hinit.
    { apply quantizer_init_parse_raises.
      rewrite parse_config_dynamic. cbn zeta. by rewrite Hasym. }
    split; [done|]. unfold dynamic_quantization. by rewrite Hinit.
  - intros Hper.
    assert (∃ msg,
              quantizer_init DynamicQuantizer platform model_ work_dir_ config =
                mkEff [] (Raise (AssertionError msg))) as [msg Hinit].
    { destruct (truthy (config_get config "asymmetric" (PyBool true))) eqn:Hasym;
        eexists; apply quantizer_init_parse_raises;
        rewrite parse_config_dynamic; cbn zeta; rewrite Hasym, ?Hper; done. }
    exists msg. split; [done|]. unfold dynamic_quantization. by rewrite Hinit.
Qed.

Lemma dynamic_quantizer_fails_fast_witness :
  quantizer_init DynamicQuantizer "linux" (PlainModule 0) None
    (Some {[ "asymmetric" := PyBool true ]}) =
    mkEff [] (Raise (AssertionError
      "Asymmetric quantization is not supported for DynamicQuantizer"))
  ∧ ∃ msg,
      quantizer_init DynamicQuantizer "linux" (PlainModule 0) None
        (Some (<[ "asymmetric" := PyBool false ]>
                 {[ "per_tensor" := PyBool false ]})) =
        mkEff [] (Raise (AssertionError msg)).
Proof.
  split.
  - apply (dynamic_quantizer_fails_fast "linux" (PlainModule 0) None
             (Some {[ "asymmetric" := PyBool true ]})).
    by vm_compute.
  - destruct (dynamic_quantizer_fails_fast "linux" (PlainModule 0) None
                (Some (<[ "asymmetric" := PyBool false ]>
                         {[ "per_tensor" := PyBool false ]}))) as [_ Hper].
    destruct Hper as (msg & Hinit & _); [by vm_compute|].
    by exists msg.
Defined.

(** with no configuration at all the default [asymmetric=True] applies *)
Example dynamic_quantizer_default_config :
  quantizer_init DynamicQuantizer "linux" (PlainModule 0) None None =
    mkEff [] (Raise (AssertionError
      "Asymmetric quantization is not supported for DynamicQuantizer")).
Proof. by vm_compute. Qed.

(** C8.  With [backend='fbgemm'] no quantizer of any class is constructed
    when [asymmetric] is [False], nor when [per_tensor] is [True]: the
    constructor raises an assertion with nothing logged and before the
    [disable_requantization_for_cat] default is worked out.  For the classes
    other than [DynamicQuantizer], whose own [parse_config] asserts first,
    the assertion is the FBGEMM one. *)
Theorem fbgemm_constraints cls platform model_ work_dir_ config :
  config_get config "backend" (PyStr "qnnpack") = PyStr "fbgemm" →
  (config_get config "asymmetric" (PyBool true) = PyBool false →
   ∃ msg,
     quantizer_init cls platform model_ work_dir_ config =
       mkEff [] (Raise (AssertionError msg))
     ∧ (cls ≠ DynamicQuantizer →
        msg = "Symmetric quantizaton for FBGEMM not supported"))
  ∧ (config_get config "per_tensor" (PyBool true) = PyBool true →
     ∃ msg,
       quantizer_init cls platform model_ work_dir_ config =
         mkEff [] (Raise (AssertionError msg))
       ∧ (cls ≠ DynamicQuantizer →
          truthy (config_get config "asymmetric" (PyBool true)) = true →
          msg = "Per-tensor quantizaton for FBGEMM not supported, please use per-channel quantization instead")).
Proof.
  intros Hbackend.
  set (m := match model_ with
            | DataParallel inner | DistributedDataParallel inner => inner
            | PlainModule m => m
            end).
  destruct (decide (cls = DynamicQuantizer)) as [->|Hcls].
  - pose proof (parse_config_dynamic m (default "out" work_dir_) config) as Hparse.
    cbn zeta in Hparse.
    split; intros Hopt.
    + rewrite Hopt in Hparse.
      destruct (truthy (config_get config "per_tensor" (PyBool true))) eqn:Hper;
        cbn [truthy] in Hparse.
      * destruct (quantizer_init_fbgemm DynamicQuantizer platform model_
                    work_dir_ config _ Hparse Hbackend) as [Hsym _].
        eexists. split; [apply Hsym|done].
        cbn [set_rewrite_graph QATQuantizer_parse_config asymmetric].
        by rewrite Hopt.
      * eexists. split; [eapply quantizer_init_parse_raises; exact Hparse|done].
    + rewrite Hopt in Hparse.
      destruct (truthy (config_get config "asymmetric" (PyBool true))) eqn:Hasym;
        cbn [truthy] in Hparse.
      * eexists. split; [eapply quantizer_init_parse_raises; exact Hparse|done].
      * destruct (quantizer_init_fbgemm DynamicQuantizer platform model_
                    work_dir_ config _ Hparse Hbackend) as [Hsym _].
        eexists. split; [apply Hsym|done].
        cbn [set_rewrite_graph QATQuantizer_parse_config asymmetric].
        exact Hasym.
  - destruct (parse_config_plain cls m (default "out" work_dir_) config Hcls)
      as (self & Hparse & Hb & Ha & Hp).
    rewrite <-Hb in Hbackend.
    destruct (quantizer_init_fbgemm cls platform model_ work_dir_ config self
                Hparse Hbackend) as [Hsym Hper].
    split; intros Hopt.
    + eexists. split; [apply Hsym; by rewrite Ha, Hopt|done].
    + destruct (truthy (asymmetric self)) eqn:Hasym.
      * eexists. split; [apply Hper; [done|by rewrite Hp, Hopt]|done].
      * eexists. split; [by apply Hsym|].
        intros _. rewrite <-Ha, Hasym. done.
Qed.

Lemma fbgemm_constraints_witness :
  (∃ msg,
     quantizer_init QATQuantizer "linux" (PlainModule 0) None
       (Some (<[ "backend" := PyStr "fbgemm" ]>
                {[ "asymmetric" := PyBool false ]})) =
       mkEff [] (Raise (AssertionError msg))
     ∧ (QATQuantizer ≠ DynamicQuantizer →
        msg = "Symmetric quantizaton for FBGEMM not supported"))
  ∧ (∃ msg,
       quantizer_init PostQuantizer "linux" (PlainModule 0) None
         (Some {[ "backend" := PyStr "fbgemm" ]}) =
         mkEff [] (Raise (AssertionError msg))).
Proof.
  split.
  - apply (fbgemm_constraints QATQuantizer "linux" (PlainModule 0) None
             (Some (<[ "backend" := PyStr "fbgemm" ]>
                      {[ "asymmetric" := PyBool false ]}))); by vm_compute.
  - destruct (fbgemm_constraints PostQuantizer "linux" (PlainModule 0) None
                (Some {[ "backend" := PyStr "fbgemm" ]})) as [_ Hper];
      [by vm_compute|].
    destruct Hper as (msg & Hinit & _); [by vm_compute|].
    by exists msg.
Defined.

(** ** The rewrites *)

Lemma list_ascii_of_string_app (s1 s2 : string) :
  list_ascii_of_string (s1 +:+ s2) =
    list_ascii_of_string s1 ++ list_ascii_of_string s2.
Proof.
  induction s1 as [|c s1 IH]; [done|].
  change (c :: list_ascii_of_string (s1 +:+ s2) =
          c :: (list_ascii_of_string s1 ++ list_ascii_of_string s2)).
  by f_equal.
Qed.

Lemma string_append_assoc (s1 s2 s3 : string) :
  (s1 +:+ s2) +:+ s3 = s1 +:+ (s2 +:+ s3).
Proof.
  induction s1 as [|c s1 IH]; [done|].
  change (String c ((s1 +:+ s2) +:+ s3) = String c (s1 +:+ (s2 +:+ s3))).
  by f_equal.
Qed.

Lemma split_dots_nonempty l : ∀ word, split_dots l word ≠ [].
Proof.
  induction l as [|c l IH]; intros word; cbn [split_dots]; [done|].
  destruct (bool_decide (c = "."%char)); [done|]. apply IH.
Qed.

Lemma last_split_dots_app l1 l2 : ∀ word,
  last (split_dots (l1 ++ "."%char :: l2) word) = last (split_dots l2 []).
Proof.
  induction l1 as [|c l1 IH]; intros word.
  - cbn [app split_dots]. rewrite bool_decide_eq_true_2 by done.
    pose proof (split_dots_nonempty l2 []) as Hne.
    destruct (split_dots l2 []); [done|]. done.
  - cbn [app split_dots]. destruct (bool_decide (c = "."%char)).
    + specialize (IH []).
      pose proof (split_dots_nonempty (l1 ++ "."%char :: l2) []) as Hne.
      destruct (split_dots (l1 ++ "."%char :: l2) []); [done|]. done.
    + apply IH.
Qed.

Lemma join_dots_snoc init x :
  join_dots (init ++ [x]) =
    match init with
    | [] => x
    | _ :: _ => join_dots init +:+ "." +:+ x
    end.
Proof.
  induction init as [|p init IH]; [done|].
  cbn [app]. destruct init as [|p' init]; [done|].
  change (join_dots (p :: (p' :: init) ++ [x]))
    with (p +:+ "." +:+ join_dots ((p' :: init) ++ [x])).
  rewrite IH. cbn [join_dots].
  change (join_dots (p :: p' :: init))
    with (p +:+ "." +:+ join_dots (p' :: init)).
  by rewrite !string_append_assoc.
Qed.

(** The name built for a rewritten function ends in its new type. *)
Lemma last_split_renamed func_type parts :
  parts ≠ [] →
  split_full_name func_type = [func_type] →
  last (split_full_name (join_dots (set_last func_type parts))) = Some func_type.
Proof.
  intros Hparts Hsplit. destruct parts as [|p parts]; [done|].
  cbn [set_last]. rewrite join_dots_snoc.
  destruct (take (length (p :: parts) - 1) (p :: parts)) as [|q init].
  - by rewrite Hsplit.
  - unfold split_full_name. rewrite !list_ascii_of_string_app.
    change (list_ascii_of_string ".") with ["."%char]. cbn [app].
    rewrite last_split_dots_app.
    fold (split_full_name func_type). by rewrite Hsplit.
Qed.

Lemma name_parts_nonempty func_type full_name :
  name_parts func_type full_name ≠ [].
Proof.
  unfold name_parts, split_full_name.
  pose proof (split_dots_nonempty (list_ascii_of_string full_name) []) as Hne.
  destruct (split_dots _ _) as [|p parts]; [done|].
  cbn [set_last]. by destruct (take _ _).
Qed.

Lemma index_lookup {A} (l : list A) i x : l !! i = Some x → index l i = Ok x.
Proof. unfold index. by intros ->. Qed.

Section rewrite_lemmas.
Context (args_string : list Arg → string)
        (insert_stub_nodes later_passes : TraceGraph → result TraceGraph)
        (forward_order : TraceGraph → list string).

(** C10.  On a graph whose [quantized] flag is set the rewrite returns at
    once and the graph is as it was; a rewrite that runs through leaves
    the flag set; so rewriting the result again changes nothing. *)
Theorem rewrite_quantize_graph_guard graph :
  (graph_quantized graph = true →
   rewrite_quantize_graph args_string insert_stub_nodes later_passes
     forward_order graph = Ok graph)
  ∧ (∀ graph',
       rewrite_quantize_graph args_string insert_stub_nodes later_passes
         forward_order graph = Ok graph' →
       graph_quantized graph' = true
       ∧ rewrite_quantize_graph args_string insert_stub_nodes later_passes
           forward_order graph' = Ok graph').
Proof.
  assert (∀ g, graph_quantized g = true →
               rewrite_quantize_graph args_string insert_stub_nodes
                 later_passes forward_order g = Ok g) as Hguard.
  { intros g Hg. unfold rewrite_quantize_graph. by rewrite Hg. }
  split; [apply Hguard|].
  intros graph' Hrun.
  assert (graph_quantized graph' = true) as Hset; [|by auto].
  unfold rewrite_quantize_graph in Hrun.
  destruct (graph_quantized graph) eqn:Hq.
  { by injection Hrun as <-. }
  destruct (insert_stub_nodes graph) as [g1|e]; [|done].
  cbn [mbind result_bind] in Hrun.
  destruct (rewrite_neg_div_sub args_string g1) as [g2|e]; [|done].
  cbn [mbind result_bind] in Hrun.
  destruct (later_passes g2) as [g3|e]; [|done].
  cbn [mbind result_bind] in Hrun.
  by injection Hrun as <-.
Qed.

(** What the div rewrite makes of a node whose constant it can read. *)
Lemma rewrite_div_node_ok graph name node f x rest other_arg factor :
  nodes_map graph !! name = Some node →
  module node = Function f →
  prev_tensors node = x :: rest →
  number_of_args_string false (tf_args_string_no_self f) = Ok other_arg →
  py_one_over other_arg = Ok factor →
  rewrite_div_node args_string name graph =
    Ok (set_node_module name
          (Function
             (parse_args args_string [ArgTensor x; ArgFloat factor]
                (retyped
                   (if bool_decide (tf_func_type f
                                    ∈ ["__itruediv__"; "itruediv"; "div_"])
                    then "__imul__" else "__mul__") "mul" f)))
          graph).
Proof.
  intros Hnode Hmod Hx Hnum Hone. unfold rewrite_div_node.
  rewrite Hnode, Hmod. cbn [retyped tf_args_string_no_self].
  rewrite Hnum, Hx. cbn [mbind result_bind index lookup list_lookup].
  by rewrite Hone.
Qed.

(** A constant written with an exponent and without a dot is handed to
    [int], which rejects it. *)
Lemma rewrite_div_node_exponent graph name node f :
  nodes_map graph !! name = Some node →
  module node = Function f →
  tf_args_string_no_self f = "1e-05" →
  rewrite_div_node args_string name graph = Raise ValueError.
Proof.
  intros Hnode Hmod Hs. unfold rewrite_div_node.
  rewrite Hnode, Hmod. cbn [retyped tf_args_string_no_self].
  by rewrite Hs.
Qed.
End rewrite_lemmas.

Lemma rewrite_quantize_graph_guard_witness :
  rewrite_quantize_graph no_args_string no_pass no_pass forward_nodes
    example_sub_graph = Ok example_sub_rewritten
  ∧ graph_quantized example_sub_rewritten = true
  ∧ rewrite_quantize_graph no_args_string no_pass no_pass forward_nodes
      example_sub_rewritten = Ok example_sub_rewritten.
Proof.
  assert (rewrite_quantize_graph no_args_string no_pass no_pass forward_nodes
            example_sub_graph = Ok example_sub_rewritten) as Hrun
    by (vm_compute; reflexivity).
  split; [exact Hrun|].
  destruct (rewrite_quantize_graph_guard no_args_string no_pass no_pass
              forward_nodes example_sub_graph) as [_ Hdone].
  exact (Hdone _ Hrun).
Defined.

(** C7, a constant in exponent notation.  The node [x / 1e-05] passes the
    test of the div rewrite, and the rewrite raises [ValueError] on it: the
    recorded constant [1e-05] has no dot, so it goes to [int].  The sub
    rewrite, which also looks for an [e], reads the same string as a float. *)
Theorem div_by_exponent_constant_raises (args_string : list Arg → string) :
  is_div_node example_div_by_1e_05
    <$> nodes_map example_div_by_1e_05 !! "truediv_0" = Some (Ok true)
  ∧ eval_node example_div_by_1e_05 "truediv_0"
    = Some [S754_finite false 12800000 (-5)]
  ∧ rewrite_div_node args_string "truediv_0" example_div_by_1e_05
    = Raise ValueError
  ∧ rewrite_quantize_graph args_string no_pass no_pass forward_nodes
      example_div_by_1e_05 = Raise ValueError
  ∧ number_of_args_string false "1e-05" = Raise ValueError
  ∧ number_of_args_string true "1e-05"
    = Ok (NumFloat (S754_finite false 5902958103587057 (-69))).
Proof. split_and!; by vm_compute. Qed.

(** The div rewrite on a constant with a dot: [x / 2.0] for [x = [4.0]]
    becomes [x * 0.5] and still gives [[2.0]]. *)
Lemma div_by_two_rewritten (args_string : list Arg → string) :
  ∃ graph,
    rewrite_div_node args_string "truediv_0" example_div_by_two = Ok graph
    ∧ (∃ node f,
         nodes_map graph !! "truediv_0" = Some node
         ∧ module node = Function f
         ∧ tf_kind f = "mul" ∧ tf_func_type f = "__mul__"
         ∧ tf_full_name f = "torch.Tensor.__mul__"
         ∧ tf_args_parsed f
           = [ArgTensor (example_tensor 0 [4]%Z);
              ArgFloat (S754_finite false 4503599627370496 (-53))])
    ∧ eval_node graph "truediv_0" = Some [f32_of_Z 2]
    ∧ eval_node example_div_by_two "truediv_0" = Some [f32_of_Z 2].
Proof.
  eexists. split; [by vm_compute|]. split.
  - eexists _, _. split_and!; by vm_compute.
  - split; by vm_compute.
Qed.

(** Multiplying a binary32 value by [-1] changes its sign and nothing else. *)
Lemma f32_mul_neg_one y :
  valid_binary 24 128 y = true → f32_mul y (f32_of_Z (-1)) = SFopp y.
Proof.
  destruct y as [s| s| |s m e]; try done.
  cbn [valid_binary]. unfold bounded, canonical_mantissa. intros Hvalid.
  apply andb_prop in Hvalid as [Hcanon Hle].
  apply Z.eqb_eq in Hcanon.
  change (f32_of_Z (-1)) with (S754_finite true 8388608 (-23)).
  unfold f32_mul, SFmul, SFopp.
  rewrite Pos.mul_comm.
  change (8388608 * m)%positive
    with (m~0~0~0~0~0~0~0~0~0~0~0~0~0~0~0~0~0~0~0~0~0~0~0)%positive.
  unfold binary_round_aux, shr_fexp.
  assert (fexp 24 128
            (Zdigits2 (Z.pos m~0~0~0~0~0~0~0~0~0~0~0~0~0~0~0~0~0~0~0~0~0~0~0)
             + (e + -23)) - (e + -23) = 23)%Z as ->.
  { cbn [Zdigits2 digits2_pos]. rewrite !Pos2Z.inj_succ.
    replace (Z.succ (Z.succ (Z.succ (Z.succ (Z.succ (Z.succ (Z.succ (Z.succ
            (Z.succ (Z.succ (Z.succ (Z.succ (Z.succ (Z.succ (Z.succ (Z.succ
            (Z.succ (Z.succ (Z.succ (Z.succ (Z.succ (Z.succ (Z.succ
              (Z.pos (digits2_pos m)))))))))))))))))))))))) + (e + -23))%Z
      with (Z.pos (digits2_pos m) + e)%Z by lia.
    rewrite Hcanon. lia. }
  cbn [shr shr_record_of_loc SpecFloat.iter_pos shr_1 orb].
  cbn [shr_m loc_of_shr_record shr_r shr_s round_nearest_even].
  replace (e + -23 + 23)%Z with e by lia.
  cbn [Zdigits2]. rewrite Hcanon, Z.sub_diag.
  cbn [shr shr_m]. rewrite Hle. by destruct s.
Qed.

(** Adding the opposite is subtracting. *)
Lemma f32_add_opp x y : f32_add x (SFopp y) = f32_sub x y.
Proof.
  unfold f32_add, f32_sub, SFadd, SFsub, SFopp.
  destruct x as [sx|sx| |sx mx ex], y as [sy|sy| |sy my ey]; try done.
  all: destruct sy; cbn [negb cond_Zopp]; f_equal; lia.
Qed.

Lemma sub_as_add_of_negated (xs ys : list spec_float) :
  Forall (λ y, valid_binary 24 128 y = true) ys →
  zip_with f32_add xs ((λ y, f32_mul y (f32_of_Z (-1))) <$> ys)
  = zip_with f32_sub xs ys.
Proof.
  intros Hvalid. revert xs.
  induction Hvalid as [|y ys Hy _ IH]; intros [|x xs]; try done.
  cbn [fmap list_fmap zip_with]. by rewrite IH, f32_mul_neg_one, f32_add_opp.
Qed.

Lemma is_sub_node_kind node f :
  module node = Function f → is_sub_node node = Ok true → tf_kind f = "sub".
Proof.
  intros Hmod. unfold is_sub_node. rewrite Hmod.
  case_bool_decide; [done|]. discriminate.
Qed.

(** [[5.0] - [3.0]] before and after the rewrite *)
Lemma example_sub_rewrite_value (args_string : list Arg → string) :
  ∃ rewritten,
    rewrite_sub_node args_string "sub_0" example_sub_graph = Ok rewritten
    ∧ eval_node rewritten "sub_0" = Some [f32_of_Z 2]
    ∧ eval_node example_sub_graph "sub_0" = Some [f32_of_Z 2].
Proof. eexists. split_and!; by vm_compute. Qed.

Section sub_rewrite.
Context (args_string : list Arg → string).

Lemma new_mul_function parts :
  parts ≠ [] →
  let f := new_trace_function (join_dots (set_last "__mul__" parts)) true in
  tf_func_type f = "__mul__" ∧ tf_kind f = "mul".
Proof.
  intros Hparts. cbn zeta. unfold new_trace_function.
  cbn [tf_func_type tf_kind].
  by rewrite (last_split_renamed "__mul__" parts Hparts eq_refl).
Qed.

(** C6.  For a float32 sub node [a - b] whose operands come from the
    producers [pa] and [pb], the rewrite puts a new node [mul(b, -1)]
    between [pb] and the node: the new node follows [pb] and precedes the
    node, it takes the node's place among the successors of [pb] and the
    place of [pb] among the predecessors of the node, and its output is the
    tensor [b * -1].  The node itself becomes [add(a, b * -1)].  The new
    node evaluates to [b * -1] and the rewritten node to [a + b * -1],
    which for binary32 elements is what the sub node [a - b] evaluated to;
    for [a = [5.0]], [b = [3.0]] both give [[2.0]]. *)
Theorem two_tensor_sub_rewrite graph name node f a b pa pb pb_node :
  nodes_map graph !! name = Some node →
  module node = Function f →
  is_sub_node node = Ok true →
  length (tf_prev_tensors f) = 2%nat →
  prev_tensors node = [a; b] →
  prev_nodes node = [pa; pb] →
  pb ≠ name →
  nodes_map graph !! pb = Some pb_node →
  let out := tensor_mul_int b (-1) (fresh_tensor_id graph) in
  let shared := shared_tensors pb_node node in
  ∃ mul_name mul_f add_f graph',
    rewrite_sub_node args_string name graph = Ok graph'
    ∧ nodes_map graph !! mul_name = None
    ∧ nodes_map graph' !! mul_name
      = Some (mkTraceNode mul_name (Function mul_f) (fresh_module_id graph)
                          [pb] [name] shared [out] false false)
    ∧ tf_kind mul_f = "mul" ∧ tf_func_type mul_f = "__mul__"
    ∧ tf_args_parsed mul_f = [ArgTensor b; ArgInt (-1)]
    ∧ nodes_map graph' !! pb
      = Some (mkTraceNode (unique_name pb_node) (module pb_node)
                (module_id pb_node) (prev_nodes pb_node)
                (replace_name name mul_name (next_nodes pb_node))
                (prev_tensors pb_node) (next_tensors pb_node)
                (quantized pb_node) (rev_index pb_node))
    ∧ nodes_map graph' !! name
      = Some (mkTraceNode (unique_name node) (Function add_f) (module_id node)
                (replace_name pb mul_name [pa; pb]) (next_nodes node)
                (replace_tensors shared [out] [a; b]) (next_tensors node)
                (quantized node) (rev_index node))
    ∧ (pa ≠ pb → replace_name pb mul_name [pa; pb] = [pa; mul_name])
    ∧ (shared = [b] → tensor_id a ≠ tensor_id b →
       replace_tensors shared [out] [a; b] = [a; out])
    ∧ tf_kind add_f = "add" ∧ tf_func_type add_f = "__add__"
    ∧ tf_args_parsed add_f = [ArgTensor a; ArgTensor out]
    ∧ eval_node graph' mul_name = Some (tensor_data out)
    ∧ eval_node graph' name
      = Some (zip_with f32_add (tensor_data a) (tensor_data out))
    ∧ (tf_args_parsed f = [ArgTensor a; ArgTensor b] →
       Forall (λ y, valid_binary 24 128 y = true) (tensor_data b) →
       eval_node graph' name = eval_node graph name)
    ∧ (∃ rewritten,
         rewrite_sub_node args_string "sub_0" example_sub_graph = Ok rewritten
         ∧ eval_node rewritten "sub_0" = Some [f32_of_Z 2]
         ∧ eval_node example_sub_graph "sub_0" = Some [f32_of_Z 2]).
Proof.
  intros Hnode Hmod Hsub Hlen Hpt Hpn Hpbn Hpb out shared.
  pose proof (is_sub_node_kind node f Hmod Hsub) as Hsub_kind.
  set (parts := name_parts (tf_func_type f) (tf_full_name f)).
  set (mul_f := parse_args args_string [ArgTensor b; ArgInt (-1)]
                  (new_trace_function (join_dots (set_last "__mul__" parts)) true)).
  destruct (new_mul_function parts (name_parts_nonempty _ _)) as [Htype Hkind].
  assert (tf_kind mul_f = "mul") as Hmul_kind by done.
  set (mul_name := fresh_string ("fuse_" +:+ tf_kind mul_f) (nodes_map graph)).
  assert (nodes_map graph !! mul_name = None) as Hfresh
    by apply fresh_string_fresh.
  assert (mul_name ≠ name) as Hne1 by congruence.
  assert (mul_name ≠ pb) as Hne2 by congruence.
  set (add_f := parse_args args_string [ArgTensor a; ArgTensor out]
         {| tf_full_name := join_dots (set_last "__add__" parts);
            tf_func_type := "__add__";
            tf_kind := "add";
            tf_is_class := tf_is_class f;
            tf_prev_tensors := tf_prev_tensors f;
            tf_args_parsed := tf_args_parsed f;
            tf_args_string_no_self := tf_args_string_no_self f |}).
  exists mul_name, mul_f, add_f.
  unfold rewrite_sub_node. rewrite Hnode, Hmod, Hlen, Hpt, Hpn.
  rewrite (bool_decide_eq_false_2 (2 = 1)%nat) by lia.
  rewrite !(bool_decide_eq_true_2 (2 = 2)%nat) by done.
  cbn [andb index lookup list_lookup mbind result_bind].
  unfold insert_between. rewrite Hpb, Hnode.
  cbn [mbind result_bind]. fold parts. fold out. fold mul_f. fold mul_name.
  fold shared. rewrite Hpn, Hpt.
  eexists. split; [reflexivity|].
  unfold set_node_module, set_nodes_map, eval_node. cbn [nodes_map].
  rewrite Hnode.
  rewrite lookup_alter_ne, lookup_insert_eq by done.
  rewrite lookup_alter_ne by done.
  rewrite (lookup_insert_ne _ mul_name pb) by done.
  rewrite (lookup_insert_ne _ name pb) by done.
  rewrite lookup_insert_eq.
  rewrite lookup_alter_eq.
  rewrite (lookup_insert_ne _ mul_name name) by done.
  rewrite lookup_insert_eq.
  cbn [fmap option_fmap option_map set_module mbind option_bind module
       unique_name module_id prev_nodes next_nodes prev_tensors next_tensors
       quantized rev_index].
  split_and!; try done.
  - intros Hpa. unfold replace_name. cbn [fmap list_fmap].
    by rewrite decide_False, decide_True by done.
  - intros -> Hid. unfold replace_tensors. cbn [fmap list_fmap list_find].
    rewrite (decide_False (P := tensor_id b = tensor_id a)) by congruence.
    rewrite (decide_True (P := tensor_id b = tensor_id b)) by done.
    done.
  - unfold eval_function. rewrite Hmul_kind. done.
  - intros Hargs Hvalid. rewrite Hmod. unfold eval_function.
    rewrite Hsub_kind, Hargs.
    cbn [tf_kind add_f parse_args tf_args_parsed out tensor_mul_int tensor_data].
    change (kernel_of "add") with (Some f32_add).
    change (kernel_of "sub") with (Some f32_sub).
    cbn [mbind option_bind]. by rewrite sub_as_add_of_negated.
  - apply example_sub_rewrite_value.
Qed.
End sub_rewrite.

Lemma two_tensor_sub_rewrite_witness :
  (nodes_map example_sub_graph !! "sub_0" = Some example_sub_node
   ∧ module example_sub_node = Function example_sub_function
   ∧ is_sub_node example_sub_node = Ok true
   ∧ length (tf_prev_tensors example_sub_function) = 2%nat
   ∧ prev_tensors example_sub_node
     = [example_tensor 0 [5]%Z; example_tensor 1 [3]%Z]
   ∧ prev_nodes example_sub_node = ["input_0"; "input_1"]
   ∧ "input_1" ≠ "sub_0"
   ∧ nodes_map example_sub_graph !! "input_1" = Some example_sub_operand)
  ∧ ∃ mul_name graph',
      rewrite_sub_node no_args_string "sub_0" example_sub_graph = Ok graph'
      ∧ nodes_map example_sub_graph !! mul_name = None
      ∧ eval_node graph' mul_name
        = Some (tensor_data (tensor_mul_int (example_tensor 1 [3]%Z) (-1)
                               (fresh_tensor_id example_sub_graph)))
      ∧ eval_node graph' "sub_0"
        = Some (zip_with f32_add (tensor_data (example_tensor 0 [5]%Z))
                  (tensor_data (tensor_mul_int (example_tensor 1 [3]%Z) (-1)
                                  (fresh_tensor_id example_sub_graph)))).
Proof.
  assert (nodes_map example_sub_graph !! "sub_0" = Some example_sub_node) as H1
    by (vm_compute; reflexivity).
  assert (module example_sub_node = Function example_sub_function) as H2
    by reflexivity.
  assert (is_sub_node example_sub_node = Ok true) as H3
    by (vm_compute; reflexivity).
  assert (length (tf_prev_tensors example_sub_function) = 2%nat) as H4
    by reflexivity.
  assert (prev_tensors example_sub_node
          = [example_tensor 0 [5]%Z; example_tensor 1 [3]%Z]) as H5
    by reflexivity.
  assert (prev_nodes example_sub_node = ["input_0"; "input_1"]) as H6
    by reflexivity.
  assert ("input_1" ≠ "sub_0") as H7 by discriminate.
  assert (nodes_map example_sub_graph !! "input_1" = Some example_sub_operand)
    as H8 by (vm_compute; reflexivity).
  split; [exact (conj H1 (conj H2 (conj H3 (conj H4 (conj H5 (conj H6
            (conj H7 H8)))))))|].
  destruct (two_tensor_sub_rewrite no_args_string example_sub_graph "sub_0"
              example_sub_node example_sub_function
              (example_tensor 0 [5]%Z) (example_tensor 1 [3]%Z)
              "input_0" "input_1" example_sub_operand
              H1 H2 H3 H4 H5 H6 H7 H8)
    as (mul_name & mul_f & add_f & graph' & Hrun & Hfresh & _ & _ & _ & _ & _
        & _ & _ & _ & _ & _ & _ & Hmul & Hadd & _).
  exists mul_name, graph'. exact (conj Hrun (conj Hfresh (conj Hmul Hadd))).
Defined.

(* ================================================================== *)
(** * The rule compilers, further *)

Lemma lookup_flags_nil (p : list optype) : lookup_flags p [] = [].
Proof. by destruct p. Qed.

Lemma lookup_flags_length (p : list optype) : ∀ es,
  (length (lookup_flags p es) ≤ length p)%nat.
Proof.
  induction p as [|c p IH]; intros es; cbn [lookup_flags]; [done|].
  destruct (rd_lookup c es) as [[flag child]|]; cbn [length]; [|lia].
  specialize (IH (rd_entries child)). lia.
Qed.

(** A lookup after an insertion, from the lookup before it. *)
Lemma lookup_flags_insert_rule (q : list optype) : ∀ p es,
  lookup_flags p (insert_rule q es) = merge_flags p q (lookup_flags p es).
Proof.
  induction q as [|k q' IH]; intros p es.
  { by destruct p. }
  destruct p as [|c p']; [done|].
  cbn [lookup_flags merge_flags]. rewrite rd_lookup_insert_rule.
  destruct (decide (k = c)) as [->|Hne]; [|done].
  cbn zeta.
  destruct (rd_lookup c es) as [[flag child]|]; cbn [default fst snd head tail].
  - destruct q' as [|k' q'']; [done|].
    cbn [rd_entries]. by rewrite IH.
  - destruct q' as [|k' q'']; [by rewrite lookup_flags_nil|].
    cbn [rd_entries]. by rewrite IH, lookup_flags_nil.
Qed.

Lemma merge_flags_lookup (p : list optype) : ∀ q old i,
  q ≠ [] → (length old ≤ length p)%nat →
  merge_flags p q old !! i =
    if bool_decide ((i < length p)%nat ∧ take (S i) p `prefix_of` q)
    then Some (default false (old !! i) || bool_decide (take (S i) p = q))
    else old !! i.
Proof.
  induction p as [|c p' IH]; intros q old i Hq Hlen.
  { cbn [merge_flags]. rewrite bool_decide_eq_false_2; [done|].
    cbn [length]. lia. }
  destruct q as [|k q']; [done|]. cbn [merge_flags].
  destruct (decide (k = c)) as [->|Hne].
  2:{ rewrite bool_decide_eq_false_2; [done|].
      intros [_ Hpre]. cbn [take] in Hpre.
      apply prefix_cons_inv_1 in Hpre. congruence. }
  destruct q' as [|k' q''].
  - destruct i as [|j].
    + rewrite bool_decide_eq_true_2 by (cbn; split; [lia|done]).
      cbn [take]. rewrite take_0, bool_decide_eq_true_2 by done.
      by rewrite orb_true_r.
    + rewrite bool_decide_eq_false_2.
      { by destruct old. }
      intros [Hj Hpre]. cbn [take length] in *.
      apply prefix_cons_inv_2, prefix_nil_inv in Hpre.
      destruct p'; [cbn in Hj; lia|done].
  - destruct i as [|j].
    + rewrite bool_decide_eq_true_2.
      2:{ cbn; split; [lia|]. rewrite take_0. apply prefix_cons, prefix_nil. }
      cbn [take]. rewrite take_0, bool_decide_eq_false_2 by congruence.
      rewrite orb_false_r. by destruct old.
    + change ((?x :: ?l) !! S j) with (l !! j).
      rewrite IH; [|done|destruct old; cbn in *; lia].
      assert (tail old !! j = old !! S j) as -> by (by destruct old).
      cbn [take length].
      rewrite (bool_decide_ext (j < length p' ∧ take (S j) p' `prefix_of` k' :: q'')%nat
                 (S j < S (length p') ∧
                  c :: take (S j) p' `prefix_of` c :: k' :: q'')%nat).
      2:{ split; intros [? Hpre]; (split; [lia|]).
          - by apply prefix_cons.
          - by apply prefix_cons_inv_2 in Hpre. }
      rewrite (bool_decide_ext (take (S j) p' = k' :: q'')
                 (c :: take (S j) p' = c :: k' :: q'')); [done|].
      split; congruence.
Qed.

(** What a lookup reports once a list of rules has been compiled into a
    dictionary. *)
Lemma compile_loop_flags (rs : list rule) : ∀ bound es,
  Forall (λ r : rule, r ≠ []) rs →
  ∃ es', compile_loop rs bound es = Ok es' ∧
    ∀ p i, lookup_flags p es' !! i =
      match lookup_flags p es !! i with
      | Some b => Some (b || ends_rule rs p i)
      | None => if covered_by rs p i then Some (ends_rule rs p i) else None
      end.
Proof.
  induction rs as [|r rs IH]; intros bound es Hne.
  { exists es. split; [done|]. intros p i.
    assert (ends_rule [] p i = false) as ->.
    { apply bool_decide_eq_false, not_elem_of_nil. }
    assert (covered_by [] p i = false) as ->.
    { unfold covered_by. apply andb_false_iff. right.
      apply bool_decide_eq_false. intros H. by apply Exists_nil in H. }
    destruct (_ !! i); by rewrite ?orb_false_r. }
  apply Forall_cons in Hne as [Hr Hrs].
  assert (compile_loop (r :: rs) bound es
          = compile_loop rs true (insert_rule (reverse r) es)) as ->.
  { by destruct r. }
  destruct (IH true (insert_rule (reverse r) es) Hrs) as (es' & -> & Hes').
  exists es'. split; [done|]. intros p i. rewrite Hes'.
  assert (reverse r ≠ []) as Hq.
  { intros Hnil. apply (f_equal length) in Hnil.
    rewrite length_reverse in Hnil. by destruct r. }
  rewrite lookup_flags_insert_rule, merge_flags_lookup
    by (done || apply lookup_flags_length).
  assert (ends_rule (r :: rs) p i
          = bool_decide (take (S i) p = reverse r) || ends_rule rs p i) as ->.
  { unfold ends_rule. apply eq_true_iff_eq.
    rewrite orb_true_iff, !bool_decide_eq_true, elem_of_cons.
    assert (reverse (take (S i) p) = r ↔ take (S i) p = reverse r) as ->; [|done].
    split; intros H; [by rewrite <-H, reverse_involutive
                     |by rewrite H, reverse_involutive]. }
  assert (covered_by (r :: rs) p i
          = bool_decide ((i < length p)%nat ∧ take (S i) p `prefix_of` reverse r)
            || covered_by rs p i) as ->.
  { unfold covered_by. apply eq_true_iff_eq.
    rewrite orb_true_iff, !andb_true_iff, !bool_decide_eq_true, Exists_cons.
    tauto. }
  destruct (bool_decide ((i < length p)%nat ∧ _)) eqn:Hcov.
  - destruct (lookup_flags p es !! i) as [b|]; cbn [default orb];
      by rewrite ?orb_assoc.
  - destruct (lookup_flags p es !! i) as [b|] eqn:Hold; cbn [orb].
    + assert (bool_decide (take (S i) p = reverse r) = false) as ->; [|done].
      apply bool_decide_eq_false. intros Heq.
      apply bool_decide_eq_false in Hcov. apply Hcov. split.
      * apply lookup_lt_Some in Hold.
        pose proof (lookup_flags_length p es). lia.
      * by rewrite Heq.
    + destruct (covered_by rs p i) eqn:Hrs'; [|done].
      assert (bool_decide (take (S i) p = reverse r) = false) as ->; [|done].
      apply bool_decide_eq_false. intros Heq.
      apply bool_decide_eq_false in Hcov. apply Hcov. split.
      * unfold covered_by in Hrs'. apply andb_true_iff in Hrs' as [Hlt _].
        by apply bool_decide_eq_true in Hlt.
      * by rewrite Heq.
Qed.

Lemma covered_by_perm (rs1 rs2 : list rule) p i :
  (∀ r, r ∈ rs1 ↔ r ∈ rs2) → covered_by rs1 p i = covered_by rs2 p i.
Proof.
  intros Hsame. unfold covered_by. f_equal. apply bool_decide_ext.
  rewrite !Exists_exists. naive_solver.
Qed.

Lemma ends_rule_perm (rs1 rs2 : list rule) p i :
  (∀ r, r ∈ rs1 ↔ r ∈ rs2) → ends_rule rs1 p i = ends_rule rs2 p i.
Proof. intros Hsame. unfold ends_rule. by apply bool_decide_ext. Qed.

Lemma compile_rules_flags (rules : list rule) :
  Forall (λ r : rule, r ≠ []) rules →
  ∃ trie, compile_rules rules = Ok trie ∧
    ∀ p i, lookup_flags p trie !! i =
      if covered_by rules p i then Some (ends_rule rules p i) else None.
Proof.
  intros Hne.
  destruct (compile_loop_flags (sorted_by_len_desc rules) false []) as (trie & Htrie & Hflags).
  { apply Forall_forall. intros r Hr. rewrite elem_of_sorted_by_len_desc in Hr.
    rewrite Forall_forall in Hne. by apply Hne. }
  exists trie. split; [done|]. intros p i.
  rewrite Hflags, lookup_flags_nil, lookup_nil.
  rewrite (covered_by_perm _ rules), (ends_rule_perm _ rules);
    [done|intros r; apply elem_of_sorted_by_len_desc..].
Qed.

(** Equal lookups make equal dictionaries. *)
Lemma rule_dict_eq_of_lookups : ∀ d1 es2,
  (∀ p, lookup_flags p (rd_entries d1) = lookup_flags p es2) →
  rule_dict_eq (rd_entries d1) es2.
Proof.
  induction d1 as [es1 IH] using rule_dict_children_ind.
  intros es2 Hsame. cbn [rd_entries] in *. constructor. intros k.
  pose proof (Hsame [k]) as Hk. cbn [lookup_flags] in Hk.
  destruct (rd_lookup k es1) as [[f1 c1]|] eqn:H1,
           (rd_lookup k es2) as [[f2 c2]|] eqn:H2; try done.
  - constructor. cbn [fst snd]. split; [congruence|].
    apply (IH k f1 c1 H1). intros p.
    pose proof (Hsame (k :: p)) as Hp. cbn [lookup_flags] in Hp.
    rewrite H1, H2 in Hp. congruence.
  - constructor.
Qed.

(** The stable sort by decreasing length puts the empty tuples last. *)
Lemma insert_by_len_app (r : rule) (long empties : list rule) :
  Forall (λ r : rule, r ≠ []) long → Forall (λ r : rule, r = []) empties →
  insert_by_len r (long ++ empties) =
    match r with
    | [] => long ++ [] :: empties
    | _ :: _ => insert_by_len r long ++ empties
    end.
Proof.
  intros Hlong Hempties.
  induction Hlong as [|r' long Hr' Hlong IH]; cbn [app insert_by_len].
  - destruct Hempties as [|e empties -> Hempties]; [by destruct r|].
    cbn [insert_by_len length]. rewrite decide_False by lia. by destruct r.
  - destruct (decide (length r < length r')%nat) as [Hlt|Hge].
    + rewrite IH. by destruct r.
    + destruct r as [|c r'']; [|done].
      destruct r'; [done|]. cbn [length] in Hge. lia.
Qed.

Lemma sorted_by_len_desc_empties (rs : list rule) :
  sorted_by_len_desc rs =
    sorted_by_len_desc (filter (λ r : rule, r ≠ []) rs)
    ++ filter (λ r : rule, r = []) rs.
Proof.
  induction rs as [|r rs IH]; [done|].
  cbn [sorted_by_len_desc foldr]. fold (sorted_by_len_desc rs).
  rewrite IH, insert_by_len_app.
  - destruct r as [|c r'].
    + by rewrite filter_cons_False, filter_cons_True by naive_solver.
    + by rewrite filter_cons_True, filter_cons_False by naive_solver.
  - apply Forall_forall. intros r0 Hr0.
    apply elem_of_sorted_by_len_desc, list_elem_of_filter in Hr0. tauto.
  - apply Forall_forall. intros r0 Hr0.
    apply list_elem_of_filter in Hr0. tauto.
Qed.

Lemma compile_loop_app (long rest : list rule) : ∀ bound es,
  Forall (λ r : rule, r ≠ []) long →
  compile_loop (long ++ rest) bound es =
    es' ← compile_loop long bound es;
    compile_loop rest (bound || bool_decide (long ≠ [])) es'.
Proof.
  induction long as [|r long IH]; intros bound es Hlong.
  { cbn [app compile_loop mbind result_bind].
    by rewrite bool_decide_eq_false_2, orb_false_r by naive_solver. }
  apply Forall_cons in Hlong as [Hr Hlong].
  destruct r as [|c r']; [done|].
  cbn [app compile_loop]. rewrite IH by done.
  destruct (compile_loop long true _) as [es'|e]; [|done].
  cbn [mbind result_bind].
  rewrite (bool_decide_eq_true_2 ((c :: r') :: long ≠ [])) by done.
  by rewrite orb_true_r.
Qed.

Lemma compile_loop_empties (empties : list rule) bound es :
  Forall (λ r : rule, r = []) empties →
  compile_loop empties bound es =
    if bound || bool_decide (empties = []) then Ok es else Raise UnboundLocalError.
Proof.
  intros Hempties.
  induction Hempties as [|e empties -> Hempties IH]; cbn [compile_loop].
  - rewrite bool_decide_eq_true_2 by done. by rewrite orb_true_r.
  - rewrite (bool_decide_eq_false_2 ([] :: empties = [])), orb_false_r by done.
    destruct bound; [|done]. by rewrite IH.
Qed.

(** X1.  For a rule set without the empty tuple, the compiled dictionary
    holds a chain of keys exactly when the chain, read backwards, is the
    tail of a rule, and the flag at its end is set exactly when it is a
    whole rule: position [i] of a lookup of [p] exists when a rule ends
    with the first [i + 1] keys of [p] reversed, and is [True] when these
    are a rule. *)
Theorem rule_dictionary_paths (rules : list rule) :
  Forall (λ r : rule, r ≠ []) rules →
  ∃ trie, compile_rules rules = Ok trie ∧
    ∀ p i b, lookup_flags p trie !! i = Some b ↔
      (i < length p)%nat
      ∧ (∃ r, r ∈ rules ∧ take (S i) p `prefix_of` reverse r)
      ∧ (b = true ↔ reverse (take (S i) p) ∈ rules).
Proof.
  intros Hne. destruct (compile_rules_flags rules Hne) as (trie & Htrie & Hflags).
  exists trie. split; [done|]. intros p i b. rewrite Hflags.
  unfold covered_by, ends_rule.
  destruct (bool_decide (i < length p)%nat) eqn:Hlt; cbn [andb].
  2:{ apply bool_decide_eq_false in Hlt. naive_solver. }
  apply bool_decide_eq_true in Hlt.
  destruct (bool_decide (Exists (λ r, take (S i) p `prefix_of` reverse r) rules))
    eqn:Hex.
  - apply bool_decide_eq_true, Exists_exists in Hex.
    split.
    + intros [= <-]. split_and!; [done..|]. by rewrite bool_decide_eq_true.
    + intros (_ & _ & Hb). f_equal. apply eq_true_iff_eq.
      by rewrite bool_decide_eq_true.
  - apply bool_decide_eq_false in Hex. rewrite Exists_exists in Hex.
    naive_solver.
Qed.

Lemma rule_dictionary_paths_witness :
  Forall (λ r : rule, r ≠ []) FUSE_RULE_LIST
  ∧ ∃ trie, compile_rules FUSE_RULE_LIST = Ok trie ∧
      ∀ p i b, lookup_flags p trie !! i = Some b ↔
        (i < length p)%nat
        ∧ (∃ r, r ∈ FUSE_RULE_LIST ∧ take (S i) p `prefix_of` reverse r)
        ∧ (b = true ↔ reverse (take (S i) p) ∈ FUSE_RULE_LIST).
Proof.
  assert (Forall (λ r : rule, r ≠ []) FUSE_RULE_LIST) as Hne.
  { unfold FUSE_RULE_LIST. repeat (apply Forall_cons; split; [discriminate|]).
    apply Forall_nil_2. }
  split; [exact Hne|]. exact (rule_dictionary_paths FUSE_RULE_LIST Hne).
Defined.

(** X2.  Two lists that hold the same rules, in whatever order and however
    often, compile to equal dictionaries: every lookup reports the same
    flags in both, and they are equal as Python dictionaries. *)
Theorem rule_dictionary_order (rules1 rules2 : list rule) :
  Forall (λ r : rule, r ≠ []) rules1 →
  (∀ r, r ∈ rules1 ↔ r ∈ rules2) →
  ∃ trie1 trie2,
    compile_rules rules1 = Ok trie1 ∧ compile_rules rules2 = Ok trie2
    ∧ (∀ p, lookup_flags p trie1 = lookup_flags p trie2)
    ∧ rule_dict_eq trie1 trie2.
Proof.
  intros Hne1 Hsame.
  assert (Forall (λ r : rule, r ≠ []) rules2) as Hne2.
  { rewrite Forall_forall in *. intros r Hr. by apply Hne1, Hsame. }
  destruct (compile_rules_flags rules1 Hne1) as (trie1 & Htrie1 & Hflags1).
  destruct (compile_rules_flags rules2 Hne2) as (trie2 & Htrie2 & Hflags2).
  exists trie1, trie2.
  assert (∀ p, lookup_flags p trie1 = lookup_flags p trie2) as Hlookups.
  { intros p. apply list_eq. intros i. rewrite Hflags1, Hflags2.
    by rewrite (covered_by_perm rules1 rules2), (ends_rule_perm rules1 rules2). }
  split_and!; [done..|].
  apply (rule_dict_eq_of_lookups (RuleDict trie1)), Hlookups.
Qed.

Lemma rule_dictionary_order_witness :
  (Forall (λ r : rule, r ≠ []) FUSE_RULE_LIST
   ∧ ∀ r, r ∈ FUSE_RULE_LIST ↔ r ∈ reverse FUSE_RULE_LIST)
  ∧ ∃ trie1 trie2,
      compile_rules FUSE_RULE_LIST = Ok trie1
      ∧ compile_rules (reverse FUSE_RULE_LIST) = Ok trie2
      ∧ (∀ p, lookup_flags p trie1 = lookup_flags p trie2)
      ∧ rule_dict_eq trie1 trie2.
Proof.
  assert (Forall (λ r : rule, r ≠ []) FUSE_RULE_LIST) as Hne.
  { unfold FUSE_RULE_LIST. repeat (apply Forall_cons; split; [discriminate|]).
    apply Forall_nil_2. }
  assert (∀ r, r ∈ FUSE_RULE_LIST ↔ r ∈ reverse FUSE_RULE_LIST) as Hsame.
  { intros r. by rewrite elem_of_reverse. }
  split; [exact (conj Hne Hsame)|].
  exact (rule_dictionary_order FUSE_RULE_LIST (reverse FUSE_RULE_LIST) Hne Hsame).
Defined.

(** The two orders of the witness do give dictionaries whose entries are
    laid out differently. *)
Example example_rule_orders_differ :
  compile_rules FUSE_RULE_LIST ≠ compile_rules (reverse FUSE_RULE_LIST).
Proof. by vm_compute. Qed.

(** X3.  Empty tuples in the rule set: next to other rules they are passed
    over, the dictionary being that of the other rules; a rule set of empty
    tuples only makes the compiler fail on its unassigned
    [base_rule_pair]; no rules at all give the empty dictionary. *)
Theorem compile_rules_empty_tuples (rules : list rule) :
  compile_rules rules =
    match filter (λ r : rule, r ≠ []) rules with
    | [] => if decide (rules = []) then Ok [] else Raise UnboundLocalError
    | (_ :: _) as others => compile_rules others
    end.
Proof.
  unfold compile_rules at 1.
  rewrite sorted_by_len_desc_empties.
  set (others := filter (λ r : rule, r ≠ []) rules).
  set (empties := filter (λ r : rule, r = []) rules).
  assert (Forall (λ r : rule, r ≠ []) (sorted_by_len_desc others)) as Hlong.
  { apply Forall_forall. intros r Hr.
    apply elem_of_sorted_by_len_desc, list_elem_of_filter in Hr. tauto. }
  assert (Forall (λ r : rule, r = []) empties) as Hempties.
  { apply Forall_forall. intros r Hr. apply list_elem_of_filter in Hr. tauto. }
  rewrite compile_loop_app by done.
  destruct others as [|r others'] eqn:Hothers.
  - cbn [sorted_by_len_desc foldr compile_loop mbind result_bind orb].
    rewrite compile_loop_empties by done. cbn [orb].
    destruct (decide (rules = [])) as [->|Hrules]; [done|].
    rewrite (bool_decide_eq_false_2 ([] ≠ [])) by naive_solver. cbn [orb].
    rewrite bool_decide_eq_false_2; [done|].
    intros Hnil. destruct rules as [|r rules']; [done|].
    destruct r as [|c r'].
    + subst empties. by rewrite filter_cons_True in Hnil.
    + subst others. by rewrite filter_cons_True in Hothers.
  - unfold compile_rules.
    destruct (compile_loop_terminal (sorted_by_len_desc (r :: others')) false [] Hlong)
      as (es' & -> & _).
    cbn [mbind result_bind]. rewrite compile_loop_empties by done.
    rewrite (bool_decide_eq_true_2 (sorted_by_len_desc _ ≠ [])); [done|].
    intros Hnil. assert (r ∈ sorted_by_len_desc (r :: others')) as Hin.
    { apply elem_of_sorted_by_len_desc. by left. }
    rewrite Hnil in Hin. by apply elem_of_nil in Hin.
Qed.

(** X4.  The dictionary for post-training quantization: for rule tables
    without the empty tuple it accepts a chain exactly when the chain is a
    rule of the QAT table or a PTQ-only rule whose torch version is
    reached; so every QAT rule is a PTQ rule, whatever the version. *)
Theorem ptq_rule_dictionary (torch_at_least : string → bool)
    (qat_rules : list rule) (ptq_only : list (rule * string)) :
  Forall (λ r : rule, r ≠ []) qat_rules →
  Forall (λ kv : rule * string, kv.1 ≠ []) ptq_only →
  ∃ trie,
    load_processed_ptq_rules torch_at_least qat_rules ptq_only [] = Ok (trie, trie)
    ∧ (∀ p, terminal_at p trie = true ↔
            reverse p ∈ qat_rules
            ∨ ∃ v, (reverse p, v) ∈ ptq_only ∧ torch_at_least v = true)
    ∧ (∀ qat_trie p, compile_rules qat_rules = Ok qat_trie →
                     terminal_at p qat_trie = true → terminal_at p trie = true).
Proof.
  intros Hqat Hptq. unfold load_processed_ptq_rules, compile_rules.
  set (filtered := (filter (λ kv : rule * string, torch_at_least kv.2 = true)
                           ptq_only).*1).
  assert (∀ r, r ∈ remove_dups (qat_rules ++ filtered) ↔
               r ∈ qat_rules ∨ ∃ v, (r, v) ∈ ptq_only ∧ torch_at_least v = true)
    as Hin.
  { intros r. rewrite elem_of_remove_dups, elem_of_app. subst filtered.
    rewrite list_elem_of_fmap. split; intros [?|H]; try by left.
    - right. destruct H as ([r' v] & -> & Hkv).
      apply list_elem_of_filter in Hkv as [Hv Hkv]. exists v. by split.
    - right. destruct H as (v & Hkv & Hv). exists (r, v). split; [done|].
      by apply list_elem_of_filter. }
  destruct (compile_loop_terminal
              (sorted_by_len_desc (remove_dups (qat_rules ++ filtered))) false [])
    as (trie & Htrie & Hterm).
  { apply Forall_forall. intros r Hr.
    apply elem_of_sorted_by_len_desc, Hin in Hr as [Hr|(v & Hr & _)].
    - rewrite Forall_forall in Hqat. by apply Hqat.
    - rewrite Forall_forall in Hptq. by apply (Hptq (r, v)). }
  exists trie. rewrite decide_True by done. rewrite Htrie.
  cbn [mbind result_bind app].
  assert (∀ p, terminal_at p trie = true ↔
               reverse p ∈ qat_rules
               ∨ ∃ v, (reverse p, v) ∈ ptq_only ∧ torch_at_least v = true)
    as Haccept.
  { intros p. rewrite Hterm, elem_of_sorted_by_len_desc, Hin.
    assert (terminal_at p [] = false) as -> by (by destruct p).
    naive_solver. }
  split_and!; [done|done|].
  intros qat_trie p Hcompile Hp. apply Haccept. left.
  destruct (compile_loop_terminal (sorted_by_len_desc qat_rules) false [])
    as (qat_trie' & Hqat_trie & Hqat_term).
  { apply Forall_forall. intros r Hr. rewrite elem_of_sorted_by_len_desc in Hr.
    rewrite Forall_forall in Hqat. by apply Hqat. }
  unfold compile_rules in Hcompile.
  assert (qat_trie' = qat_trie) as -> by congruence.
  apply Hqat_term in Hp as [Hp|Hp].
  - by destruct p.
  - by rewrite elem_of_sorted_by_len_desc in Hp.
Qed.

Lemma ptq_rule_dictionary_witness :
  (Forall (λ r : rule, r ≠ []) FUSE_RULE_LIST
   ∧ Forall (λ kv : rule * string, kv.1 ≠ []) FUSE_RULE_LIST_PTQ_ONLY)
  ∧ ∃ trie,
      load_processed_ptq_rules (λ v, bool_decide (v = "1.8.0"))
        FUSE_RULE_LIST FUSE_RULE_LIST_PTQ_ONLY [] = Ok (trie, trie)
      ∧ (∀ p, terminal_at p trie = true ↔
              reverse p ∈ FUSE_RULE_LIST
              ∨ ∃ v, (reverse p, v) ∈ FUSE_RULE_LIST_PTQ_ONLY
                     ∧ bool_decide (v = "1.8.0") = true)
      ∧ (∀ qat_trie p, compile_rules FUSE_RULE_LIST = Ok qat_trie →
                       terminal_at p qat_trie = true → terminal_at p trie = true).
Proof.
  assert (Forall (λ r : rule, r ≠ []) FUSE_RULE_LIST) as Hqat.
  { unfold FUSE_RULE_LIST. repeat (apply Forall_cons; split; [discriminate|]).
    apply Forall_nil_2. }
  assert (Forall (λ kv : rule * string, kv.1 ≠ []) FUSE_RULE_LIST_PTQ_ONLY) as Hptq.
  { unfold FUSE_RULE_LIST_PTQ_ONLY.
    repeat (apply Forall_cons; split; [discriminate|]). apply Forall_nil_2. }
  split; [exact (conj Hqat Hptq)|].
  exact (ptq_rule_dictionary (λ v, bool_decide (v = "1.8.0"))
           FUSE_RULE_LIST FUSE_RULE_LIST_PTQ_ONLY Hqat Hptq).
Defined.

(* ================================================================== *)
(** * The fusion matcher, further *)

Section fusable_chain_lemmas.
Context (graph : TraceGraph) (use_original_name : bool) (used : gset string).

(** The nodes behind the steps of a walk: each is the one predecessor of
    the node before it, and their operator types are a chain of keys of the
    dictionary whose flags are those of the steps. *)
Lemma walk_steps_nodes rules : ∀ cur_node steps,
  walk_steps graph use_original_name used rules cur_node = Ok steps →
  ∃ nodes,
    (steps ≠ [] → head nodes = Some cur_node)
    ∧ (∀ i b a, nodes !! i = Some b → nodes !! S i = Some a →
                only_predecessor graph a b)
    ∧ Forall2 (λ node (step : string * bool),
                 cur_name_of use_original_name graph node = Ok step.1)
              nodes steps
    ∧ lookup_flags (node_class <$> nodes) (rd_entries rules) = steps.*2.
Proof.
  induction rules as [es IH] using rule_dict_children_ind.
  intros cur_node steps. rewrite walk_steps_unfold. cbn [rd_entries].
  assert (∃ nodes : list TraceNode,
            (([] : list (string * bool)) ≠ [] → head nodes = Some cur_node)
            ∧ (∀ i b a, nodes !! i = Some b → nodes !! S i = Some a →
                        only_predecessor graph a b)
            ∧ Forall2 (λ node (step : string * bool),
                         cur_name_of use_original_name graph node = Ok step.1)
                      nodes []
            ∧ lookup_flags (node_class <$> nodes) es = ([] : list (string * bool)).*2)
    as Hnone.
  { exists []. split_and!; [done|by intros i b a [=]|constructor|done]. }
  destruct (rd_lookup (node_class cur_node) es) as [[st child]|] eqn:Hk;
    [|by intros [= <-]].
  destruct (cur_name_of use_original_name graph cur_node) as [cur_name|e]
    eqn:Hname; [|done].
  cbn [mbind result_bind].
  destruct (decide (cur_name ∈ used)); [by intros [= <-]|].
  destruct (decide (length (prev_nodes cur_node) = 0%nat)); [by intros [= <-]|].
  assert (∃ nodes : list TraceNode,
            ([(cur_name, st)] ≠ [] → head nodes = Some cur_node)
            ∧ (∀ i b a, nodes !! i = Some b → nodes !! S i = Some a →
                        only_predecessor graph a b)
            ∧ Forall2 (λ node (step : string * bool),
                         cur_name_of use_original_name graph node = Ok step.1)
                      nodes [(cur_name, st)]
            ∧ lookup_flags (node_class <$> nodes) es = [(cur_name, st)].*2)
    as Hone.
  { exists [cur_node]. split_and!; [done|by intros [|i] b a [=] [=]| |].
    - by repeat constructor.
    - cbn [fmap list_fmap lookup_flags]. by rewrite Hk. }
  destruct (prev_nodes cur_node) as [|prev [|prev' prevs]] eqn:Hprev;
    [by intros [= <-]| |by intros [= <-]].
  destruct (nodes_map graph !! prev) as [prev_node|] eqn:Hprev_node; [|done].
  destruct (walk_steps graph use_original_name used child prev_node)
    as [rest|e] eqn:Hrest; [|done].
  cbn [mbind result_bind]. intros [= <-].
  destruct (IH _ _ _ Hk prev_node rest Hrest) as (nodes & Hhead & Hlink & Hnames & Hflags).
  exists (cur_node :: nodes). split_and!.
  - done.
  - intros [|i] b a Hb Ha.
    + injection Hb as <-. cbn in Ha.
      assert (rest ≠ []) as Hne.
      { intros ->. apply Forall2_nil_inv_r in Hnames as ->. done. }
      apply Hhead in Hne. destruct nodes as [|a' nodes']; [done|].
      cbn in Hne, Ha. assert (a = prev_node) as -> by congruence.
      by exists prev.
    + by eapply Hlink.
  - by constructor.
  - cbn [fmap list_fmap lookup_flags]. rewrite Hk. cbn [fst snd].
    by rewrite <-Hflags.
Qed.
End fusable_chain_lemmas.

Lemma longest_terminal_prefix_take steps :
  longest_terminal_prefix steps
  = take (length (longest_terminal_prefix steps)) steps.*1.
Proof.
  destruct (longest_terminal_prefix_prefix steps) as [rest Hrest].
  rewrite Hrest. by rewrite take_app_length.
Qed.

(** With the dictionary compiled from a rule set, a call of the matcher
    that reports a match has appended one chain, whose names are those of a
    run of nodes ending with the node it was called on, each the only
    predecessor of the next, and the operator types of these nodes, in
    forward order, are one of the rules. *)
Lemma is_fusable_chain graph (rules : list rule) trie node data
    check_node_quantized use_original_name data' :
  Forall (λ r : rule, r ≠ []) rules →
  compile_rules rules = Ok trie →
  is_fusable node data (Some trie) check_node_quantized use_original_name graph
    = Ok (true, data') →
  ∃ nodes chain,
    quant_list data' = quant_list data ++ [chain]
    ∧ consumed data' = consumed data ∪ list_to_set chain
    ∧ last nodes = Some node
    ∧ Forall2 (λ n name, cur_name_of use_original_name graph n = Ok name)
              nodes chain
    ∧ (∀ i a b, nodes !! i = Some a → nodes !! S i = Some b →
                only_predecessor graph a b)
    ∧ node_class <$> nodes ∈ rules.
Proof.
  intros Hne Hcompile. rewrite is_fusable_walk_steps.
  destruct (check_node_quantized && negb (quantized node)); [done|].
  destruct (walk_steps _ _ _ _ _) as [steps|e] eqn:Hsteps; [|done].
  cbn [mbind result_bind]. cbn zeta.
  destruct (decide (longest_terminal_prefix steps = [])) as [|Hbest]; [done|].
  intros [= <-]. cbn [quant_list consumed].
  set (best := longest_terminal_prefix steps) in *.
  destruct (walk_steps_nodes _ _ _ _ _ _ Hsteps)
    as (walk & Hhead & Hlink & Hnames & Hflags).
  cbn [rd_entries] in Hflags.
  assert (length walk = length steps) as Hlen by (by eapply Forall2_length).
  assert (length best ≤ length steps)%nat as Hle.
  { rewrite <-(length_fmap fst steps).
    apply prefix_length, longest_terminal_prefix_prefix. }
  assert (0 < length best)%nat as Hpos by (destruct best; cbn; [done|lia]).
  exists (reverse (take (length best) walk)), (reverse best).
  split_and!; [done|done| | | |].
  - rewrite last_reverse. destruct walk as [|w walk'].
    + cbn in Hlen. lia.
    + destruct (length best) as [|k] eqn:Hk; [lia|]. cbn.
      apply Hhead. intros ->. cbn in Hlen. lia.
  - apply Forall2_reverse. unfold best at 2.
    rewrite longest_terminal_prefix_take. fold best.
    apply Forall2_take. apply Forall2_fmap_r.
    eapply Forall2_impl; [exact Hnames|]. by intros n0 [name flag].
  - intros i a b Ha Hb.
    assert (S i < length (take (length best) walk))%nat as Hi.
    { apply lookup_lt_Some in Hb. by rewrite length_reverse in Hb. }
    rewrite reverse_lookup in Ha by lia.
    rewrite reverse_lookup in Hb by lia.
    rewrite lookup_take_Some in Ha, Hb.
    destruct Ha as [Ha _], Hb as [Hb _].
    eapply (Hlink (length (take (length best) walk) - S (S i))%nat b a); [done|].
    rewrite <-Ha. f_equal. lia.
  - destruct (longest_terminal_prefix_last steps Hbest) as [name Hlast].
    fold best in Hlast.
    destruct (compile_rules_flags rules Hne) as (trie' & Htrie' & Hspec).
    assert (trie' = trie) as -> by congruence.
    specialize (Hspec (node_class <$> walk) (length best - 1)%nat).
    rewrite Hflags, list_lookup_fmap, Hlast in Hspec. cbn in Hspec.
    destruct (covered_by rules _ _); [|done].
    injection Hspec as Hend. symmetry in Hend.
    apply bool_decide_eq_true in Hend.
    replace (S (length best - 1)) with (length best) in Hend by lia.
    by rewrite fmap_reverse, fmap_take.
Qed.

(** A call that reports no match leaves the collected chains alone. *)
Lemma is_fusable_no_match node data rules check_node_quantized
    use_original_name graph data' :
  is_fusable node data rules check_node_quantized use_original_name graph
    = Ok (false, data') →
  data' = data.
Proof.
  destruct rules as [rules|]; [|by intros [= <-]].
  rewrite is_fusable_walk_steps.
  destruct (check_node_quantized && negb (quantized node)); [by intros [= <-]|].
  destruct (walk_steps _ _ _ _ _) as [steps|e]; [|done].
  cbn [mbind result_bind]. cbn zeta.
  by destruct (decide (longest_terminal_prefix steps = [])); intros [= <-].
Qed.

(** X5.  With the dictionary compiled from a rule set, every chain the
    fusion search collects is a rule laid over the graph: its names are
    those of a run of nodes, each the only predecessor of the next, that
    ends with one of the nodes the matcher was called on, and the operator
    types of these nodes, in forward order, are one of the rules. *)
Theorem fused_chains_are_rules graph (rules : list rule) trie anchors
    check_node_quantized use_original_name data :
  Forall (λ r : rule, r ≠ []) rules →
  compile_rules rules = Ok trie →
  fusable_calls anchors {| quant_list := []; consumed := ∅ |} (Some trie)
    check_node_quantized use_original_name graph = Ok data →
  ∀ chain, chain ∈ quant_list data →
    ∃ nodes anchor,
      anchor ∈ anchors
      ∧ last nodes = Some anchor
      ∧ Forall2 (λ n name, cur_name_of use_original_name graph n = Ok name)
                nodes chain
      ∧ (∀ i a b, nodes !! i = Some a → nodes !! S i = Some b →
                  only_predecessor graph a b)
      ∧ node_class <$> nodes ∈ rules.
Proof.
  intros Hne Hcompile.
  assert (∀ calls data0 data1,
            fusable_calls calls data0 (Some trie) check_node_quantized
              use_original_name graph = Ok data1 →
            ∀ chain, chain ∈ quant_list data1 →
              chain ∈ quant_list data0
              ∨ ∃ nodes anchor,
                  anchor ∈ calls
                  ∧ last nodes = Some anchor
                  ∧ Forall2 (λ n name,
                               cur_name_of use_original_name graph n = Ok name)
                            nodes chain
                  ∧ (∀ i a b, nodes !! i = Some a → nodes !! S i = Some b →
                              only_predecessor graph a b)
                  ∧ node_class <$> nodes ∈ rules) as Hcalls.
  { induction calls as [|node calls IH]; intros data0 data1.
    { intros [= <-] chain Hchain. by left. }
    cbn [fusable_calls].
    destruct (is_fusable node data0 (Some trie) check_node_quantized
                use_original_name graph) as [[found data']|e] eqn:Hcall; [|done].
    cbn [mbind result_bind]. intros Hrest chain Hchain.
    destruct (IH data' data1 Hrest chain Hchain)
      as [Hold|(nodes & anchor & Hanchor & Hrule)].
    2:{ right. exists nodes, anchor. split; [by right|done]. }
    destruct found.
    - destruct (is_fusable_chain _ _ _ _ _ _ _ _ Hne Hcompile Hcall)
        as (nodes & chain' & Hlist & _ & Hlast & Hnames & Hlink & Hclass).
      rewrite Hlist in Hold. apply elem_of_app in Hold as [Hold|Hold]; [by left|].
      apply list_elem_of_singleton in Hold as ->.
      right. exists nodes, node. split; [by left|done].
    - apply is_fusable_no_match in Hcall as ->. by left. }
  intros Hrun chain Hchain.
  destruct (Hcalls anchors _ _ Hrun chain Hchain) as [Hnil|Hrule]; [|done].
  cbn [quant_list] in Hnil. by apply elem_of_nil in Hnil.
Qed.

Lemma fused_chains_are_rules_witness :
  (Forall (λ r : rule, r ≠ []) FUSE_RULE_LIST
   ∧ compile_rules FUSE_RULE_LIST = Ok example_rules
   ∧ fusable_calls example_anchors {| quant_list := []; consumed := ∅ |}
       (Some example_rules) true true (analysed_graph example_analysis)
     = Ok example_fusions)
  ∧ ∀ chain, chain ∈ quant_list example_fusions →
      ∃ nodes anchor,
        anchor ∈ example_anchors
        ∧ last nodes = Some anchor
        ∧ Forall2 (λ n name,
                     cur_name_of true (analysed_graph example_analysis) n = Ok name)
                  nodes chain
        ∧ (∀ i a b, nodes !! i = Some a → nodes !! S i = Some b →
                    only_predecessor (analysed_graph example_analysis) a b)
        ∧ node_class <$> nodes ∈ FUSE_RULE_LIST.
Proof.
  assert (Forall (λ r : rule, r ≠ []) FUSE_RULE_LIST) as Hne.
  { unfold FUSE_RULE_LIST. repeat (apply Forall_cons; split; [discriminate|]).
    apply Forall_nil_2. }
  assert (compile_rules FUSE_RULE_LIST = Ok example_rules) as Hrules
    by (vm_compute; reflexivity).
  assert (fusable_calls example_anchors {| quant_list := []; consumed := ∅ |}
            (Some example_rules) true true (analysed_graph example_analysis)
          = Ok example_fusions) as Hrun
    by (vm_compute; reflexivity).
  split; [exact (conj Hne (conj Hrules Hrun))|].
  exact (fused_chains_are_rules (analysed_graph example_analysis) FUSE_RULE_LIST
           example_rules example_anchors true true example_fusions
           Hne Hrules Hrun).
Defined.

(* ================================================================== *)
(** * The quantization propagator, further *)

(** Without a QuantStub and with every flag on the queue unset, a round
    puts no set flag on the queue, marks only DeQuantStub nodes, and leaves
    the graph flag as it was. *)
Lemma writes_round_float graph w :
  (∀ n node, nodes_map graph !! n = Some node → module_is QuantStub node = false) →
  (∀ n q, (n, q) ∈ fw_queue w → q = false) →
  (∀ n flag, fw_flags w !! n = Some flag →
             ∃ node, nodes_map graph !! n = Some node
                     ∧ flag = module_is DeQuantStub node) →
  fw_any w = false →
  (∀ n q, (n, q) ∈ fw_queue (writes_round graph w) → q = false)
  ∧ (∀ n flag, fw_flags (writes_round graph w) !! n = Some flag →
               ∃ node, nodes_map graph !! n = Some node
                       ∧ flag = module_is DeQuantStub node)
  ∧ fw_any (writes_round graph w) = false.
Proof.
  destruct w as [queue seen flags any]. intros Hstub Hqueue Hflags Hany.
  unfold writes_round. cbn [fw_queue fw_visited fw_flags fw_any] in *.
  destruct queue as [|[name q] rest]; [done|].
  assert (q = false) as -> by (apply (Hqueue name); by left).
  assert (∀ n q, (n, q) ∈ rest → q = false) as Hrest.
  { intros n q Hin. apply (Hqueue n). by right. }
  subst any. cbn [orb].
  destruct (decide (name ∈ seen)) as [Hin|Hfresh]; [done|].
  destruct (decide (name ∈ output_nodes graph)) as [Hout|Hinner]; [done|].
  destruct (nodes_map graph !! name) as [node|] eqn:Hnode; [|done].
  cbn [fw_queue fw_flags fw_any].
  pose proof (Hstub name node Hnode) as Hq.
  split_and!; [| |done].
  - intros n q Hin. apply elem_of_app in Hin as [Hin|Hin]; [by eapply Hrest|].
    apply list_elem_of_fmap in Hin as (n' & [= -> ->] & _).
    unfold onward_flag. rewrite Hq. by destruct (module_is DeQuantStub node).
  - intros n flag Hn. destruct (decide (n = name)) as [->|Hne].
    + rewrite lookup_insert_eq in Hn. injection Hn as <-.
      exists node. split; [done|]. unfold node_flag. rewrite Hq.
      by destruct (module_is DeQuantStub node).
    + rewrite lookup_insert_ne in Hn by done. by apply Hflags.
Qed.

Lemma writes_loop_float graph rounds : ∀ w,
  (∀ n node, nodes_map graph !! n = Some node → module_is QuantStub node = false) →
  (∀ n q, (n, q) ∈ fw_queue w → q = false) →
  (∀ n flag, fw_flags w !! n = Some flag →
             ∃ node, nodes_map graph !! n = Some node
                     ∧ flag = module_is DeQuantStub node) →
  fw_any w = false →
  (∀ n flag, fw_flags (writes_loop graph rounds w) !! n = Some flag →
             ∃ node, nodes_map graph !! n = Some node
                     ∧ flag = module_is DeQuantStub node)
  ∧ fw_any (writes_loop graph rounds w) = false.
Proof.
  induction rounds as [|rounds IH]; intros w Hstub Hqueue Hflags Hany; [done|].
  destruct (writes_round_float graph w Hstub Hqueue Hflags Hany)
    as (Hqueue' & Hflags' & Hany').
  cbn [writes_loop]. destruct (fw_queue w); [done|]. by apply IH.
Qed.

(** The flags on the queue at the start. *)
Lemma constant_seeds_flags graph names : ∀ seeds,
  constant_seeds graph names = Ok seeds →
  ∀ n q, (n, q) ∈ seeds →
    n ∈ names ∧
    ∃ t, head (from_option next_tensors [] (nodes_map graph !! n)) = Some t
         ∧ q = negb (bool_decide (tensor_dtype t = float32)).
Proof.
  induction names as [|name names IH]; intros seeds; cbn [constant_seeds].
  { intros [= <-] n q Hin. by apply elem_of_nil in Hin. }
  destruct (from_option next_tensors [] (nodes_map graph !! name))
    as [|t ts] eqn:Hts; [done|].
  destruct (constant_seeds graph names) as [seeds'|e]; [|done].
  cbn [mbind result_bind]. intros [= <-] n q Hin.
  apply elem_of_cons in Hin as [[= -> ->]|Hin].
  - split; [by left|]. exists t. by rewrite Hts.
  - destruct (IH seeds' eq_refl n q Hin) as [Hn Ht]. split; [by right|done].
Qed.

Lemma elem_of_zip_r {A B} (l : list A) (k : list B) (a : A) (b : B) :
  (a, b) ∈ zip l k → b ∈ k.
Proof.
  revert k. induction l as [|a' l IH]; intros [|b' k] Hin;
    try by apply elem_of_nil in Hin.
  cbn [zip zip_with] in Hin. apply elem_of_cons in Hin as [[= -> ->]|Hin].
  - by left.
  - right. by apply IH.
Qed.

(** X6.  A float graph stays float.  When no input is declared quantized,
    every constant is float32 and the graph has no QuantStub, the analysis
    runs through, leaves the graph flag unset if it was, and gives every
    node it marks, output nodes apart, the flag [False], but [True] to a
    DeQuantStub. *)
Theorem float_graph_stays_float graph is_input_quantized creation_func_names st :
  (∀ n node, nodes_map graph !! n = Some node → module_is QuantStub node = false) →
  (∀ flags, is_input_quantized = Some flags → Forall (λ q, q = false) flags) →
  (∀ n node t, nodes_map graph !! n = Some node → head (next_tensors node) = Some t →
               n ∈ constant_nodes graph
                   ++ filter_forward_nodes
                        (is_extra_constant_node creation_func_names) graph →
               tensor_dtype t = float32) →
  prepare_qat_prep graph is_input_quantized creation_func_names = Ok st →
  graph_quantized (analysed_graph st) = graph_quantized graph
  ∧ ∀ n node, n ∈ visited st → n ∉ output_nodes graph →
              nodes_map graph !! n = Some node →
              node_quantized (analysed_graph st) n
              = Some (module_is DeQuantStub node).
Proof.
  intros Hstub Hinputs Hconstants. unfold prepare_qat_prep.
  destruct (analysis_seeds _ _ _) as [seeds|e] eqn:Hseeds; [|done].
  cbn [mbind result_bind]. intros [= <-].
  assert (∀ n q, (n, q) ∈ seeds → q = false) as Hunset.
  { unfold analysis_seeds in Hseeds.
    destruct (input_seeds graph is_input_quantized) as [inputs|e] eqn:Hin; [|done].
    cbn [mbind result_bind] in Hseeds.
    destruct (constant_seeds graph _) as [constants|e] eqn:Hconst; [|done].
    cbn [mbind result_bind] in Hseeds. injection Hseeds as <-.
    intros n q Hnq. apply elem_of_app in Hnq as [Hnq|Hnq].
    - unfold input_seeds in Hin.
      destruct is_input_quantized as [flags|].
      + destruct (decide (length flags = length (input_nodes graph))); [|done].
        injection Hin as <-. apply elem_of_zip_r in Hnq.
        specialize (Hinputs flags eq_refl). rewrite Forall_forall in Hinputs.
        by apply Hinputs.
      + injection Hin as <-. by apply list_elem_of_fmap in Hnq as (n' & [= _ ->] & _).
    - destruct (constant_seeds_flags _ _ _ Hconst n q Hnq) as (Hn & t & Ht & ->).
      destruct (nodes_map graph !! n) as [node|] eqn:Hnode; [|done].
      cbn [from_option] in Ht.
      rewrite (Hconstants n node t Hnode Ht Hn).
      by rewrite bool_decide_eq_true_2. }
  rewrite run_analysis_writes.
  destruct (writes_loop_final graph seeds) as [_ Hinv].
  destruct (writes_loop_float graph (analysis_rounds graph seeds)
              (initial_writes seeds) Hstub) as [Hflags Hany].
  { done. }
  { intros n flag Hn. cbn [initial_writes fw_flags] in Hn.
    by rewrite lookup_empty in Hn. }
  { done. }
  set (w := writes_loop graph (analysis_rounds graph seeds) (initial_writes seeds))
    in *.
  unfold state_of_writes, writes_over.
  cbn [visited analysed_graph fw_queue fw_visited fw_flags fw_any].
  split.
  - change (graph_quantized (with_flags ?f ?a ?g)) with a.
    rewrite Hany. by rewrite orb_false_r.
  - intros n node Hn Hout Hnode.
    assert (is_Some (fw_flags w !! n)) as [flag Hflag].
    { apply (inv_dom _ _ _ Hinv). split_and!; by eauto. }
    destruct (Hflags n flag Hflag) as (node' & Hnode' & ->).
    assert (node' = node) as -> by congruence.
    unfold node_quantized.
    by rewrite with_flags_lookup, Hnode, (right_id_L ∅ (∪)), Hflag.
Qed.

Lemma float_graph_stays_float_witness :
  ((∀ n node, nodes_map example_float_graph !! n = Some node →
              module_is QuantStub node = false)
   ∧ (∀ flags, Some [false] = Some flags → Forall (λ q, q = false) flags)
   ∧ (∀ n node t, nodes_map example_float_graph !! n = Some node →
                  head (next_tensors node) = Some t →
                  n ∈ constant_nodes example_float_graph
                      ++ filter_forward_nodes (is_extra_constant_node ["torch.zeros"])
                           example_float_graph →
                  tensor_dtype t = float32)
   ∧ prepare_qat_prep example_float_graph (Some [false]) ["torch.zeros"]
     = Ok example_float_analysis)
  ∧ graph_quantized (analysed_graph example_float_analysis)
    = graph_quantized example_float_graph
  ∧ ∀ n node,
      n ∈ visited example_float_analysis →
      n ∉ output_nodes example_float_graph →
      nodes_map example_float_graph !! n = Some node →
      node_quantized (analysed_graph example_float_analysis) n
      = Some (module_is DeQuantStub node).
Proof.
  assert (∀ n node, nodes_map example_float_graph !! n = Some node →
                    module_is QuantStub node = false) as H1.
  { intros n node Hnode. apply elem_of_list_to_map_2 in Hnode.
    repeat (apply elem_of_cons in Hnode as [Hnode|Hnode];
            [injection Hnode as -> ->; reflexivity|]).
    apply elem_of_nil in Hnode. destruct Hnode. }
  assert (∀ flags, Some [false] = Some flags → Forall (λ q, q = false) flags)
    as H2.
  { intros flags Hflags. injection Hflags as <-.
    apply Forall_cons. split; [reflexivity|apply Forall_nil_2]. }
  assert (∀ n node t, nodes_map example_float_graph !! n = Some node →
                      head (next_tensors node) = Some t →
                      n ∈ constant_nodes example_float_graph
                          ++ filter_forward_nodes
                               (is_extra_constant_node ["torch.zeros"])
                               example_float_graph →
                      tensor_dtype t = float32) as H3.
  { intros n node t Hnode Ht Hn. apply elem_of_list_to_map_2 in Hnode.
    change (n ∈ ["const_0"; "zeros_0"]) in Hn.
    repeat (apply elem_of_cons in Hnode as [Hnode|Hnode];
            [injection Hnode as -> ->;
             first [ injection Ht as <-; reflexivity | discriminate Ht ]|]).
    apply elem_of_nil in Hnode. destruct Hnode. }
  assert (prepare_qat_prep example_float_graph (Some [false]) ["torch.zeros"]
          = Ok example_float_analysis) as H4
    by (vm_compute; reflexivity).
  split; [exact (conj H1 (conj H2 (conj H3 H4)))|].
  exact (float_graph_stays_float example_float_graph (Some [false]) ["torch.zeros"]
           example_float_analysis H1 H2 H3 H4).
Defined.

(** In that example the analysis marks every node; the sums and the ReLU
    stay float and the DeQuantStub alone is flagged. *)
Example example_float_flags :
  (λ n, bool_decide (n ∈ visited example_float_analysis))
    <$> ["input_0"; "const_0"; "zeros_0"; "add_0"; "add_1"; "fake_dequant_0";
         "relu_0"; "output_0"]
  = [true; true; true; true; true; true; true; true]
  ∧ node_quantized (analysed_graph example_float_analysis)
      <$> ["input_0"; "const_0"; "zeros_0"; "add_0"; "add_1"; "fake_dequant_0";
           "relu_0"]
    = [Some false; Some false; Some false; Some false; Some false; Some true;
       Some false]
  ∧ graph_quantized (analysed_graph example_float_analysis) = false.
Proof. split_and!; vm_compute; reflexivity. Qed.

Lemma constant_seeds_result graph names :
  match constant_seeds graph names with
  | Ok seeds =>
      Forall (λ n, from_option next_tensors [] (nodes_map graph !! n) ≠ []) names
  | Raise e =>
      e = IndexError
      ∧ ¬ Forall (λ n, from_option next_tensors [] (nodes_map graph !! n) ≠ [])
                 names
  end.
Proof.
  induction names as [|name names IH]; cbn [constant_seeds]; [done|].
  destruct (from_option next_tensors [] (nodes_map graph !! name))
    as [|t ts] eqn:Hts.
  { split; [done|]. intros Hall. apply Forall_cons in Hall as [Hname _].
    by rewrite Hts in Hname. }
  destruct (constant_seeds graph names) as [seeds|e]; cbn [mbind result_bind].
  - apply Forall_cons. split; [by rewrite Hts|done].
  - destruct IH as [-> Hnot]. split; [done|].
    intros Hall. apply Forall_cons in Hall as [_ Hall]. by apply Hnot.
Qed.

(** X7.  The two ways the analysis can fail, and no other: it raises the
    bare [AssertionError] exactly when [is_input_quantized] is given and its
    length is not the number of inputs, whatever the constants are; it
    raises [IndexError] exactly when that check passes and a constant node
    has no output tensor; otherwise the loop runs to its end. *)
Theorem prepare_qat_prep_failures graph is_input_quantized creation_func_names :
  (prepare_qat_prep graph is_input_quantized creation_func_names
   = Raise (AssertionError EmptyString)
   ↔ ∃ flags, is_input_quantized = Some flags
              ∧ length flags ≠ length (input_nodes graph))
  ∧ (prepare_qat_prep graph is_input_quantized creation_func_names
     = Raise IndexError
     ↔ (∀ flags, is_input_quantized = Some flags →
                 length flags = length (input_nodes graph))
       ∧ ∃ n, n ∈ constant_nodes graph
                  ++ filter_forward_nodes
                       (is_extra_constant_node creation_func_names) graph
              ∧ from_option next_tensors [] (nodes_map graph !! n) = [])
  ∧ (is_ok (prepare_qat_prep graph is_input_quantized creation_func_names) = false
     → prepare_qat_prep graph is_input_quantized creation_func_names
       = Raise (AssertionError EmptyString)
       ∨ prepare_qat_prep graph is_input_quantized creation_func_names
         = Raise IndexError).
Proof.
  unfold prepare_qat_prep, analysis_seeds.
  set (constants := constant_nodes graph
                    ++ filter_forward_nodes
                         (is_extra_constant_node creation_func_names) graph).
  pose proof (constant_seeds_result graph constants) as Hconst.
  assert (¬ Forall (λ n, from_option next_tensors [] (nodes_map graph !! n) ≠ [])
              constants
          ↔ ∃ n, n ∈ constants
                 ∧ from_option next_tensors [] (nodes_map graph !! n) = [])
    as Hexists.
  { rewrite Forall_forall. split.
    - intros Hnot.
      destruct (decide (Exists (λ n, from_option next_tensors []
                                       (nodes_map graph !! n) = []) constants))
        as [Hex|Hnex].
      + by apply Exists_exists in Hex.
      + destruct Hnot. intros n Hn Hnil. apply Hnex, Exists_exists. by exists n.
    - intros (n & Hn & Hnil) Hall. by apply (Hall n). }
  unfold input_seeds.
  destruct is_input_quantized as [flags|].
  - destruct (decide (length flags = length (input_nodes graph))) as [Hlen|Hlen];
      cbn [mbind result_bind].
    + destruct (constant_seeds graph constants) as [seeds|e];
        cbn [mbind result_bind is_ok].
      * split_and!; [split; [done|]|split; [done|]|done].
        -- intros (flags' & [= <-] & Hne). done.
        -- intros [_ Hn]. apply Hexists in Hn. done.
      * destruct Hconst as [-> Hnot]. split_and!; [split; [done|]| |by right].
        -- intros (flags' & [= <-] & Hne). done.
        -- split; [intros _|done]. split; [by intros flags' [= <-]|].
           by apply Hexists.
    + cbn [is_ok]. split_and!; [|split; [done|]|by left].
      * split; [intros _; by exists flags|done].
      * intros [Hok _]. by specialize (Hok flags eq_refl).
  - cbn [mbind result_bind].
    destruct (constant_seeds graph constants) as [seeds|e];
      cbn [mbind result_bind is_ok].
    + split_and!; [split; [done|]|split; [done|]|done].
      * by intros (flags' & [=] & _).
      * intros [_ Hn]. apply Hexists in Hn. done.
    + destruct Hconst as [-> Hnot]. split_and!; [split; [done|]| |by right].
      * by intros (flags' & [=] & _).
      * split; [intros _|done]. split; [done|]. by apply Hexists.
Qed.

(** X8.  The analysis writes [quantized] attributes and nothing else: the
    node lists and the name dictionary of the graph are as before, no node
    comes or goes, and a node differs from what it was in its flag at
    most. *)
Theorem analysis_writes_flags_only graph is_input_quantized creation_func_names st :
  prepare_qat_prep graph is_input_quantized creation_func_names = Ok st →
  forward_nodes (analysed_graph st) = forward_nodes graph
  ∧ input_nodes (analysed_graph st) = input_nodes graph
  ∧ output_nodes (analysed_graph st) = output_nodes graph
  ∧ constant_nodes (analysed_graph st) = constant_nodes graph
  ∧ module_original_name_dict (analysed_graph st)
    = module_original_name_dict graph
  ∧ ∀ n, match nodes_map graph !! n, nodes_map (analysed_graph st) !! n with
         | Some node, Some node' => node' = set_quantized (quantized node') node
         | None, None => True
         | _, _ => False
         end.
Proof.
  unfold prepare_qat_prep.
  destruct (analysis_seeds _ _ _) as [seeds|e]; [|done].
  cbn [mbind result_bind]. intros [= <-].
  rewrite run_analysis_writes. unfold state_of_writes. cbn [analysed_graph].
  split_and!; [done..|].
  intros n. rewrite with_flags_lookup.
  by destruct (nodes_map graph !! n).
Qed.

Lemma analysis_writes_flags_only_witness :
  prepare_qat_prep example_graph None [] = Ok example_analysis
  ∧ forward_nodes (analysed_graph example_analysis) = forward_nodes example_graph
  ∧ input_nodes (analysed_graph example_analysis) = input_nodes example_graph
  ∧ output_nodes (analysed_graph example_analysis) = output_nodes example_graph
  ∧ constant_nodes (analysed_graph example_analysis)
    = constant_nodes example_graph
  ∧ module_original_name_dict (analysed_graph example_analysis)
    = module_original_name_dict example_graph
  ∧ ∀ n, match nodes_map example_graph !! n,
               nodes_map (analysed_graph example_analysis) !! n with
         | Some node, Some node' => node' = set_quantized (quantized node') node
         | None, None => True
         | _, _ => False
         end.
Proof.
  assert (prepare_qat_prep example_graph None [] = Ok example_analysis) as Hrun
    by (vm_compute; reflexivity).
  split; [exact Hrun|].
  exact (analysis_writes_flags_only example_graph None [] example_analysis Hrun).
Defined.

(** X20.  The flag of a node follows its predecessors.  For a node that
    the analysis has marked, that is no output node and was not put on the
    queue at the start: when every marked predecessor passes on the same
    flag [b] - [True] after a QuantStub, [False] after a DeQuantStub, its
    own flag otherwise - the node has the flag its kind gives for [b]; so
    an ordinary node after QuantStubs is quantized, one after DeQuantStubs
    is not, and one after ordinary nodes that agree has their flag. *)
Theorem flag_follows_predecessors graph is_input_quantized creation_func_names
    st seeds n node b :
  prepare_qat_prep graph is_input_quantized creation_func_names = Ok st →
  analysis_seeds graph is_input_quantized creation_func_names = Ok seeds →
  n ∈ visited st → n ∉ output_nodes graph →
  nodes_map graph !! n = Some node →
  (∀ q, (n, q) ∉ seeds) →
  (∀ m m_node flag,
     m ∈ visited st → m ∉ output_nodes graph →
     nodes_map graph !! m = Some m_node → n ∈ next_nodes m_node →
     node_quantized (analysed_graph st) m = Some flag →
     onward_flag m_node flag = b) →
  node_quantized (analysed_graph st) n = Some (node_flag node b).
Proof.
  unfold prepare_qat_prep. intros Hrun Hseeds. rewrite Hseeds in Hrun.
  cbn [mbind result_bind] in Hrun. injection Hrun as <-.
  rewrite run_analysis_writes.
  destruct (writes_loop_final graph seeds) as [_ Hinv].
  set (w := writes_loop graph (analysis_rounds graph seeds) (initial_writes seeds))
    in *.
  unfold state_of_writes, writes_over.
  cbn [visited analysed_graph fw_queue fw_visited fw_flags fw_any].
  intros Hn Hout Hnode Hseed Hpreds.
  assert (∀ m m_node, nodes_map graph !! m = Some m_node →
            node_quantized
              (with_flags (fw_flags w ∪ ∅) (graph_quantized graph || fw_any w) graph)
              m
            = Some (default (quantized m_node) (fw_flags w !! m))) as Hflag_of.
  { intros m m_node Hm. unfold node_quantized.
    by rewrite with_flags_lookup, Hm, (right_id_L ∅ (∪)). }
  assert (is_Some (fw_flags w !! n)) as [flag Hflag].
  { apply (inv_dom _ _ _ Hinv). split_and!; by eauto. }
  rewrite (Hflag_of n node Hnode), Hflag. cbn [default]. f_equal.
  destruct (inv_flag _ _ _ Hinv n flag Hflag) as (node' & q & Hnode' & Harr & ->).
  assert (node' = node) as -> by congruence.
  destruct Harr as [Hin|(m & m_node & m_flag & Hm & Hmout & Hmnode & Hmflag
                          & Hnext & ->)].
  { by destruct (Hseed q). }
  rewrite (Hpreds m m_node m_flag Hm Hmout Hmnode Hnext); [done|].
  by rewrite (Hflag_of m m_node Hmnode), Hmflag.
Qed.

Lemma flag_follows_predecessors_witness :
  (prepare_qat_prep example_graph None [] = Ok example_analysis
   ∧ analysis_seeds example_graph None [] = Ok [("input_0", false)]
   ∧ "conv_0" ∈ visited example_analysis
   ∧ ("conv_0" ∉ output_nodes example_graph)
   ∧ nodes_map example_graph !! "conv_0"
     = Some (example_node "conv_0" (NNModule "torch.nn.Conv2d") 2
               ["fake_quant_0"] ["bn_0"]))
  ∧ node_quantized (analysed_graph example_analysis) "conv_0" = Some true.
Proof.
  assert (prepare_qat_prep example_graph None [] = Ok example_analysis) as H1
    by (vm_compute; reflexivity).
  assert (analysis_seeds example_graph None [] = Ok [("input_0", false)]) as H2
    by (vm_compute; reflexivity).
  assert ("conv_0" ∈ visited example_analysis) as H3.
  { assert (bool_decide ("conv_0" ∈ visited example_analysis) = true) as Hb
      by (vm_compute; reflexivity).
    by apply bool_decide_eq_true in Hb. }
  assert ("conv_0" ∉ output_nodes example_graph) as H4.
  { intros Hin. apply list_elem_of_singleton in Hin. discriminate Hin. }
  assert (nodes_map example_graph !! "conv_0"
          = Some (example_node "conv_0" (NNModule "torch.nn.Conv2d") 2
                    ["fake_quant_0"] ["bn_0"])) as H5
    by (vm_compute; reflexivity).
  split; [exact (conj H1 (conj H2 (conj H3 (conj H4 H5))))|].
  apply (flag_follows_predecessors example_graph None [] example_analysis
           [("input_0", false)] "conv_0" _ true H1 H2 H3 H4 H5).
  - intros q Hin. apply list_elem_of_singleton in Hin. discriminate Hin.
  - intros m m_node flag _ _ Hm Hnext _.
    apply elem_of_list_to_map_2 in Hm.
    repeat (apply elem_of_cons in Hm as [Hm|Hm];
            [injection Hm as -> ->; cbn [example_node next_nodes] in Hnext;
             lazymatch type of Hnext with
             | _ ∈ [] => apply elem_of_nil in Hnext; destruct Hnext
             | _ ∈ [_] =>
                 apply list_elem_of_singleton in Hnext;
                 first [discriminate Hnext | reflexivity]
             end|]).
    apply elem_of_nil in Hm. destruct Hm.
Defined.

(* ================================================================== *)
(** * The quantizer constructors, further *)

(** [model.module] of a wrapped model *)
Lemma quantizer_init_unfold cls platform model_ work_dir_ config :
  quantizer_init cls platform model_ work_dir_ config =
    (self ← parse_config cls
              match model_ with
              | DataParallel inner | DistributedDataParallel inner => inner
              | PlainModule m => m
              end (default "out" work_dir_) config;
     when (bool_decide (platform = "win32")
           && bool_decide (backend self = PyStr "qnnpack"))
       (emit (LogError "Quantization backend qnnpack is likely unsupported on Windows. Please use fbgemm instead."));;
     when (negb (bool_decide (backend self ∈ [PyStr "fbgemm"; PyStr "qnnpack"])))
       (emit (LogWarning ("Quantization backend " +:+ py_str (backend self)
                          +:+ " is not tested. Please use at your risk.")));;
     when (bool_decide (backend self = PyStr "fbgemm"))
       (py_assert (truthy (asymmetric self))
          "Symmetric quantizaton for FBGEMM not supported";;
        py_assert (negb (truthy (per_tensor self)))
          "Per-tensor quantizaton for FBGEMM not supported, please use per-channel quantization instead");;
     let self :=
       if bool_decide (disable_requantization_for_cat self = PyNone) then
         set_disable_requantization_for_cat
           (PyBool (negb (truthy (per_tensor self)))) self
       else self in
     py_assert (truthy (per_tensor self)
                || truthy (disable_requantization_for_cat self))
       "`disable_requantization_for_cat=True` is required for per-channel quantization";;
     mret self).
Proof. done. Qed.

(** The constructor once [parse_config] has returned [self]: the record it
    builds, the events it logs and whether it raises, by cases. *)
Lemma quantizer_init_cases cls platform model_ work_dir_ config self :
  parse_config cls
    match model_ with
    | DataParallel inner | DistributedDataParallel inner => inner
    | PlainModule m => m
    end (default "out" work_dir_) config = mkEff [] (Ok self) →
  let events :=
    (if bool_decide (platform = "win32")
        && bool_decide (backend self = PyStr "qnnpack")
     then [LogError "Quantization backend qnnpack is likely unsupported on Windows. Please use fbgemm instead."]
     else [])
    ++ (if bool_decide (backend self ∈ [PyStr "fbgemm"; PyStr "qnnpack"])
        then []
        else [LogWarning ("Quantization backend " +:+ py_str (backend self)
                          +:+ " is not tested. Please use at your risk.")]) in
  let built :=
    if bool_decide (disable_requantization_for_cat self = PyNone) then
      set_disable_requantization_for_cat
        (PyBool (negb (truthy (per_tensor self)))) self
    else self in
  quantizer_init cls platform model_ work_dir_ config =
    mkEff events
      (if bool_decide (backend self = PyStr "fbgemm")
          && negb (truthy (asymmetric self))
       then Raise (AssertionError "Symmetric quantizaton for FBGEMM not supported")
       else if bool_decide (backend self = PyStr "fbgemm")
               && truthy (per_tensor self)
       then Raise (AssertionError "Per-tensor quantizaton for FBGEMM not supported, please use per-channel quantization instead")
       else if truthy (per_tensor self)
               || truthy (disable_requantization_for_cat built)
       then Ok built
       else Raise (AssertionError "`disable_requantization_for_cat=True` is required for per-channel quantization")).
Proof.
  intros Hparse. cbn zeta. rewrite quantizer_init_unfold, Hparse, eff_bind_ok.
  assert (∀ v : pyval, per_tensor (set_disable_requantization_for_cat v self)
                       = per_tensor self) as Hper by done.
  destruct (bool_decide (platform = "win32")
            && bool_decide (backend self = PyStr "qnnpack"));
    destruct (bool_decide (backend self ∈ [PyStr "fbgemm"; PyStr "qnnpack"]));
    destruct (bool_decide (backend self = PyStr "fbgemm"));
    destruct (truthy (asymmetric self));
    destruct (truthy (per_tensor self)) eqn:Hp;
    destruct (bool_decide (disable_requantization_for_cat self = PyNone));
    cbn zeta iota; rewrite ?Hper, ?Hp;
    cbn [negb andb orb truthy
         disable_requantization_for_cat set_disable_requantization_for_cat];
    try destruct (truthy (disable_requantization_for_cat self));
    reflexivity.
Qed.

(** [parse_config] by class: what it returns or raises, with nothing
    logged. *)
Lemma parse_config_cases cls model_ work_dir_ config :
  let parsed := QATQuantizer_parse_config cls model_ work_dir_ config in
  parse_config cls model_ work_dir_ config =
    match cls with
    | QATQuantizer | PostQuantizer => mkEff [] (Ok parsed)
    | BF16Quantizer => mkEff [] (Ok (set_rewrite_graph (PyBool false) parsed))
    | DynamicQuantizer =>
        if truthy (config_get config "asymmetric" (PyBool true)) then
          mkEff [] (Raise (AssertionError
            "Asymmetric quantization is not supported for DynamicQuantizer"))
        else if truthy (config_get config "per_tensor" (PyBool true)) then
          mkEff [] (Ok (set_rewrite_graph (PyBool false) parsed))
        else
          mkEff [] (Raise (AssertionError
            "Per-channel quantization is not supported for DynamicQuantizer"))
    end.
Proof.
  cbn zeta. destruct cls; [done..|]. apply parse_config_dynamic.
Qed.

(** the attributes [parse_config] leaves, when it returns *)
Lemma parse_config_attributes cls model_ work_dir_ config self :
  parse_config cls model_ work_dir_ config = mkEff [] (Ok self) →
  q_class self = cls ∧ q_model self = model_ ∧ work_dir self = work_dir_
  ∧ backend self = config_get config "backend" (PyStr "qnnpack")
  ∧ asymmetric self = config_get config "asymmetric" (PyBool true)
  ∧ per_tensor self = config_get config "per_tensor" (PyBool true)
  ∧ disable_requantization_for_cat self
    = config_get config "disable_requantization_for_cat" PyNone
  ∧ rewrite_graph self
    = (if bool_decide (cls ∈ [BF16Quantizer; DynamicQuantizer]) then PyBool false
       else config_get config "rewrite_graph" (PyBool true))
  ∧ (cls = DynamicQuantizer →
     truthy (config_get config "asymmetric" (PyBool true)) = false
     ∧ truthy (config_get config "per_tensor" (PyBool true)) = true).
Proof.
  rewrite parse_config_cases. cbn zeta.
  destruct cls.
  - intros [= <-]. by split_and!.
  - intros [= <-]. by split_and!.
  - intros [= <-]. by split_and!.
  - destruct (truthy (config_get config "asymmetric" (PyBool true))); [done|].
    destruct (truthy (config_get config "per_tensor" (PyBool true))); [|done].
    intros [= <-]. by split_and!.
Qed.

Lemma parse_config_raises cls model_ work_dir_ config :
  (∃ self, parse_config cls model_ work_dir_ config = mkEff [] (Ok self))
  ∨ (∃ msg, parse_config cls model_ work_dir_ config
            = mkEff [] (Raise (AssertionError msg))
            ∧ cls = DynamicQuantizer
            ∧ (truthy (config_get config "asymmetric" (PyBool true)) = true
               ∨ truthy (config_get config "per_tensor" (PyBool true)) = false)).
Proof.
  rewrite parse_config_cases. cbn zeta.
  destruct cls; [left; by eexists..|].
  destruct (truthy (config_get config "asymmetric" (PyBool true)));
    [right; eexists; by eauto|].
  destruct (truthy (config_get config "per_tensor" (PyBool true)));
    [left; by eexists|right; eexists; by eauto].
Qed.

(** X9.  The constructor of any of the four classes returns a quantizer
    exactly when: for a [DynamicQuantizer], [asymmetric] is false and
    [per_tensor] true; with the backend [fbgemm], [asymmetric] is true and
    [per_tensor] false; and [per_tensor] is true or
    [disable_requantization_for_cat] is left out, [None] or true.  So a
    [DynamicQuantizer] cannot be had with [fbgemm].  Whatever it raises is an
    [AssertionError]. *)
Theorem quantizer_constructed cls platform model_ work_dir_ config :
  (is_ok (eff_result (quantizer_init cls platform model_ work_dir_ config)) = true
   ↔ (cls = DynamicQuantizer →
      truthy (config_get config "asymmetric" (PyBool true)) = false
      ∧ truthy (config_get config "per_tensor" (PyBool true)) = true)
     ∧ (config_get config "backend" (PyStr "qnnpack") = PyStr "fbgemm" →
        truthy (config_get config "asymmetric" (PyBool true)) = true
        ∧ truthy (config_get config "per_tensor" (PyBool true)) = false)
     ∧ (truthy (config_get config "per_tensor" (PyBool true)) = true
        ∨ config_get config "disable_requantization_for_cat" PyNone = PyNone
        ∨ truthy (config_get config "disable_requantization_for_cat" PyNone)
          = true))
  ∧ (cls = DynamicQuantizer →
     config_get config "backend" (PyStr "qnnpack") = PyStr "fbgemm" →
     is_ok (eff_result (quantizer_init cls platform model_ work_dir_ config))
     = false)
  ∧ (∀ e, eff_result (quantizer_init cls platform model_ work_dir_ config)
          = Raise e → ∃ msg, e = AssertionError msg).
Proof.
  set (m := match model_ with
            | DataParallel inner | DistributedDataParallel inner => inner
            | PlainModule m => m
            end).
  set (asym := config_get config "asymmetric" (PyBool true)).
  set (per := config_get config "per_tensor" (PyBool true)).
  set (bk := config_get config "backend" (PyStr "qnnpack")).
  set (drc := config_get config "disable_requantization_for_cat" PyNone).
  destruct (parse_config_raises cls m (default "out" work_dir_) config)
    as [[self Hparse]|(msg & Hparse & -> & Hwhy)].
  2:{ rewrite (quantizer_init_parse_raises _ _ _ _ _ _ Hparse).
      cbn [eff_result is_ok]. fold asym per in Hwhy. split_and!.
      - split; [done|]. intros (Hdyn & _ & _).
        destruct (Hdyn eq_refl) as [Ha Hp]. destruct Hwhy; congruence.
      - done.
      - intros e [= <-]. by eexists. }
  destruct (parse_config_attributes _ _ _ _ _ Hparse)
    as (_ & _ & _ & Hbk & Hasym & Hper & Hdrc & _ & Hdyn).
  fold asym per in Hdyn. fold bk in Hbk. fold asym in Hasym.
  fold per in Hper. fold drc in Hdrc.
  rewrite (quantizer_init_cases _ _ _ _ _ _ Hparse). cbn zeta.
  cbn [eff_result]. rewrite Hbk, Hasym, Hper, Hdrc.
  assert (disable_requantization_for_cat
            (if bool_decide (drc = PyNone)
             then set_disable_requantization_for_cat
                    (PyBool (negb (truthy per))) self
             else self)
          = if bool_decide (drc = PyNone) then PyBool (negb (truthy per))
            else drc) as ->.
  { by destruct (bool_decide (drc = PyNone)). }
  destruct (decide (bk = PyStr "fbgemm")) as [Hf|Hf].
  - rewrite (bool_decide_eq_true_2 _ Hf). cbn [andb].
    destruct (truthy asym) eqn:Ha; cbn [negb is_ok].
    2:{ split_and!.
        - split; [done|]. intros (_ & Hfb & _). by destruct (Hfb Hf).
        - done.
        - intros e [= <-]. by eexists. }
    destruct (truthy per) eqn:Hp; cbn [negb is_ok orb].
    { split_and!.
      - split; [done|]. intros (_ & Hfb & _). by destruct (Hfb Hf).
      - done.
      - intros e [= <-]. by eexists. }
    case_bool_decide as Hnone; cbn [truthy negb is_ok].
    + split_and!.
      * split; [intros _|done]. split_and!; [|done|by right; left].
        intros Hcls. destruct (Hdyn Hcls). congruence.
      * intros Hcls. destruct (Hdyn Hcls). congruence.
      * done.
    + destruct (truthy drc) eqn:Hd; cbn [is_ok].
      * split_and!.
        -- split; [intros _|done]. split_and!; [|done|by right; right].
           intros Hcls. destruct (Hdyn Hcls). congruence.
        -- intros Hcls. destruct (Hdyn Hcls). congruence.
        -- done.
      * split_and!.
        -- split; [done|]. intros (_ & _ & [?|[?|?]]); congruence.
        -- done.
        -- intros e [= <-]. by eexists.
  - rewrite (bool_decide_eq_false_2 _ Hf). cbn [andb].
    destruct (truthy per) eqn:Hp; cbn [orb is_ok].
    { split_and!; [|done|done].
      split; [intros _|done]. split_and!; [done|done|by left]. }
    case_bool_decide as Hnone; cbn [truthy negb is_ok].
    + split_and!; [|done|done].
      split; [intros _|done]. split_and!; [done|done|by right; left].
    + destruct (truthy drc) eqn:Hd; cbn [is_ok].
      * split_and!; [|done|done].
        split; [intros _|done]. split_and!; [done|done|by right; right].
      * split_and!.
        -- split; [done|]. intros (_ & _ & [?|[?|?]]); congruence.
        -- done.
        -- intros e [= <-]. by eexists.
Qed.

(** X10.  A quantizer that has been constructed: its model is the wrapped
    module of a (distributed) data-parallel model, its working directory is
    ['out'] unless given, [rewrite_graph] is off for the BF16 and the dynamic
    quantizer whatever the configuration says,
    [disable_requantization_for_cat] is no longer [None], being the
    configured value or else the negation of [per_tensor], and one of
    [per_tensor] and [disable_requantization_for_cat] holds. *)
Theorem quantizer_attributes cls platform model_ work_dir_ config self :
  eff_result (quantizer_init cls platform model_ work_dir_ config) = Ok self →
  q_class self = cls
  ∧ q_model self = match model_ with
                   | DataParallel inner | DistributedDataParallel inner => inner
                   | PlainModule m => m
                   end
  ∧ work_dir self = default "out" work_dir_
  ∧ rewrite_graph self
    = (if bool_decide (cls ∈ [BF16Quantizer; DynamicQuantizer]) then PyBool false
       else config_get config "rewrite_graph" (PyBool true))
  ∧ backend self = config_get config "backend" (PyStr "qnnpack")
  ∧ asymmetric self = config_get config "asymmetric" (PyBool true)
  ∧ per_tensor self = config_get config "per_tensor" (PyBool true)
  ∧ disable_requantization_for_cat self
    = (if bool_decide (config_get config "disable_requantization_for_cat" PyNone
                       = PyNone)
       then PyBool (negb (truthy (per_tensor self)))
       else config_get config "disable_requantization_for_cat" PyNone)
  ∧ disable_requantization_for_cat self ≠ PyNone
  ∧ (truthy (per_tensor self) = true
     ∨ truthy (disable_requantization_for_cat self) = true).
Proof.
  set (m := match model_ with
            | DataParallel inner | DistributedDataParallel inner => inner
            | PlainModule m => m
            end).
  destruct (parse_config_raises cls m (default "out" work_dir_) config)
    as [[parsed Hparse]|(msg & Hparse & _)].
  2:{ by rewrite (quantizer_init_parse_raises _ _ _ _ _ _ Hparse). }
  destruct (parse_config_attributes _ _ _ _ _ Hparse)
    as (Hcls & Hmodel & Hdir & Hbk & Hasym & Hper & Hdrc & Hrw & _).
  rewrite (quantizer_init_cases _ _ _ _ _ _ Hparse). cbn zeta.
  cbn [eff_result].
  destruct (bool_decide (backend parsed = PyStr "fbgemm")
            && negb (truthy (asymmetric parsed))); [done|].
  destruct (bool_decide (backend parsed = PyStr "fbgemm")
            && truthy (per_tensor parsed)); [done|].
  rewrite <-Hdrc. rewrite <-Hper, <-Hasym, <-Hbk, <-Hrw.
  destruct (bool_decide (disable_requantization_for_cat parsed = PyNone))
    eqn:Hnone.
  - cbn [disable_requantization_for_cat set_disable_requantization_for_cat
         per_tensor truthy].
    destruct (truthy (per_tensor parsed)) eqn:Hp; cbn [orb negb].
    + intros [= <-]. cbn. rewrite Hp. split_and!; by eauto.
    + intros [= <-]. cbn. rewrite Hp. split_and!; by eauto.
  - apply bool_decide_eq_false in Hnone.
    destruct (truthy (per_tensor parsed)
              || truthy (disable_requantization_for_cat parsed)) eqn:Hor; [|done].
    intros [= <-]. apply orb_true_iff in Hor. by split_and!.
Qed.

Lemma quantizer_attributes_witness :
  eff_result (quantizer_init BF16Quantizer "linux" (DataParallel 7) None
                example_bf16_config) = Ok example_bf16_quantizer
  ∧ q_class example_bf16_quantizer = BF16Quantizer
  ∧ q_model example_bf16_quantizer = 7%nat
  ∧ work_dir example_bf16_quantizer = "out"
  ∧ rewrite_graph example_bf16_quantizer = PyBool false
  ∧ disable_requantization_for_cat example_bf16_quantizer ≠ PyNone
  ∧ (truthy (per_tensor example_bf16_quantizer) = true
     ∨ truthy (disable_requantization_for_cat example_bf16_quantizer) = true).
Proof.
  assert (eff_result (quantizer_init BF16Quantizer "linux" (DataParallel 7) None
                        example_bf16_config) = Ok example_bf16_quantizer) as Hrun
    by (vm_compute; reflexivity).
  split; [exact Hrun|].
  destruct (quantizer_attributes BF16Quantizer "linux" (DataParallel 7) None
              example_bf16_config example_bf16_quantizer Hrun)
    as (Hcls & Hmodel & Hdir & Hrw & _ & _ & _ & _ & Hset & Hone).
  exact (conj Hcls (conj Hmodel (conj Hdir (conj Hrw (conj Hset Hone))))).
Defined.

(** X11.  The platform has no part in what the constructor returns or
    raises: it only adds the Windows record to the log when the backend is
    [qnnpack].  Elsewhere, and with a known backend, nothing is logged. *)
Theorem platform_only_logs cls platform platform' model_ work_dir_ config :
  eff_result (quantizer_init cls platform model_ work_dir_ config)
  = eff_result (quantizer_init cls platform' model_ work_dir_ config)
  ∧ (platform ≠ "win32" →
     config_get config "backend" (PyStr "qnnpack")
       ∈ [PyStr "fbgemm"; PyStr "qnnpack"] →
     eff_events (quantizer_init cls platform model_ work_dir_ config) = [])
  ∧ (platform' ≠ "win32" →
     eff_events (quantizer_init cls platform model_ work_dir_ config)
     = (if bool_decide (platform = "win32")
           && bool_decide (config_get config "backend" (PyStr "qnnpack")
                           = PyStr "qnnpack")
           && is_ok (eff_result (parse_config cls
                       match model_ with
                       | DataParallel inner | DistributedDataParallel inner => inner
                       | PlainModule m => m
                       end (default "out" work_dir_) config))
        then [LogError "Quantization backend qnnpack is likely unsupported on Windows. Please use fbgemm instead."]
        else [])
       ++ eff_events (quantizer_init cls platform' model_ work_dir_ config)).
Proof.
  set (m := match model_ with
            | DataParallel inner | DistributedDataParallel inner => inner
            | PlainModule m => m
            end).
  destruct (parse_config_raises cls m (default "out" work_dir_) config)
    as [[parsed Hparse]|(msg & Hparse & _)].
  2:{ rewrite !(quantizer_init_parse_raises _ _ _ _ _ _ Hparse), Hparse.
      cbn [eff_result eff_events is_ok]. by rewrite andb_false_r. }
  destruct (parse_config_attributes _ _ _ _ _ Hparse)
    as (_ & _ & _ & Hbk & _).
  rewrite !(quantizer_init_cases _ _ _ _ _ _ Hparse), Hparse. cbn zeta.
  cbn [eff_result eff_events is_ok]. rewrite Hbk, andb_true_r.
  split_and!; [done| |].
  - intros Hp Hknown.
    rewrite (bool_decide_eq_false_2 _ Hp), (bool_decide_eq_true_2 _ Hknown).
    done.
  - intros Hp. rewrite (bool_decide_eq_false_2 _ Hp). cbn [andb app].
    by destruct (bool_decide (platform = "win32")
                 && bool_decide (_ = PyStr "qnnpack")).
Qed.

(* ================================================================== *)
(** * The rewrites, further *)

(** Rounding is symmetric in the sign. *)
Lemma binary_round_aux_opp prec emax sx mx ex lx :
  SFopp (binary_round_aux prec emax sx mx ex lx)
  = binary_round_aux prec emax (negb sx) mx ex lx.
Proof.
  unfold binary_round_aux.
  destruct (shr_fexp prec emax mx ex lx) as [mrs' e'].
  destruct (shr_fexp prec emax _ e' loc_Exact) as [mrs'' e''].
  destruct (shr_m mrs''); [done| |done].
  by destruct (e'' <=? emax - prec)%Z.
Qed.

Lemma binary_round_opp prec emax sx mx ex :
  SFopp (binary_round prec emax sx mx ex)
  = binary_round prec emax (negb sx) mx ex.
Proof.
  unfold binary_round. destruct (shl_align mx ex _) as [mz ez].
  apply binary_round_aux_opp.
Qed.

(** The opposite of a Python float, taken to binary32, is the opposite of
    its binary32 value; likewise for a non-zero integer. *)
Lemma f32_of_f64_opp c : f32_of_f64 (SFopp c) = SFopp (f32_of_f64 c).
Proof.
  destruct c as [s|s| |s m e]; try done.
  destruct s.
  - change (binary_round 24 128 false m e = SFopp (binary_round 24 128 true m e)).
    by rewrite binary_round_opp.
  - change (binary_round 24 128 true m e = SFopp (binary_round 24 128 false m e)).
    by rewrite binary_round_opp.
Qed.

Lemma f32_of_Z_opp z : z ≠ 0%Z → f32_of_Z (- z) = SFopp (f32_of_Z z).
Proof.
  intros Hz. unfold f32_of_Z, binary_normalize.
  destruct z as [|p|p]; [done|..].
  - change (binary_round 24 128 true p 0 = SFopp (binary_round 24 128 false p 0)).
    by rewrite binary_round_opp.
  - change (binary_round 24 128 false p 0 = SFopp (binary_round 24 128 true p 0)).
    by rewrite binary_round_opp.
Qed.

Lemma f32_minus_one : f32_of_f64 (f64_of_Z (-1)) = f32_of_Z (-1).
Proof. by vm_compute. Qed.

Lemma product_with_minus_one (xs : list spec_float) :
  Forall (λ v, valid_binary 24 128 v = true) xs →
  (λ v, f32_mul v (f32_of_f64 (f64_of_Z (-1)))) <$> xs = SFopp <$> xs.
Proof.
  induction 1 as [|v xs Hv _ IH]; [done|].
  cbn [fmap list_fmap]. rewrite IH. by rewrite f32_minus_one, f32_mul_neg_one.
Qed.

Section rewrite_values.
Context (args_string : list Arg → string).

(** X12.  The neg rewrite turns a float32 node [-x] into the
    multiplication [x * -1.0]: the function becomes [__mul__] of kind [mul]
    under the same name path, re-parsed on the input tensor and [-1.0]; no
    other node changes; and for a tensor of valid binary32 values the new
    node computes the opposite of every element. *)
Theorem neg_rewrite graph name node f x rest :
  nodes_map graph !! name = Some node →
  module node = Function f →
  is_neg_node node = Ok true →
  prev_tensors node = x :: rest →
  Forall (λ v, valid_binary 24 128 v = true) (tensor_data x) →
  ∃ f',
    rewrite_neg_node args_string name graph
      = Ok (set_node_module name (Function f') graph)
    ∧ tf_kind f' = "mul" ∧ tf_func_type f' = "__mul__"
    ∧ tf_full_name f' = join_dots (name_parts "__mul__" (tf_full_name f))
    ∧ tf_args_parsed f' = [ArgTensor x; ArgFloat (f64_of_Z (-1))]
    ∧ tf_prev_tensors f' = [x]
    ∧ nodes_map (set_node_module name (Function f') graph) !! name
      = Some (set_module (Function f') node)
    ∧ (∀ n, n ≠ name →
            nodes_map (set_node_module name (Function f') graph) !! n
            = nodes_map graph !! n)
    ∧ eval_node (set_node_module name (Function f') graph) name
      = Some (SFopp <$> tensor_data x).
Proof.
  intros Hnode Hmod _ Hx Hvalid.
  eexists. unfold rewrite_neg_node. rewrite Hnode, Hmod, Hx.
  cbn [index lookup list_lookup mbind result_bind].
  split; [reflexivity|].
  split_and!; try reflexivity.
  - cbn [set_node_module set_nodes_map nodes_map].
    by rewrite lookup_alter_eq, Hnode.
  - intros n Hn. cbn [set_node_module set_nodes_map nodes_map].
    by rewrite lookup_alter_ne.
  - unfold eval_node. cbn [set_node_module set_nodes_map nodes_map].
    rewrite lookup_alter_eq, Hnode.
    cbn [fmap option_fmap option_map mbind option_bind set_module module].
    unfold eval_function.
    cbn [parse_args retyped tf_kind tf_args_parsed].
    change (kernel_of "mul") with (Some f32_mul).
    cbn [mbind option_bind]. f_equal.
    by apply product_with_minus_one.
Qed.

(** Subtracting a constant is adding its opposite, in binary32. *)
Lemma sub_as_add_of_opposite (c : pynum) (xs : list spec_float) :
  is_zero_number c = false ∨ (∃ v, c = NumFloat v) →
  eval_function
    (mkTraceFunction EmptyString EmptyString "add" false []
       [ArgTensor (mkTensor 0 float32 xs); arg_of_num (py_neg c)] EmptyString)
  = eval_function
      (mkTraceFunction EmptyString EmptyString "sub" false []
         [ArgTensor (mkTensor 0 float32 xs); arg_of_num c] EmptyString).
Proof.
  intros Hc. unfold eval_function. cbn [tf_kind tf_args_parsed].
  change (kernel_of "add") with (Some f32_add).
  change (kernel_of "sub") with (Some f32_sub).
  cbn [mbind option_bind].
  destruct c as [z|v]; cbn [arg_of_num py_neg tensor_data]; f_equal.
  - destruct Hc as [Hz|[v [=]]]. cbn [is_zero_number] in Hz.
    apply bool_decide_eq_false in Hz.
    apply list_fmap_ext. intros _ x _.
    by rewrite f32_of_Z_opp, f32_add_opp.
  - apply list_fmap_ext. intros _ x _.
    by rewrite f32_of_f64_opp, f32_add_opp.
Qed.

(** X13.  The sub rewrite on a float32 node [x - c] with a constant [c]
    that its recorded string gives back: the node becomes [__add__] of kind
    [add] on [x] and [-c], and it computes what it computed before, for a
    float constant and for a non-zero integer. *)
Theorem constant_sub_rewrite graph name node f x rest c :
  nodes_map graph !! name = Some node →
  module node = Function f →
  is_sub_node node = Ok true →
  length (tf_prev_tensors f) = 1%nat →
  tf_func_type f ≠ "__rsub__" →
  prev_tensors node = x :: rest →
  number_of_args_string true (tf_args_string_no_self f) = Ok c →
  tf_args_parsed f = [ArgTensor x; arg_of_num c] →
  is_zero_number c = false ∨ (∃ v, c = NumFloat v) →
  ∃ f',
    rewrite_sub_node args_string name graph
      = Ok (set_node_module name (Function f') graph)
    ∧ tf_kind f' = "add" ∧ tf_func_type f' = "__add__"
    ∧ tf_args_parsed f' = [ArgTensor x; arg_of_num (py_neg c)]
    ∧ (∀ n, n ≠ name →
            nodes_map (set_node_module name (Function f') graph) !! n
            = nodes_map graph !! n)
    ∧ eval_node (set_node_module name (Function f') graph) name
      = eval_node graph name.
Proof.
  intros Hnode Hmod Hsub Hone Hrsub Hx Hnum Hargs Hc.
  pose proof (is_sub_node_kind node f Hmod Hsub) as Hkind.
  eexists. unfold rewrite_sub_node. rewrite Hnode, Hmod.
  rewrite (bool_decide_eq_true_2 _ Hone), (bool_decide_eq_false_2 _ Hrsub).
  cbn [andb negb]. rewrite Hnum, Hx.
  cbn [index lookup list_lookup mbind result_bind].
  split; [reflexivity|].
  split_and!; try reflexivity.
  - intros n Hn. cbn [set_node_module set_nodes_map nodes_map].
    by rewrite lookup_alter_ne.
  - unfold eval_node. cbn [set_node_module set_nodes_map nodes_map].
    rewrite lookup_alter_eq, Hnode.
    cbn [fmap option_fmap option_map mbind option_bind set_module module].
    rewrite Hmod.
    pose proof (sub_as_add_of_opposite c (tensor_data x) Hc) as Hvalue.
    unfold eval_function in *.
    cbn [parse_args tf_kind tf_args_parsed tensor_data] in *.
    rewrite Hkind, Hargs.
    change (kernel_of "add") with (Some f32_add) in *.
    change (kernel_of "sub") with (Some f32_sub) in *.
    cbn [mbind option_bind] in *.
    by destruct c.
Qed.
End rewrite_values.

Lemma neg_rewrite_witness :
  (nodes_map example_neg_graph !! "op_0"
   = Some (tensor_node "op_0" (Function example_neg_function) 1
             ["input_0"] ["output_0"]
             [example_tensor 0 [4]%Z] [mkTensor 1 float32 [f32_of_Z (-4)]])
   ∧ is_neg_node (tensor_node "op_0" (Function example_neg_function) 1
                    ["input_0"] ["output_0"]
                    [example_tensor 0 [4]%Z] [mkTensor 1 float32 [f32_of_Z (-4)]])
     = Ok true
   ∧ Forall (λ v, valid_binary 24 128 v = true)
            (tensor_data (example_tensor 0 [4]%Z)))
  ∧ ∃ f',
      rewrite_neg_node no_args_string "op_0" example_neg_graph
        = Ok (set_node_module "op_0" (Function f') example_neg_graph)
      ∧ tf_kind f' = "mul"
      ∧ tf_full_name f' = "torch.Tensor.__mul__"
      ∧ eval_node (set_node_module "op_0" (Function f') example_neg_graph) "op_0"
        = Some [f32_of_Z (-4)].
Proof.
  assert (nodes_map example_neg_graph !! "op_0"
          = Some (tensor_node "op_0" (Function example_neg_function) 1
                    ["input_0"] ["output_0"]
                    [example_tensor 0 [4]%Z] [mkTensor 1 float32 [f32_of_Z (-4)]]))
    as H1 by (vm_compute; reflexivity).
  assert (is_neg_node (tensor_node "op_0" (Function example_neg_function) 1
                         ["input_0"] ["output_0"]
                         [example_tensor 0 [4]%Z]
                         [mkTensor 1 float32 [f32_of_Z (-4)]]) = Ok true)
    as H2 by (vm_compute; reflexivity).
  assert (Forall (λ v, valid_binary 24 128 v = true)
                 (tensor_data (example_tensor 0 [4]%Z))) as H3.
  { apply Forall_cons. split; [vm_compute; reflexivity|apply Forall_nil_2]. }
  split; [exact (conj H1 (conj H2 H3))|].
  destruct (neg_rewrite no_args_string example_neg_graph "op_0" _
              example_neg_function (example_tensor 0 [4]%Z) [] H1 eq_refl H2
              eq_refl H3)
    as (f' & Hrun & Hkind & _ & Hname & _ & _ & _ & _ & Hvalue).
  exists f'. split; [exact Hrun|]. split; [exact Hkind|].
  split; [rewrite Hname; vm_compute; reflexivity|].
  rewrite Hvalue. vm_compute. reflexivity.
Defined.

Lemma constant_sub_rewrite_witness :
  (nodes_map example_sub_half_graph !! "op_0"
   = Some (tensor_node "op_0" (Function example_sub_half_function) 1
             ["input_0"] ["output_0"] [example_tensor 0 [4]%Z]
             [mkTensor 1 float32 [S754_finite false 14680064 (-22)]])
   ∧ is_sub_node (tensor_node "op_0" (Function example_sub_half_function) 1
                    ["input_0"] ["output_0"] [example_tensor 0 [4]%Z]
                    [mkTensor 1 float32 [S754_finite false 14680064 (-22)]])
     = Ok true
   ∧ tf_func_type example_sub_half_function ≠ "__rsub__"
   ∧ number_of_args_string true
       (tf_args_string_no_self example_sub_half_function)
     = Ok (NumFloat (S754_finite false 4503599627370496 (-53))))
  ∧ ∃ f',
      rewrite_sub_node no_args_string "op_0" example_sub_half_graph
        = Ok (set_node_module "op_0" (Function f') example_sub_half_graph)
      ∧ tf_kind f' = "add"
      ∧ eval_node (set_node_module "op_0" (Function f') example_sub_half_graph)
                  "op_0"
        = eval_node example_sub_half_graph "op_0"
      ∧ eval_node example_sub_half_graph "op_0"
        = Some [S754_finite false 14680064 (-22)].
Proof.
  assert (nodes_map example_sub_half_graph !! "op_0"
          = Some (tensor_node "op_0" (Function example_sub_half_function) 1
                    ["input_0"] ["output_0"] [example_tensor 0 [4]%Z]
                    [mkTensor 1 float32 [S754_finite false 14680064 (-22)]]))
    as H1 by (vm_compute; reflexivity).
  assert (is_sub_node (tensor_node "op_0" (Function example_sub_half_function) 1
                         ["input_0"] ["output_0"] [example_tensor 0 [4]%Z]
                         [mkTensor 1 float32 [S754_finite false 14680064 (-22)]])
          = Ok true) as H2 by (vm_compute; reflexivity).
  assert (tf_func_type example_sub_half_function ≠ "__rsub__") as H3
    by discriminate.
  assert (number_of_args_string true
            (tf_args_string_no_self example_sub_half_function)
          = Ok (NumFloat (S754_finite false 4503599627370496 (-53)))) as H4
    by (vm_compute; reflexivity).
  split; [exact (conj H1 (conj H2 (conj H3 H4)))|].
  destruct (constant_sub_rewrite no_args_string example_sub_half_graph "op_0" _
              example_sub_half_function (example_tensor 0 [4]%Z) []
              (NumFloat (S754_finite false 4503599627370496 (-53)))
              H1 eq_refl H2 eq_refl H3 eq_refl H4 eq_refl
              (or_intror (ex_intro _ _ eq_refl)))
    as (f' & Hrun & Hkind & _ & _ & _ & Hvalue).
  exists f'. split; [exact Hrun|]. split; [exact Hkind|].
  split; [exact Hvalue|]. vm_compute. reflexivity.
Defined.

(** *** Constants the rewrites cannot read *)

Lemma elem_of_lstrip c l : c ∈ l → is_space c = false → c ∈ lstrip l.
Proof.
  intros Hin Hc. induction l as [|c' l IH]; [done|].
  cbn [lstrip]. destruct (is_space c') eqn:Hc'; [|done].
  apply elem_of_cons in Hin as [->|Hin]; [congruence|by apply IH].
Qed.

Lemma elem_of_strip c l : c ∈ l → is_space c = false → c ∈ strip l.
Proof.
  intros Hin Hc. unfold strip.
  apply elem_of_reverse, elem_of_lstrip; [|done].
  apply elem_of_reverse, elem_of_lstrip; done.
Qed.

Lemma elem_of_sign_from c l :
  c ∈ l → c ≠ "-"%char → c ≠ "+"%char → c ∈ (sign_from l).2.
Proof.
  intros Hin Hminus Hplus. destruct l as [|c' l]; [done|].
  cbn [sign_from].
  case_bool_decide as H1; [subst; cbn [snd]|].
  { apply elem_of_cons in Hin as [->|Hin]; done. }
  case_bool_decide as H2; [subst; cbn [snd]|done].
  apply elem_of_cons in Hin as [->|Hin]; done.
Qed.

(** What a run of digits leaves holds every character that is neither a
    digit nor an underscore. *)
Lemma digits_from_rest l : ∀ acc count c,
  c ∈ l → digit_of c = None → c ≠ "_"%char →
  c ∈ (digits_from l acc count).2.
Proof.
  induction l as [|c' l IH]; intros acc count c Hin Hdigit Hunder; [done|].
  cbn [digits_from].
  destruct (digit_of c') as [d|] eqn:Hc'.
  { apply elem_of_cons in Hin as [->|Hin]; [congruence|by apply IH]. }
  destruct (bool_decide (c' = "_"%char) && bool_decide (0 < count)%nat) eqn:Hu;
    [|done].
  apply andb_true_iff in Hu as [Hu _]. apply bool_decide_eq_true in Hu as ->.
  apply elem_of_cons in Hin as [->|Hin]; [done|].
  destruct l as [|c'' l'] eqn:Hl; [by apply elem_of_nil in Hin|].
  destruct (digit_of c''); [by apply IH|]. cbn [snd]. by right.
Qed.

Lemma py_int_rejects (s : string) (c : ascii) :
  c ∈ list_ascii_of_string s → int_char c = false →
  py_int s = Raise ValueError.
Proof.
  intros Hin Hc. unfold int_char in Hc.
  apply orb_false_iff in Hc as [Hc _].
  apply orb_false_iff in Hc as [Hc _].
  apply orb_false_iff in Hc as [Hc Hsign].
  apply orb_false_iff in Hc as [Hdigit Hspace].
  apply bool_decide_eq_false in Hdigit, Hsign.
  assert (digit_of c = None) as Hnone.
  { destruct (digit_of c); [|done]. destruct Hdigit. by eexists. }
  assert (c ≠ "-"%char ∧ c ≠ "+"%char ∧ c ≠ "_"%char) as (Hm & Hp & Hu).
  { split_and!; intros ->; apply Hsign; set_solver. }
  unfold py_int.
  pose proof (elem_of_sign_from c _ (elem_of_strip c _ Hin Hspace) Hm Hp) as Hl.
  destruct (sign_from (strip (list_ascii_of_string s))) as [neg l].
  cbn [snd] in Hl.
  pose proof (digits_from_rest l 0 0 c Hl Hnone Hu) as Hrest.
  destruct (digits_from l 0 0) as [[value count] rest]. cbn [snd] in Hrest.
  destruct count; [done|]. destruct rest; [|done].
  by apply elem_of_nil in Hrest.
Qed.

Section unreadable_constants.
Context (args_string : list Arg → string).

(** X14.  A recorded constant that the dot test (and, for sub, the [e]
    test) sends to [int] although it holds an ASCII character that [int]
    takes nowhere - a letter as in an exponent written without a dot, in
    [inf] or in [nan] - makes the rewrite raise [ValueError]: the div
    rewrite for every such string, which includes every string with an [e]
    and no dot, and the sub rewrite of a one-tensor node for every such
    string without an [e].  Characters above 127 and the separators 28 to
    31 are not among those the statement is about. *)
Theorem unreadable_constant_raises (exponent_too : bool) (s : string) (c : ascii) :
  c ∈ list_ascii_of_string s →
  int_char c = false →
  contains_char "." s = false →
  (exponent_too = true → contains_char "e" s = false) →
  number_of_args_string exponent_too s = Raise ValueError
  ∧ (exponent_too = false →
     ∀ graph name node f,
       nodes_map graph !! name = Some node → module node = Function f →
       tf_args_string_no_self f = s →
       rewrite_div_node args_string name graph = Raise ValueError)
  ∧ (exponent_too = true →
     ∀ graph name node f,
       nodes_map graph !! name = Some node → module node = Function f →
       tf_args_string_no_self f = s →
       length (tf_prev_tensors f) = 1%nat → tf_func_type f ≠ "__rsub__" →
       rewrite_sub_node args_string name graph = Raise ValueError).
Proof.
  intros Hin Hc Hdot He.
  assert (number_of_args_string exponent_too s = Raise ValueError) as Hnum.
  { unfold number_of_args_string. rewrite Hdot. cbn [orb].
    destruct exponent_too; cbn [andb].
    - rewrite (He eq_refl). by rewrite (py_int_rejects s c).
    - by rewrite (py_int_rejects s c). }
  split_and!; [done| |].
  - intros -> graph name node f Hnode Hmod Hs. unfold rewrite_div_node.
    rewrite Hnode, Hmod. cbn [retyped tf_args_string_no_self].
    by rewrite Hs, Hnum.
  - intros -> graph name node f Hnode Hmod Hs Hone Hrsub.
    unfold rewrite_sub_node. rewrite Hnode, Hmod.
    rewrite (bool_decide_eq_true_2 _ Hone), (bool_decide_eq_false_2 _ Hrsub).
    cbn [andb negb]. by rewrite Hs, Hnum.
Qed.

(** X15.  Division by a constant that reads as zero, [x / 0] or
    [x / 0.0], cannot be rewritten: forming [1.0 / 0] raises
    [ZeroDivisionError]. *)
Theorem div_by_zero_raises graph name node f x rest c :
  nodes_map graph !! name = Some node →
  module node = Function f →
  prev_tensors node = x :: rest →
  number_of_args_string false (tf_args_string_no_self f) = Ok c →
  is_zero_number c = true →
  rewrite_div_node args_string name graph = Raise ZeroDivisionError.
Proof.
  intros Hnode Hmod Hx Hnum Hzero. unfold rewrite_div_node.
  rewrite Hnode, Hmod. cbn [retyped tf_args_string_no_self].
  rewrite Hnum, Hx. cbn [mbind result_bind index lookup list_lookup].
  destruct c as [z|v]; cbn [is_zero_number py_one_over] in *.
  - apply bool_decide_eq_true in Hzero as ->. by rewrite decide_True.
  - by rewrite Hzero.
Qed.
End unreadable_constants.

Lemma unreadable_constant_raises_witness :
  ("e"%char ∈ list_ascii_of_string "1e-05"
   ∧ int_char "e" = false
   ∧ contains_char "." "1e-05" = false)
  ∧ number_of_args_string false "1e-05" = Raise ValueError
  ∧ rewrite_div_node no_args_string "truediv_0" example_div_by_1e_05
    = Raise ValueError.
Proof.
  assert ("e"%char ∈ list_ascii_of_string "1e-05") as H1.
  { right. left. }
  assert (int_char "e" = false) as H2 by (vm_compute; reflexivity).
  assert (contains_char "." "1e-05" = false) as H3 by (vm_compute; reflexivity).
  assert (false = true → contains_char "e" "1e-05" = false) as H4 by discriminate.
  split; [exact (conj H1 (conj H2 H3))|].
  destruct (unreadable_constant_raises no_args_string false "1e-05" "e"
              H1 H2 H3 H4) as (Hnum & Hdiv & _).
  split; [exact Hnum|].
  eapply (Hdiv eq_refl example_div_by_1e_05 "truediv_0").
  - vm_compute. reflexivity.
  - reflexivity.
  - reflexivity.
Defined.

Lemma div_by_zero_raises_witness :
  (nodes_map example_div_by_zero !! "truediv_0"
   = Some (tensor_node "truediv_0"
             (Function (example_div_function "0" (S754_zero false))) 1
             ["input_0"] ["output_0"] [example_tensor 0 [4]%Z]
             [mkTensor 1 float32 [S754_infinity false]])
   ∧ number_of_args_string false "0" = Ok (NumInt 0)
   ∧ is_zero_number (NumInt 0) = true)
  ∧ rewrite_div_node no_args_string "truediv_0" example_div_by_zero
    = Raise ZeroDivisionError.
Proof.
  assert (nodes_map example_div_by_zero !! "truediv_0"
          = Some (tensor_node "truediv_0"
                    (Function (example_div_function "0" (S754_zero false))) 1
                    ["input_0"] ["output_0"] [example_tensor 0 [4]%Z]
                    [mkTensor 1 float32 [S754_infinity false]])) as H1
    by (vm_compute; reflexivity).
  assert (number_of_args_string false "0" = Ok (NumInt 0)) as H2
    by (vm_compute; reflexivity).
  assert (is_zero_number (NumInt 0) = true) as H3 by reflexivity.
  split; [exact (conj H1 (conj H2 H3))|].
  exact (div_by_zero_raises no_args_string example_div_by_zero "truediv_0" _
           (example_div_function "0" (S754_zero false))
           (example_tensor 0 [4]%Z) [] (NumInt 0) H1 eq_refl eq_refl H2 H3).
Defined.

(* ================================================================== *)
(** * Float-functional promotion *)

Lemma filter_nodes_elem_of (pred : TraceNode → result bool) graph names :
  ∀ found, filter_nodes pred graph names = Ok found →
  ∀ name, name ∈ found →
    ∃ node, nodes_map graph !! name = Some node ∧ pred node = Ok true.
Proof.
  induction names as [|n names IH]; intros found; cbn [filter_nodes].
  { intros [= <-] name Hin. by apply elem_of_nil in Hin. }
  destruct (nodes_map graph !! n) as [node|] eqn:Hnode.
  - destruct (pred node) as [keep|e] eqn:Hpred; [|done].
    cbn [mbind result_bind].
    destruct (filter_nodes pred graph names) as [found'|e]; [|done].
    cbn [mbind result_bind]. intros [= <-] name Hin.
    destruct keep; [|by eapply IH].
    apply elem_of_cons in Hin as [->|Hin]; [by exists node|by eapply IH].
  - cbn [mbind result_bind].
    destruct (filter_nodes pred graph names) as [found'|e]; [|done].
    cbn [mbind result_bind]. intros [= <-] name Hin. by eapply IH.
Qed.

Lemma is_convertible_node_kind node f :
  module node = Function f → is_convertible_node node = Ok true →
  tf_kind f ∈ ["add"; "mul"; "cat"].
Proof.
  intros Hmod. unfold is_convertible_node. rewrite Hmod.
  case_bool_decide; [done|]. discriminate.
Qed.

(** The operation type chosen for an [add], a [mul] or a [cat] is none of
    the in-place or reflected method names. *)
Lemma promoted_op_type_plain graph node op_kind op_type :
  op_kind ∈ ["add"; "mul"; "cat"] →
  promoted_op_type graph node op_kind = Ok op_type →
  op_type ∈ ["add"; "mul"; "cat"; "add_scalar"; "mul_scalar"].
Proof.
  intros Hkind. unfold promoted_op_type.
  assert (op_kind +:+ "_scalar" ∈ ["add"; "mul"; "cat"; "add_scalar"; "mul_scalar"]
          ∨ op_kind = "cat") as Hscalar.
  { repeat (apply elem_of_cons in Hkind as [->|Hkind]);
      [left|left|right; done|by apply elem_of_nil in Hkind]; set_solver. }
  assert (op_kind ∈ ["add"; "mul"; "cat"; "add_scalar"; "mul_scalar"]) as Hplain
    by set_solver.
  case_bool_decide as Hadd; [|by intros [= <-]].
  assert (op_kind +:+ "_scalar" ∈ ["add"; "mul"; "cat"; "add_scalar"; "mul_scalar"])
    as Hscalar'.
  { destruct Hscalar as [?| ->]; [done|]. set_solver. }
  destruct (decide (length (prev_tensors node) = 2%nat)) as [Htwo|Htwo].
  - destruct (index (prev_nodes node) 1) as [second|err]; [|done].
    cbn [mbind result_bind].
    destruct (nodes_map graph !! second) as [second_node|]; [|done].
    destruct (index (prev_nodes second_node) 0) as [origin|err]; [|done].
    cbn [mbind result_bind].
    destruct (nodes_map graph !! origin) as [origin_node|]; [|done].
    by destruct (negb _); intros [= <-].
  - destruct (decide (length (prev_tensors node) = 1%nat)) as [Hone|Hone]; [|done].
    by intros [= <-].
Qed.

Section promotion_lemmas.
Context (float_functional_line : string).

Lemma func_type_of_set_node_module graph name node f :
  nodes_map graph !! name = Some node →
  func_type_of (set_node_module name (Function f) graph) name
  = Some (tf_func_type f).
Proof.
  intros Hnode. unfold func_type_of.
  cbn [set_node_module set_nodes_map nodes_map].
  by rewrite lookup_alter_eq, Hnode.
Qed.

(** A round on a node of kind [add], [mul] or [cat] calls neither branch. *)
Lemma promote_node_round inplace_branch reflected_branch idx name st node f :
  nodes_map (ps_graph st) !! name = Some node →
  module node = Function f →
  tf_kind f ∈ ["add"; "mul"; "cat"] →
  promote_node float_functional_line inplace_branch reflected_branch idx name st
  = promote_node float_functional_line (λ _ graph, Ok graph) (λ _ graph, Ok graph)
                 idx name st
  ∧ ∀ st',
      promote_node float_functional_line inplace_branch reflected_branch
                   idx name st = Ok st' →
      (∃ op_type,
         func_type_of (ps_graph st') name = Some op_type
         ∧ op_type ∈ ["add"; "mul"; "cat"; "add_scalar"; "mul_scalar"])
      ∧ ∀ n node' f',
          nodes_map (ps_graph st') !! n = Some node' →
          module node' = Function f' →
          (n = name ∧ tf_kind f' = tf_kind f)
          ∨ nodes_map (ps_graph st) !! n = Some node'.
Proof.
  intros Hnode Hmod Hkind. unfold promote_node. rewrite Hnode, Hmod.
  cbn zeta.
  set (module_name := "float_functional_simple_" +:+ pretty idx).
  set (graph1 := mkTraceGraph _ _ _ _ _ _ _).
  destruct (promoted_op_type (ps_graph st) node (tf_kind f)) as [op_type|e] eqn:Hop;
    [|done].
  cbn [mbind result_bind].
  pose proof (promoted_op_type_plain _ _ _ _ Hkind Hop) as Hplain.
  set (f' := mkTraceFunction _ op_type _ _ _ _ _).
  assert (is_Some (nodes_map graph1 !! name)) as [node1 Hnode1].
  { subst graph1. cbn [nodes_map new_module_node unique_name].
    destruct (decide (module_name = name)) as [->|Hne].
    - rewrite lookup_insert_eq. by eexists.
    - rewrite lookup_insert_ne by done. by eexists. }
  rewrite (func_type_of_set_node_module graph1 name node1 f' Hnode1).
  cbn [tf_func_type f'].
  rewrite (bool_decide_eq_false_2 (Some op_type ∈ Some <$> ["__iadd__"; _; _; _])).
  2:{ intros Hin. apply list_elem_of_fmap in Hin as (t & [= <-] & Hin).
      revert Hplain Hin. clear. intros Hplain Hin.
      repeat (apply elem_of_cons in Hplain as [->|Hplain]);
        [..|by apply elem_of_nil in Hplain];
        repeat (apply elem_of_cons in Hin as [Hin|Hin]; [discriminate Hin|]);
        by apply elem_of_nil in Hin. }
  cbn [mbind result_bind].
  rewrite (func_type_of_set_node_module graph1 name node1 f' Hnode1).
  cbn [tf_func_type f'].
  rewrite (bool_decide_eq_false_2 (Some op_type ∈ Some <$> ["__radd__"; _])).
  2:{ intros Hin. apply list_elem_of_fmap in Hin as (t & [= <-] & Hin).
      revert Hplain Hin. clear. intros Hplain Hin.
      repeat (apply elem_of_cons in Hplain as [->|Hplain]);
        [..|by apply elem_of_nil in Hplain];
        repeat (apply elem_of_cons in Hin as [Hin|Hin]; [discriminate Hin|]);
        by apply elem_of_nil in Hin. }
  cbn [mbind result_bind]. split; [done|].
  intros st' [= <-]. cbn [ps_graph]. split.
  - exists op_type. split; [|done].
    by rewrite (func_type_of_set_node_module graph1 name node1 f' Hnode1).
  - intros n node' fn Hn Hfn.
    cbn [set_node_module set_nodes_map nodes_map] in Hn.
    destruct (decide (n = name)) as [->|Hne].
    + left. split; [done|]. rewrite lookup_alter_eq, Hnode1 in Hn.
      injection Hn as <-. cbn [set_module module] in Hfn.
      by injection Hfn as <-.
    + right. rewrite lookup_alter_ne in Hn by done.
      subst graph1. cbn [nodes_map new_module_node unique_name] in Hn.
      destruct (decide (module_name = n)) as [<- |Hne'].
      * rewrite lookup_insert_eq in Hn. injection Hn as <-. done.
      * by rewrite lookup_insert_ne in Hn.
Qed.

Lemma promote_nodes_rounds inplace_branch reflected_branch names : ∀ idx st,
  (∀ name node f, name ∈ names → nodes_map (ps_graph st) !! name = Some node →
                  module node = Function f → tf_kind f ∈ ["add"; "mul"; "cat"]) →
  promote_nodes float_functional_line inplace_branch reflected_branch idx names st
  = promote_nodes float_functional_line (λ _ graph, Ok graph) (λ _ graph, Ok graph)
                  idx names st.
Proof.
  induction names as [|name names IH]; intros idx st Hkinds; [done|].
  cbn [promote_nodes].
  destruct (nodes_map (ps_graph st) !! name) as [node|] eqn:Hnode.
  2:{ unfold promote_node. by rewrite Hnode. }
  destruct (module node) as [cls|f] eqn:Hmod.
  { unfold promote_node. rewrite Hnode, Hmod. cbn [mbind result_bind].
    apply IH. intros n node' f' Hn. apply Hkinds. by right. }
  assert (tf_kind f ∈ ["add"; "mul"; "cat"]) as Hkind.
  { eapply Hkinds; [by left|done..]. }
  destruct (promote_node_round inplace_branch reflected_branch idx name st node f
              Hnode Hmod Hkind) as [Hsame Hafter].
  rewrite <-Hsame.
  destruct (promote_node _ inplace_branch reflected_branch idx name st)
    as [st'|e] eqn:Hround; [|done].
  cbn [mbind result_bind]. apply IH.
  intros n node' f' Hn Hnode' Hf'.
  destruct (Hafter st' eq_refl) as [_ Hnodes].
  destruct (Hnodes n node' f' Hnode' Hf') as [[-> ->]|Hold]; [done|].
  eapply Hkinds; [by right|done..].
Qed.

(** X16.  The promotion of [add], [mul] and [cat] to [FloatFunctional]
    never runs the two conditionals that close its loop: the function type
    they test has just been set to [add], [mul], [cat], [add_scalar] or
    [mul_scalar], which is none of the in-place and reflected names they
    look for.  So the pass does the same whatever those branches would do:
    in-place operations get no alias from it and [__radd__] and [__rmul__]
    keep their recorded arguments. *)
Theorem promotion_skips_its_branches inplace_branch reflected_branch st :
  promote_float_functionals float_functional_line inplace_branch reflected_branch st
  = promote_float_functionals float_functional_line
      (λ _ graph, Ok graph) (λ _ graph, Ok graph) st
  ∧ ∀ idx name node f st',
      nodes_map (ps_graph st) !! name = Some node →
      module node = Function f →
      is_convertible_node node = Ok true →
      promote_node float_functional_line inplace_branch reflected_branch
                   idx name st = Ok st' →
      ∃ op_type,
        func_type_of (ps_graph st') name = Some op_type
        ∧ op_type ∈ ["add"; "mul"; "cat"; "add_scalar"; "mul_scalar"].
Proof.
  split.
  - unfold promote_float_functionals.
    destruct (filter_nodes is_convertible_node (ps_graph st)
                (forward_nodes (ps_graph st))) as [names|e] eqn:Hfilter; [|done].
    cbn [mbind result_bind]. apply promote_nodes_rounds.
    intros name node f Hin Hnode Hmod.
    destruct (filter_nodes_elem_of _ _ _ _ Hfilter name Hin)
      as (node' & Hnode' & Hpred).
    assert (node' = node) as -> by congruence.
    by eapply is_convertible_node_kind.
  - intros idx name node f st' Hnode Hmod Hpred Hround.
    pose proof (is_convertible_node_kind node f Hmod Hpred) as Hkind.
    destruct (promote_node_round inplace_branch reflected_branch idx name st
                node f Hnode Hmod Hkind) as [_ Hafter].
    by destruct (Hafter st' Hround) as [Hop _].
Qed.
End promotion_lemmas.

(** The reflected addition [2 + x] goes through the promotion with
    branches that would fail if they were run; it comes out as
    [add_scalar] on the first [FloatFunctional]. *)
Example example_radd_promotion :
  ∃ st,
    promote_float_functionals "FloatFunctional()"
      (λ _ _, Raise ValueError) (λ _ _, Raise ValueError)
      (mkPromotionState example_radd_graph ∅ [] ∅) = Ok st
    ∧ (∃ node f,
         nodes_map (ps_graph st) !! "op_0" = Some node
         ∧ module node = Function f
         ∧ tf_func_type f = "add_scalar" ∧ tf_kind f = "add"
         ∧ tf_full_name f = "self.float_functional_simple_0.add_scalar"
         ∧ tf_is_class f = false
         ∧ tf_args_parsed f = [ArgTensor (example_tensor 0 [4]%Z); ArgInt 2])
    ∧ ps_other_init_nodes st = ["float_functional_simple_0"]
    ∧ module <$> nodes_map (ps_graph st) !! "float_functional_simple_0"
      = Some (NNModule FloatFunctional).
Proof.
  eexists. split; [by vm_compute|]. split_and!.
  - eexists _, _. split_and!; by vm_compute.
  - by vm_compute.
  - by vm_compute.
Qed.

(* ================================================================== *)
(** * Seeding the input statistics *)

Section quantized_inputs_lemmas.
Context {modules : Type}
        (set_module_quantization : nat → stat → stat → modules → outcome modules).

(** With [None] for statistics the loop over the successors fails at the
    first QuantStub, and does nothing when there is none. *)
Lemma seed_quant_stubs_none graph nexts m :
  (∀ next, next ∈ nexts → is_Some (nodes_map graph !! next)) →
  (Exists (λ next, ∃ next_node, nodes_map graph !! next = Some next_node
                                ∧ module_is QuantStub next_node = true) nexts
   → seed_quant_stubs set_module_quantization graph QNone nexts m
     = Failed TypeError)
  ∧ (Forall (λ next, ∀ next_node, nodes_map graph !! next = Some next_node →
                                  module_is QuantStub next_node = false) nexts
     → seed_quant_stubs set_module_quantization graph QNone nexts m = Done m).
Proof.
  induction nexts as [|next nexts IH]; intros Hnodes; cbn [seed_quant_stubs].
  { split; [|done]. intros Hex. by apply Exists_nil in Hex. }
  destruct (Hnodes next) as [next_node Hnext]; [by left|].
  rewrite Hnext.
  destruct IH as [IHex IHall]; [intros n Hn; apply Hnodes; by right|].
  destruct (module_is QuantStub next_node) eqn:Hstub;
    cbn [qstats_item mbind outcome_bind].
  - split; [done|]. intros Hall. apply Forall_cons in Hall as [Hhead _].
    specialize (Hhead next_node Hnext). congruence.
  - split.
    + intros Hex. apply Exists_cons in Hex as [(n' & Hn' & Hs)|Hex];
        [congruence|by apply IHex].
    + intros Hall. apply Forall_cons in Hall as [_ Hall]. by apply IHall.
Qed.

(** A run of the successor loop that succeeds on [None] met no QuantStub. *)
Lemma seed_quant_stubs_done_none graph nexts : ∀ m m',
  seed_quant_stubs set_module_quantization graph QNone nexts m = Done m' →
  ∀ next next_node, next ∈ nexts → nodes_map graph !! next = Some next_node →
                    module_is QuantStub next_node = false.
Proof.
  induction nexts as [|n nexts IH]; intros m m' Hrun next next_node Hin Hnext.
  { by apply elem_of_nil in Hin. }
  cbn [seed_quant_stubs] in Hrun.
  destruct (nodes_map graph !! n) as [n_node|] eqn:Hn; [|done].
  destruct (module_is QuantStub n_node) eqn:Hstub; [done|].
  cbn [mbind outcome_bind] in Hrun.
  apply elem_of_cons in Hin as [->|Hin]; [congruence|].
  by eapply IH.
Qed.

Lemma seed_inputs_done graph entries : ∀ m m',
  seed_inputs set_module_quantization graph entries m = Done m' →
  ∀ q name node, (q, name) ∈ entries → nodes_map graph !! name = Some node →
    (q = QNone ∨ well_formed_stats q = true)
    ∧ (q = QNone →
       ∀ next next_node, next ∈ next_nodes node →
                         nodes_map graph !! next = Some next_node →
                         module_is QuantStub next_node = false).
Proof.
  induction entries as [|[q0 name0] entries IH]; intros m m' Hrun q name node Hin Hnode.
  { by apply elem_of_nil in Hin. }
  cbn [seed_inputs] in Hrun.
  destruct (negb (is_none q0) && negb (well_formed_stats q0)) eqn:Hcheck; [done|].
  destruct (nodes_map graph !! name0) as [node0|] eqn:Hnode0; [|done].
  destruct (seed_quant_stubs _ graph q0 (next_nodes node0) m) as [m1|e] eqn:Hstubs;
    [|done].
  cbn [mbind outcome_bind] in Hrun.
  apply elem_of_cons in Hin as [[= -> ->]|Hin]; [|by eapply IH].
  assert (node0 = node) as -> by congruence.
  split.
  - apply andb_false_iff in Hcheck as [Hnone|Hwell].
    + left. apply negb_false_iff in Hnone. by destruct q0.
    + right. by apply negb_false_iff in Hwell.
  - intros ->. by eapply seed_quant_stubs_done_none.
Qed.

(** The loop over the inputs runs through a first part of the entries and
    then through the rest. *)
Lemma seed_inputs_app graph entries rest : ∀ m,
  seed_inputs set_module_quantization graph (entries ++ rest) m
  = m' ← seed_inputs set_module_quantization graph entries m;
    seed_inputs set_module_quantization graph rest m'.
Proof.
  induction entries as [|[q name] entries IH]; intros m; [done|].
  cbn [app seed_inputs].
  destruct (negb (is_none q) && negb (well_formed_stats q)); [done|].
  destruct (nodes_map graph !! name) as [node|]; [|done].
  destruct (seed_quant_stubs _ graph q (next_nodes node) m) as [m1|e]; [|done].
  cbn [mbind outcome_bind]. apply IH.
Qed.

(** X17.  Seeding the input statistics.  When the pass runs through, the
    list has one entry per input, every entry that is not [None] is a pair
    of numbers, and no input whose entry is [None] feeds a QuantStub.  The
    entries are taken in order and the first that fails decides: when the
    entries before position [i] fail, the pass fails as they do; when they
    go through and entry [i] is [None] on an input that feeds a QuantStub,
    the pass raises [TypeError].  Without statistics the pass does
    nothing. *)
Theorem quantized_input_stats_entries graph (m : modules) :
  (∀ stats m',
     prepare_quantized_inputs_pass set_module_quantization (Some stats) graph m
       = Done m' →
     length stats = length (input_nodes graph)
     ∧ ∀ i q name node,
         stats !! i = Some q → input_nodes graph !! i = Some name →
         nodes_map graph !! name = Some node →
         (q = QNone ∨ well_formed_stats q = true)
         ∧ (q = QNone →
            ∀ next next_node, next ∈ next_nodes node →
                              nodes_map graph !! next = Some next_node →
                              module_is QuantStub next_node = false))
  ∧ (∀ stats i e,
       length stats = length (input_nodes graph) →
       seed_inputs set_module_quantization graph
         (zip (take i stats) (take i (input_nodes graph))) m = Failed e →
       prepare_quantized_inputs_pass set_module_quantization (Some stats) graph m
       = Failed e)
  ∧ (∀ stats i m_i name node,
       length stats = length (input_nodes graph) →
       seed_inputs set_module_quantization graph
         (zip (take i stats) (take i (input_nodes graph))) m = Done m_i →
       stats !! i = Some QNone → input_nodes graph !! i = Some name →
       nodes_map graph !! name = Some node →
       (∀ next, next ∈ next_nodes node → is_Some (nodes_map graph !! next)) →
       Exists (λ next, ∃ next_node, nodes_map graph !! next = Some next_node
                                    ∧ module_is QuantStub next_node = true)
              (next_nodes node) →
       prepare_quantized_inputs_pass set_module_quantization (Some stats) graph m
       = Failed TypeError)
  ∧ prepare_quantized_inputs_pass set_module_quantization None graph m = Done m.
Proof.
  assert (∀ (stats : list qstats) i,
            zip stats (input_nodes graph)
            = zip (take i stats) (take i (input_nodes graph))
              ++ zip (drop i stats) (drop i (input_nodes graph))) as Hsplit.
  { intros stats i.
    rewrite <-(take_drop i (zip stats (input_nodes graph))) at 1.
    by rewrite zip_with_take, zip_with_drop. }
  split_and!; [| | |done].
  - intros stats m'. unfold prepare_quantized_inputs_pass.
    destruct (decide (length stats = length (input_nodes graph))) as [Hlen|];
      [|done].
    intros Hrun. split; [done|]. intros i q name node Hq Hname Hnode.
    eapply seed_inputs_done; [exact Hrun| |exact Hnode].
    apply list_elem_of_lookup. exists i. apply lookup_zip_with_Some.
    by exists q, name.
  - intros stats i e Hlen Hfront. unfold prepare_quantized_inputs_pass.
    rewrite decide_True by done.
    by rewrite (Hsplit stats i), seed_inputs_app, Hfront.
  - intros stats i m_i name node Hlen Hfront Hq Hname Hnode Hnexts Hstub.
    unfold prepare_quantized_inputs_pass. rewrite decide_True by done.
    rewrite (Hsplit stats i), seed_inputs_app, Hfront.
    cbn [mbind outcome_bind].
    rewrite (drop_S _ _ _ Hq), (drop_S _ _ _ Hname).
    cbn [zip zip_with seed_inputs is_none negb andb]. rewrite Hnode.
    destruct (seed_quant_stubs_none graph (next_nodes node) m_i Hnexts)
      as [Hfail _].
    by rewrite (Hfail Hstub).
Qed.
End quantized_inputs_lemmas.

(** In the example graph the input feeds the QuantStub, so statistics
    [[None]] make the pass fail; in the graph of an input wired to the
    output they are passed over.  With two inputs that feed a QuantStub
    each, [None] in the second place fails after the first entry went
    through, and not at all when the first entry is no pair. *)
Example example_none_statistics :
  prepare_quantized_inputs_pass (λ _ _ _ (m : unit), Done m)
    (Some [QNone]) example_graph tt = Failed TypeError
  ∧ prepare_quantized_inputs_pass (λ _ _ _ (m : unit), Done m)
      (Some [QNone]) example_io_graph tt = Done tt
  ∧ prepare_quantized_inputs_pass (λ _ _ _ (m : unit), Done m)
      (Some [QSeq [StatNumber (NumInt 0); StatNumber (NumInt 255)]])
      example_graph tt = Done tt
  ∧ prepare_quantized_inputs_pass (λ _ _ _ (m : unit), Done m)
      (Some []) example_graph tt
    = Failed (Raised (AssertionError
        "quantized_input_stats contains 0 elements, but 1 is expected"))
  ∧ prepare_quantized_inputs_pass (λ _ _ _ (m : unit), Done m)
      (Some [QSeq [StatNumber (NumInt 0); StatNumber (NumInt 255)]; QNone])
      example_two_input_graph tt = Failed TypeError
  ∧ prepare_quantized_inputs_pass (λ _ _ _ (m : unit), Done m)
      (Some [QOther; QNone]) example_two_input_graph tt
    = Failed (Raised (AssertionError
        "quantized_input_stats format: [(mean_1, std_1), (mean_2, std_2), ..., (mean_n, std_n)]")).
Proof. split_and!; vm_compute; reflexivity. Qed.

(* ================================================================== *)
(** * The [dim] of a stack *)

Lemma string_of_list_ascii_app (l1 l2 : list ascii) :
  string_of_list_ascii (l1 ++ l2)
  = string_of_list_ascii l1 +:+ string_of_list_ascii l2.
Proof.
  induction l1 as [|c l1 IH]; [done|].
  change (String c (string_of_list_ascii (l1 ++ l2))
          = String c (string_of_list_ascii l1 +:+ string_of_list_ascii l2)).
  by f_equal.
Qed.

(** Splitting a text without the separator, and at its first separator. *)
Lemma split_on_none sep l : ∀ word,
  sep ∉ l → split_on sep l word = [string_of_list_ascii (reverse word ++ l)].
Proof.
  induction l as [|c l IH]; intros word Hsep; cbn [split_on].
  { by rewrite app_nil_r. }
  apply not_elem_of_cons in Hsep as [Hc Hl].
  rewrite bool_decide_eq_false_2 by done. rewrite IH by done.
  by rewrite reverse_cons, <-app_assoc.
Qed.

Lemma split_on_first sep l1 l2 : ∀ word,
  sep ∉ l1 →
  split_on sep (l1 ++ sep :: l2) word
  = string_of_list_ascii (reverse word ++ l1) :: split_on sep l2 [].
Proof.
  induction l1 as [|c l1 IH]; intros word Hsep; cbn [app split_on].
  { rewrite bool_decide_eq_true_2 by done. by rewrite app_nil_r. }
  apply not_elem_of_cons in Hsep as [Hc Hl].
  rewrite bool_decide_eq_false_2 by done. rewrite IH by done.
  by rewrite reverse_cons, <-app_assoc.
Qed.

Lemma split_on_nonempty sep l : ∀ word, split_on sep l word ≠ [].
Proof.
  induction l as [|c l IH]; intros word; cbn [split_on]; [done|].
  destruct (bool_decide (c = sep)); [done|]. apply IH.
Qed.

Lemma elem_of_first_split (sep : ascii) (l : list ascii) :
  sep ∈ l → ∃ l1 l2, l = l1 ++ sep :: l2 ∧ (sep ∉ l1).
Proof.
  induction l as [|c l IH]; intros Hin; [by apply elem_of_nil in Hin|].
  destruct (decide (c = sep)) as [->|Hne].
  - exists [], l. split; [done|]. apply not_elem_of_nil.
  - apply elem_of_cons in Hin as [->|Hin]; [done|].
    destruct (IH Hin) as (l1 & l2 & -> & Hl1).
    exists (c :: l1), l2. split; [done|].
    apply not_elem_of_cons. split; [congruence|done].
Qed.

Lemma string_length_app (s1 s2 : string) :
  String.length (s1 +:+ s2) = (String.length s1 + String.length s2)%nat.
Proof.
  induction s1 as [|c s1 IH]; [done|].
  change (S (String.length (s1 +:+ s2))
          = S (String.length s1 + String.length s2)).
  by f_equal.
Qed.

(** X18.  What the stack rewrite takes for its dimension.  The recorded
    argument text gives a dimension exactly when it has no comma and is
    empty (dimension 0), or has no [=] and [int] reads it, or is [dim=]
    followed by a text without [=] that [int] reads.  A comma raises the
    bare assertion, a keyword other than [dim] as well, and a second [=]
    raises [ValueError]. *)
Theorem stack_dim_forms (args : string) (dim : Z) :
  (stack_dim args = Ok dim ↔
   contains_char "," args = false
   ∧ ((args = EmptyString ∧ dim = 0%Z)
      ∨ (args ≠ EmptyString ∧ contains_char "=" args = false
         ∧ py_int args = Ok dim)
      ∨ (∃ v, args = "dim=" +:+ v ∧ contains_char "=" v = false
              ∧ py_int v = Ok dim)))
  ∧ (contains_char "," args = true →
     stack_dim args = Raise (AssertionError EmptyString))
  ∧ (∀ k v, contains_char "," args = false → args = k +:+ "=" +:+ v →
            contains_char "=" k = false →
            stack_dim args =
              if contains_char "=" v then Raise ValueError
              else if bool_decide (k = "dim") then py_int v
              else Raise (AssertionError EmptyString)).
Proof.
  assert (∀ k v, contains_char "," args = false → args = k +:+ "=" +:+ v →
                 contains_char "=" k = false →
                 stack_dim args =
                   if contains_char "=" v then Raise ValueError
                   else if bool_decide (k = "dim") then py_int v
                   else Raise (AssertionError EmptyString)) as Hkeyword.
  { intros k v Hcomma -> Hk. unfold stack_dim. rewrite Hcomma.
    rewrite decide_True.
    2:{ rewrite !string_length_app. cbn [String.length]. lia. }
    unfold contains_char in *.
    rewrite !list_ascii_of_string_app in *.
    change (list_ascii_of_string "=") with ["="%char].
    apply bool_decide_eq_false in Hk.
    rewrite bool_decide_eq_true_2 by set_solver.
    cbn [app]. rewrite split_on_first by done.
    rewrite reverse_nil, app_nil_l, string_of_list_ascii_of_string.
    destruct (decide ("="%char ∈ list_ascii_of_string v)) as [Hv|Hv].
    - rewrite (bool_decide_eq_true_2 _ Hv).
      destruct (elem_of_first_split _ _ Hv) as (l3 & l4 & Hv' & Hl3).
      rewrite Hv', split_on_first by done.
      pose proof (split_on_nonempty "=" l4 []) as Hne.
      by destruct (split_on "=" l4 []).
    - rewrite (bool_decide_eq_false_2 _ Hv).
      rewrite split_on_none by done.
      by rewrite reverse_nil, app_nil_l, string_of_list_ascii_of_string. }
  split_and!; [|by intros Hcomma; unfold stack_dim; rewrite Hcomma|done].
  destruct (contains_char "," args) eqn:Hcomma.
  { unfold stack_dim. rewrite Hcomma. split; [done|]. by intros [? _]. }
  destruct args as [|c args'] eqn:Hargs.
  { unfold stack_dim. rewrite Hcomma. cbn [String.length].
    rewrite decide_False by lia. split.
    - intros [= <-]. split; [done|]. by left.
    - intros (_ & [[_ ->]|[(Hne & _)|(v & Hv & _)]]); done. }
  rewrite <-Hargs in *.
  assert (args ≠ EmptyString) as Hne by (by rewrite Hargs).
  destruct (contains_char "=" args) eqn:Heq.
  - unfold contains_char in Heq. apply bool_decide_eq_true in Heq.
    destruct (elem_of_first_split _ _ Heq) as (l1 & l2 & Hsplit & Hl1).
    assert (args = string_of_list_ascii l1 +:+ "=" +:+ string_of_list_ascii l2)
      as Hform.
    { rewrite <-(string_of_list_ascii_of_string args), Hsplit.
      by rewrite string_of_list_ascii_app. }
    rewrite (Hkeyword _ _ eq_refl Hform).
    2:{ unfold contains_char. rewrite list_ascii_of_string_of_list_ascii.
        by apply bool_decide_eq_false. }
    split.
    + destruct (contains_char "=" (string_of_list_ascii l2)) eqn:Hv; [done|].
      case_bool_decide as Hk; [|done]. intros Hint.
      split; [done|]. right; right. exists (string_of_list_ascii l2).
      by rewrite Hform, Hk.
    + intros (_ & [[Hnil _]|[(_ & Hnoeq & _)|(v & Hv & Hnoeq & Hint)]]).
      * congruence.
      * done.
      * assert (l1 = list_ascii_of_string "dim"
                ∧ l2 = list_ascii_of_string v) as [-> ->].
        { rewrite Hv in Hsplit.
          change ("dim=" +:+ v) with (String "d" (String "i" (String "m"
                                        (String "=" v)))) in Hsplit.
          cbn [list_ascii_of_string] in Hsplit.
          unfold contains_char in Hnoeq. apply bool_decide_eq_false in Hnoeq.
          destruct l1 as [|c1 [|c2 [|c3 [|c4 l1]]]]; cbn [app] in Hsplit.
          - by injection Hsplit.
          - injection Hsplit as _ Hc. discriminate Hc.
          - injection Hsplit as _ _ Hc. discriminate Hc.
          - injection Hsplit as H1 H2 H3 Hv'. by rewrite Hv', <-H1, <-H2, <-H3.
          - injection Hsplit as _ _ _ Hc _.
            destruct Hl1. rewrite <-Hc. do 3 right. by left. }
        rewrite !string_of_list_ascii_of_string, Hnoeq.
        by rewrite bool_decide_eq_true_2.
  - unfold stack_dim. rewrite Hcomma, Heq.
    rewrite decide_True by (rewrite Hargs; cbn; lia).
    split.
    + intros Hint. split; [done|]. right; left. done.
    + intros (_ & [[Hnil _]|[(_ & _ & Hint)|(v & Hv & _)]]); [congruence|done|].
      rewrite Hv in Heq. unfold contains_char in Heq.
      apply bool_decide_eq_false in Heq. destruct Heq.
      change ("dim=" +:+ v) with (String "d" (String "i" (String "m"
                                    (String "=" v)))).
      cbn [list_ascii_of_string]. do 3 right. by left.
Qed.

Example example_stack_dims :
  stack_dim EmptyString = Ok 0%Z
  ∧ stack_dim "1" = Ok 1%Z
  ∧ stack_dim "-1" = Ok (-1)%Z
  ∧ stack_dim "dim=2" = Ok 2%Z
  ∧ stack_dim "axis=2" = Raise (AssertionError EmptyString)
  ∧ stack_dim "1, out=None" = Raise (AssertionError EmptyString)
  ∧ stack_dim "dim=x=1" = Raise ValueError
  ∧ stack_dim "dim=x" = Raise ValueError.
Proof. split_and!; by vm_compute. Qed.

(* ================================================================== *)
(** * Rescaling the activations *)

Section rescale_lemmas.
Context {scale_tensor zero_point_tensor : Type}
        (tensor_mul_int tensor_div_int : scale_tensor → Z → scale_tensor)
        (zeros_like : zero_point_tensor → zero_point_tensor)
        (tensor_add_int : zero_point_tensor → Z → zero_point_tensor).

(** X19.  Rescaling the activations to [quant_min .. quant_max] keeps the
    modules and their names; it leaves alone every module with
    [.weight_fake_quant] in its name, every module that is no
    [FakeQuantize] and every [FakeQuantize] without an observer; in the
    others it sets the range of the module and of its observer and fills
    the zero point with [(quant_max - quant_min + 1) // 2].  That value is
    the middle of the range rounded up when the range starts at 0, and so
    within it; for a signed range [-n - 1 .. n] it is [n + 1], one past
    [quant_max]. *)
Theorem rescaled_activations (quant_min quant_max : Z)
    (named_modules : list (string * named_module)) :
  let rescaled :=
    rescale_activations_with_quant_min_max tensor_mul_int tensor_div_int
      zeros_like tensor_add_int quant_min quant_max named_modules in
  let zero_point := ((quant_max - quant_min + 1) `div` 2)%Z in
  rescaled.*1 = named_modules.*1
  ∧ (∀ i n m m',
       named_modules !! i = Some (n, m) → rescaled !! i = Some (n, m') →
       match m with
       | FakeQuantize fq =>
           if contains_text (list_ascii_of_string ".weight_fake_quant")
                            (list_ascii_of_string n)
           then m' = m
           else
             match fq_activation_post_process fq with
             | None => m' = m
             | Some _ =>
                 ∃ fq', m' = FakeQuantize fq'
                   ∧ fq_quant_min fq' = quant_min ∧ fq_quant_max fq' = quant_max
                   ∧ fq_activation_post_process fq'
                     = Some (mkObserver quant_min quant_max)
                   ∧ fq_zero_point fq'
                     = tensor_add_int (zeros_like (fq_zero_point fq)) zero_point
                   ∧ fq_scale fq'
                     = tensor_div_int
                         (tensor_mul_int (fq_scale fq) (quant_max - quant_min))
                         (fq_quant_max fq - fq_quant_min fq)
             end
       | OtherModule => m' = m
       end)
  ∧ (quant_min = 0 → 0 ≤ quant_max →
     0 ≤ zero_point ≤ quant_max ∧ 2 * zero_point - 1 ≤ quant_max ≤ 2 * zero_point)%Z
  ∧ (0 ≤ quant_max → quant_min = - quant_max - 1 →
     zero_point = quant_max + 1)%Z.
Proof.
  cbn zeta. unfold rescale_activations_with_quant_min_max. split_and!.
  - rewrite <-list_fmap_compose. apply list_fmap_ext.
    intros i [n m] _. cbn [compose rescale_module].
    destruct (contains_text _ _); [done|].
    destruct m as [fq|]; [|done]. by destruct (fq_activation_post_process fq).
  - intros i n m m' Hm. rewrite list_lookup_fmap, Hm.
    cbn [fmap option_fmap option_map rescale_module].
    destruct (contains_text _ _).
    { intros [= <-]. by destruct m. }
    destruct m as [fq|]; [|by intros [= <-]].
    destruct (fq_activation_post_process fq) as [ob|] eqn:Hob;
      [|by intros [= <-]].
    intros [= <-]. eexists. split; [done|].
    cbn [rescale_fake_quantize fq_quant_min fq_quant_max fq_zero_point fq_scale
         fq_activation_post_process].
    by rewrite Hob.
  - intros -> Hmax. rewrite Z.sub_0_r.
    pose proof (Z.div_mod (quant_max + 1) 2 ltac:(lia)) as Hdiv.
    pose proof (Z.mod_pos_bound (quant_max + 1) 2 ltac:(lia)) as Hmod.
    lia.
  - intros Hmax ->.
    replace (quant_max - (- quant_max - 1) + 1)%Z with ((quant_max + 1) * 2)%Z
      by lia.
    by rewrite Z.div_mul.
Qed.
End rescale_lemmas.

(** A quint8 activation rescaled to the signed range of qint8: the zero
    point becomes 128, which the new range does not hold; the weight
    fake-quantizer is not touched. *)
Example example_rescale_signed :
  rescale_activations_with_quant_min_max Z.mul Z.div (λ _ : Z, 0%Z) Z.add
    (-128) 127
    [ ("conv.weight_fake_quant",
       FakeQuantize (mkFakeQuantize (-127) 127 1%Z 0%Z
                       (Some (mkObserver (-127) 127))));
      ("conv.activation_post_process",
       FakeQuantize (mkFakeQuantize 0 255 255%Z 0%Z (Some (mkObserver 0 255))));
      ("conv", OtherModule) ]
  = [ ("conv.weight_fake_quant",
       FakeQuantize (mkFakeQuantize (-127) 127 1%Z 0%Z
                       (Some (mkObserver (-127) 127))));
      ("conv.activation_post_process",
       FakeQuantize (mkFakeQuantize (-128) 127 255%Z 128%Z
                       (Some (mkObserver (-128) 127))));
      ("conv", OtherModule) ].
Proof. by vm_compute. Qed.
